(** * GreenThumb plant-knowledge subsystem: caches, registry, rate limiter,
      retrying client and mention extractor.

    Shallow embedding of
      supabase/functions/greenthumb-chat/trefle/cache.ts
      supabase/functions/greenthumb-chat/trefle/client.ts
      supabase/functions/greenthumb-chat/trefle/extractors.ts
      supabase/functions/greenthumb-chat/providers/plant-context.ts
      supabase/functions/greenthumb-chat/actions/reply-with-plant-info.ts

    Conventions.
    - [Date.now()] is an explicit argument [now : Z] (milliseconds).
    - A JavaScript [Map<string, V>] is an association list kept in insertion
      order with pairwise distinct keys ([JsMap]); iteration order is list
      order.
    - JavaScript numbers that the code only uses as integers are [Z]. *)

From Stdlib Require Import String Ascii.
From Stdlib Require Import List ZArith Lia Bool Arith.
From Stdlib Require Import Permutation Sorted.
From Stdlib Require Import DecimalString.
Import ListNotations.

Local Open Scope Z_scope.

(* ====================================================================== *)
(** ** Insertion-ordered maps with string keys (JavaScript [Map]) *)
(* ====================================================================== *)

Module JsMap.
Section WithValue.
Context {V : Type}.

Definition t := list (string * V).

Definition empty : t := [].

Fixpoint get (m : t) (k : string) : option V :=
  match m with
  | [] => None
  | (k', v) :: m' => if String.eqb k' k then Some v else get m' k
  end.

Definition has (m : t) (k : string) : bool :=
  match get m k with Some _ => true | None => false end.

(** [Map.prototype.set]: an existing key keeps its position, a new key is
    appended. *)
Fixpoint set (m : t) (k : string) (v : V) : t :=
  match m with
  | [] => [(k, v)]
  | (k', v') :: m' =>
      if String.eqb k' k then (k', v) :: m' else (k', v') :: set m' k v
  end.

Definition delete (m : t) (k : string) : t :=
  filter (fun e => negb (String.eqb (fst e) k)) m.

Definition size (m : t) : Z := Z.of_nat (length m).

Definition keys (m : t) : list string := map fst m.
Definition values (m : t) : list V := map snd m.

(** Representation invariant: keys are pairwise distinct. *)
Definition wf (m : t) : Prop := NoDup (keys m).

End WithValue.
Arguments t : clear implicits.
End JsMap.

(* ====================================================================== *)
(** ** cache.ts: [TrefleCache<T>] *)
(* ====================================================================== *)

Definition CACHE_TTL_MS : Z := 5 * 60 * 1000.
Definition MAX_CACHE_SIZE : Z := 500.

Record CacheEntry (T : Type) : Type := mkEntry { data : T; timestamp : Z }.
Arguments mkEntry {T}.
Arguments data {T}.
Arguments timestamp {T}.

(** The record returned by [getStats()]. *)
Module CacheStats.
Record t : Type := mk {
  size : Z;
  oldestAge : option Z;
  newestAge : option Z
}.
End CacheStats.

Module TrefleCache.
Section WithData.
Context {T : Type}.

Record t : Type := mk {
  cache : JsMap.t (CacheEntry T);
  ttlMs : Z;
  maxSize : Z
}.

(** [new TrefleCache(name, ttlMs, maxSize)]; the name only labels logs. *)
Definition new (ttl cap : Z) : t := mk JsMap.empty ttl cap.

Definition with_cache (c : t) (m : JsMap.t (CacheEntry T)) : t :=
  mk m (ttlMs c) (maxSize c).

Definition size (c : t) : Z := JsMap.size (cache c).

(** [get(key)]: a stale hit is deleted and reported as [null]. *)
Definition get (now : Z) (c : t) (key : string) : option T * t :=
  match JsMap.get (cache c) key with
  | None => (None, c)
  | Some entry =>
      if now - timestamp entry >? ttlMs c
      then (None, with_cache c (JsMap.delete (cache c) key))
      else (Some (data entry), c)
  end.

(** Stable sort of the entries by ascending timestamp, as
    [[...entries()].sort((a, b) => a[1].timestamp - b[1].timestamp)]. *)
Fixpoint insert_by_ts (x : string * CacheEntry T)
         (l : list (string * CacheEntry T)) : list (string * CacheEntry T) :=
  match l with
  | [] => [x]
  | y :: l' =>
      if timestamp (snd x) <=? timestamp (snd y)
      then x :: y :: l'
      else y :: insert_by_ts x l'
  end.

Definition sort_by_ts (l : list (string * CacheEntry T))
  : list (string * CacheEntry T) :=
  fold_right insert_by_ts [] l.

(** [Math.max(1, Math.floor(maxSize * 0.1))]. For an integer capacity the
    floating-point product lies so close above [maxSize / 10] that its floor
    is the integer quotient (20, 30 and 50 for the capacities in use). *)
Definition entriesToRemove (c : t) : Z := Z.max 1 (maxSize c / 10).

Definition oldestKeys (c : t) : list string :=
  map fst (firstn (Z.to_nat (entriesToRemove c)) (sort_by_ts (cache c))).

Definition evictOldest (c : t) : t :=
  with_cache c (fold_left JsMap.delete (oldestKeys c) (cache c)).

Definition set (now : Z) (c : t) (key : string) (d : T) : t :=
  let c1 := if size c >=? maxSize c then evictOldest c else c in
  with_cache c1 (JsMap.set (cache c1) key (mkEntry d now)).

Definition has (now : Z) (c : t) (key : string) : bool * t :=
  match get now c key with
  | (Some _, c') => (true, c')
  | (None, c') => (false, c')
  end.

Definition delete (c : t) (key : string) : bool * t :=
  (JsMap.has (cache c) key, with_cache c (JsMap.delete (cache c) key)).

Definition clear (c : t) : t := with_cache c JsMap.empty.

Definition cleanup (now : Z) (c : t) : Z * t :=
  let live := filter (fun e => negb (now - timestamp (snd e) >? ttlMs c))
                     (cache c) in
  (JsMap.size (cache c) - JsMap.size live, with_cache c live).

(** A sequence of [set] calls, each at its own clock reading. *)
Fixpoint run_sets (c : t) (ops : list (Z * string * T)) : t :=
  match ops with
  | [] => c
  | (now, k, d) :: ops' => run_sets (set now c k d) ops'
  end.

(** [getStats()]: [span] is [(oldest, newest)] after the [for] loop. *)
Definition getStats (now : Z) (c : t) : CacheStats.t :=
  if size c =? 0 then CacheStats.mk 0 None None
  else
    let span :=
      fold_left (fun (on : Z * Z) (entry : CacheEntry T) =>
                   (if timestamp entry <? fst on
                    then timestamp entry else fst on,
                    if timestamp entry >? snd on
                    then timestamp entry else snd on))
                (JsMap.values (cache c)) (now, 0) in
    CacheStats.mk (size c) (Some (now - fst span)) (Some (now - snd span)).

End WithData.
Arguments t : clear implicits.
End TrefleCache.

(* ====================================================================== *)
(** ** JavaScript strings

    A string is a sequence of code units; the model covers the code units
    U+0000..U+00FF (one [ascii] each, read as Latin-1), on which
    [toLowerCase] and the regular-expression case folding act character by
    character. *)
(* ====================================================================== *)

Module JsString.

Definition code (c : ascii) : N := N_of_ascii c.

Definition in_range (lo hi : N) (c : ascii) : bool :=
  (N.leb lo (code c) && N.leb (code c) hi)%bool.

Definition shift_code (d : Z) (c : ascii) : ascii :=
  ascii_of_N (Z.to_N (Z.of_N (code c) + d)).

(** [String.prototype.toLowerCase] on one code unit: A-Z and the Latin-1
    capitals U+00C0..U+00DE (U+00D7, the multiplication sign, excepted). *)
Definition toLowerChar (c : ascii) : ascii :=
  if in_range 65 90 c then shift_code 32 c
  else if (in_range 192 222 c && negb (N.eqb (code c) 215))%bool
       then shift_code 32 c
       else c.

(** Upper-casing as used by the regular-expression [Canonicalize] step of
    the [i] flag (no [u] flag): a-z and U+00E0..U+00FE (U+00F7 excepted) map
    to their capitals; U+00B5, U+00DF and U+00FF have no capital among the
    modelled code units and stay themselves. *)
Definition canonicalize (c : ascii) : ascii :=
  if in_range 97 122 c then shift_code (-32) c
  else if (in_range 224 254 c && negb (N.eqb (code c) 247))%bool
       then shift_code (-32) c
       else c.

(** [\s], also the set stripped by [trim]: TAB LF VT FF CR SP NBSP. *)
Definition isWhiteSpace (c : ascii) : bool :=
  (in_range 9 13 c || N.eqb (code c) 32 || N.eqb (code c) 160)%bool.

(** Line terminators, excluded by [.]: LF and CR. *)
Definition isLineTerminator (c : ascii) : bool :=
  (N.eqb (code c) 10 || N.eqb (code c) 13)%bool.

(** [\w]: [A-Za-z0-9_]. *)
Definition isWordChar (c : ascii) : bool :=
  (in_range 97 122 c || in_range 65 90 c || in_range 48 57 c
   || N.eqb (code c) 95)%bool.

Fixpoint toLowerCase (s : string) : string :=
  match s with
  | EmptyString => EmptyString
  | String c s' => String (toLowerChar c) (toLowerCase s')
  end.

Fixpoint trimStart (s : string) : string :=
  match s with
  | EmptyString => EmptyString
  | String c s' => if isWhiteSpace c then trimStart s' else s
  end.

Fixpoint trimEnd (s : string) : string :=
  match s with
  | EmptyString => EmptyString
  | String c s' =>
      match trimEnd s' with
      | EmptyString => if isWhiteSpace c then EmptyString
                       else String c EmptyString
      | r => String c r
      end
  end.

Definition trim (s : string) : string := trimEnd (trimStart s).

(** [s.replace(/\s+/g, " ")]: [inrun] records that the previous character
    already belonged to the whitespace run being replaced. *)
Fixpoint collapse_from (inrun : bool) (s : string) : string :=
  match s with
  | EmptyString => EmptyString
  | String c s' =>
      if isWhiteSpace c
      then if inrun then collapse_from true s'
           else String " "%char (collapse_from true s')
      else String c (collapse_from false s')
  end.

Definition collapseWhitespace (s : string) : string := collapse_from false s.

(** [s.includes(sub)]. *)
Fixpoint includes (s sub : string) : bool :=
  (String.prefix sub s
   || match s with
      | EmptyString => false
      | String _ s' => includes s' sub
      end)%bool.

(** Truthiness of a string value: only the empty string is falsy. *)
Definition truthy (s : string) : bool :=
  match s with EmptyString => false | _ => true end.

(** [arr.slice(start)] and [arr.slice(start, end)] for integer arguments:
    a negative index counts from the end, and both are clamped. *)
Definition clamp_index {A : Type} (l : list A) (i : Z) : nat :=
  let len := Z.of_nat (length l) in
  Z.to_nat (if i <? 0 then Z.max (len + i) 0 else Z.min i len).

Definition slice_from {A : Type} (start : Z) (l : list A) : list A :=
  skipn (clamp_index l start) l.

Definition slice {A : Type} (start stop : Z) (l : list A) : list A :=
  let k := clamp_index l start in
  let e := clamp_index l stop in
  firstn (e - k) (skipn k l).

End JsString.

(* ====================================================================== *)
(** ** types.ts: [ProcessedPlantData]

    Only the identity fields are read by the cache, registry and extractor;
    the remaining traits of the profile are payload and are left out. *)
(* ====================================================================== *)

Record ProcessedPlantData : Type := mkPlant {
  id : Z;
  slug : string;
  scientificName : string;
  commonName : option string;
  family : string;
  genus : string
}.

(* ====================================================================== *)
(** ** cache.ts: [ConversationPlantRegistry] *)
(* ====================================================================== *)

Module ConversationPlantRegistry.

Record t : Type := mk {
  plants : JsMap.t ProcessedPlantData;
  mentionOrder : list string
}.

Definition maxPlants : Z := 20.

Definition new : t := mk JsMap.empty [].

(** [const oldestKey = this.mentionOrder.shift();
     if (oldestKey) this.plants.delete(oldestKey);] *)
Definition shiftOldest (r : t) : t :=
  match mentionOrder r with
  | [] => r
  | oldestKey :: rest =>
      mk (if JsString.truthy oldestKey
          then JsMap.delete (plants r) oldestKey
          else plants r)
         rest
  end.

Definition addPlant (key : string) (plant : ProcessedPlantData) (r : t) : t :=
  let normalizedKey := JsString.trim (JsString.toLowerCase key) in
  let r1 :=
    if negb (JsMap.has (plants r) normalizedKey)
    then
      let r0 := if Z.of_nat (length (mentionOrder r)) >=? maxPlants
                then shiftOldest r else r in
      mk (plants r0) (mentionOrder r0 ++ [normalizedKey])
    else r in
  mk (JsMap.set (plants r1) normalizedKey plant) (mentionOrder r1).

Definition getPlant (key : string) (r : t) : option ProcessedPlantData :=
  JsMap.get (plants r) (JsString.trim (JsString.toLowerCase key)).

Definition hasPlant (key : string) (r : t) : bool :=
  JsMap.has (plants r) (JsString.trim (JsString.toLowerCase key)).

Definition getAllPlants (r : t) : list ProcessedPlantData :=
  JsMap.values (plants r).

Definition plantMatches (q : string) (p : ProcessedPlantData) : bool :=
  (JsString.includes (JsString.toLowerCase (scientificName p)) q
   || match commonName p with
      | Some cn => JsString.includes (JsString.toLowerCase cn) q
      | None => false
      end
   || JsString.includes (slug p) q)%bool.

Definition findPlant (query : string) (r : t) : option ProcessedPlantData :=
  let normalizedQuery := JsString.trim (JsString.toLowerCase query) in
  match JsMap.get (plants r) normalizedQuery with
  | Some p => Some p
  | None => find (plantMatches normalizedQuery) (JsMap.values (plants r))
  end.

(** [mentionOrder.slice(-count).map(get).filter(defined).reverse()]. *)
Definition getRecentPlants (count : Z) (r : t) : list ProcessedPlantData :=
  let recentKeys := JsString.slice_from (- count) (mentionOrder r) in
  rev (flat_map (fun key => match JsMap.get (plants r) key with
                            | Some p => [p]
                            | None => []
                            end) recentKeys).

Definition clear (r : t) : t := new.

Definition size (r : t) : Z := JsMap.size (plants r).

(** A sequence of [addPlant] calls. *)
Definition addAll (ops : list (string * ProcessedPlantData)) (r : t) : t :=
  fold_left (fun acc kp => addPlant (fst kp) (snd kp) acc) ops r.

End ConversationPlantRegistry.

(* ====================================================================== *)
(** ** client.ts: [RateLimiter] *)
(* ====================================================================== *)

Module RateLimiter.

Definition windowMs : Z := 60000.
Definition maxRequests : Z := 100.

(** The only field: [requestTimes], oldest first. *)
Definition t := list Z.

Definition new : t := [].

Definition cleanup (now : Z) (requestTimes : t) : t :=
  let cutoff := now - windowMs in
  filter (fun time => time >? cutoff) requestTimes.

Definition canMakeRequest (now : Z) (requestTimes : t) : bool * t :=
  let requestTimes' := cleanup now requestTimes in
  (Z.of_nat (length requestTimes') <? maxRequests, requestTimes').

Definition recordRequest (now : Z) (requestTimes : t) : t :=
  requestTimes ++ [now].

(** Free slots left in the window ending at [now]. *)
Definition remaining (now : Z) (requestTimes : t) : Z :=
  maxRequests - Z.of_nat (length (cleanup now requestTimes)).

(** Recorded requests that have left the window ending at [now]. *)
Definition expired (now : Z) (requestTimes : t) : list Z :=
  filter (fun time => negb (time >? now - windowMs)) requestTimes.

End RateLimiter.

(* ====================================================================== *)
(** ** client.ts: [TrefleClient]

    The network is a script: the [n]-th underlying [fetch] of a run takes
    [elapsed] milliseconds and either rejects (network failure, or abort on
    the request timeout) or answers with a status and a body; [body] is what
    [response.json()] yields, [None] when it rejects. [delay ms] advances the
    clock by [ms]. *)
(* ====================================================================== *)

Definition TREFLE_BASE_URL : string := "https://trefle.io/api/v1".
Definition REQUEST_TIMEOUT_MS : Z := 10000.
Definition MAX_RETRIES : Z := 2.
Definition RETRY_DELAY_MS : Z := 1000.

Inductive FetchOutcome (T : Type) : Type :=
| Rejected
| Responded (status : Z) (body : option T).
Arguments Rejected {T}.
Arguments Responded {T}.

Record Fetched (T : Type) : Type := mkFetched {
  elapsed : Z;
  outcome : FetchOutcome T
}.
Arguments mkFetched {T}.
Arguments elapsed {T}.
Arguments outcome {T}.

(** What [request] can throw. *)
Inductive RequestError : Type :=
| RateLimitExceeded          (* Error("Rate limit exceeded. Please wait ...") *)
| TrefleNotFoundError
| TrefleAuthError
| TrefleRateLimitError
| ServerError (status : Z)   (* Error("Server error: ...") *)
| ApiError (status : Z)      (* Error("API error: ...") *)
| FetchError                 (* whatever fetch or response.json() threw *)
| RequestFailed.             (* Error("Request failed after retries") *)

Inductive Result (T : Type) : Type :=
| Returned (value : T)
| Thrown (error : RequestError).
Arguments Returned {T}.
Arguments Thrown {T}.

Module TrefleClient.

(** Process-wide state touched by a request. *)
Record World : Type := mkWorld {
  now : Z;                       (* Date.now() *)
  requestTimes : RateLimiter.t;  (* the module's [rateLimiter] *)
  calls : nat;                   (* underlying fetch calls made so far *)
  delays : list Z                (* arguments of [delay], in order *)
}.

Definition delay (ms : Z) (w : World) : World :=
  mkWorld (now w + ms) (requestTimes w) (calls w) (delays w ++ [ms]).

Definition recordRequest (w : World) : World :=
  mkWorld (now w) (RateLimiter.recordRequest (now w) (requestTimes w))
          (calls w) (delays w).

Definition canMakeRequest (w : World) : bool * World :=
  let (ok, times) := RateLimiter.canMakeRequest (now w) (requestTimes w) in
  (ok, mkWorld (now w) times (calls w) (delays w)).

(** [response.ok] *)
Definition ok (status : Z) : bool := (200 <=? status) && (status <=? 299).

Section WithNetwork.
Context {T : Type}.
Variable script : nat -> Fetched T.

Definition fetch (w : World) : FetchOutcome T * World :=
  let f := script (calls w) in
  (outcome f,
   mkWorld (now w + elapsed f) (requestTimes w) (S (calls w)) (delays w)).

(** The body of [for (let attempt = 0; attempt <= MAX_RETRIES; attempt++)].
    [fuel] bounds the iterations for the termination checker; [request]
    supplies one more than the loop can use. Every [throw] inside the [try]
    lands in the [catch]: the three classified errors are rethrown, anything
    else becomes [lastError] and the loop goes on. *)
Fixpoint attempts (fuel : nat) (attempt : Z) (lastError : option RequestError)
         (w : World) : Result T * World :=
  match fuel with
  | O => (Thrown RequestFailed, w)
  | S fuel' =>
      if attempt <=? MAX_RETRIES then
        let w1 := if attempt >? 0
                  then delay (RETRY_DELAY_MS * attempt) w else w in
        let w2 := recordRequest w1 in
        let (res, w3) := fetch w2 in
        match res with
        | Rejected => attempts fuel' (attempt + 1) (Some FetchError) w3
        | Responded status body =>
            if ok status then
              match body with
              | Some d => (Returned d, w3)
              | None => attempts fuel' (attempt + 1) (Some FetchError) w3
              end
            else if status =? 404 then (Thrown TrefleNotFoundError, w3)
            else if status =? 401 then (Thrown TrefleAuthError, w3)
            else if status =? 429 then (Thrown TrefleRateLimitError, w3)
            else if status >=? 500
                 then attempts fuel' (attempt + 1)
                               (Some (ServerError status)) w3
                 else attempts fuel' (attempt + 1)
                               (Some (ApiError status)) w3
        end
      else
        (Thrown (match lastError with
                 | Some e => e
                 | None => RequestFailed
                 end), w)
  end.

Definition request (w : World) : Result T * World :=
  let (can, w0) := canMakeRequest w in
  if negb can then (Thrown RateLimitExceeded, w0)
  else attempts (Z.to_nat (MAX_RETRIES + 2)) 0 None w0.

End WithNetwork.

(** *** [searchPlants]

    [S] stands for [TrefleSpeciesLight]; the script answers with the
    [data] array of the list response. *)
Section Search.
Context {S : Type}.
Variable script : nat -> Fetched (list S).

Record State : Type := mkState {
  world : World;
  searchResultsCache : TrefleCache.t (list S)
}.

Definition normalizeSearchKey (query : string) : string :=
  JsString.collapseWhitespace (JsString.trim (JsString.toLowerCase query)).

Definition searchPlants (query : string) (limit : Z) (st : State)
  : Result (list S) * State :=
  let normalizedQuery := normalizeSearchKey query in
  let (cached, cache1) :=
    TrefleCache.get (now (world st)) (searchResultsCache st) normalizedQuery in
  match cached with
  | Some results => (Returned results, mkState (world st) cache1)
  | None =>
      let (response, w1) := request script (world st) in
      match response with
      | Thrown e => (Thrown e, mkState w1 cache1)
      | Returned data =>
          let results := JsString.slice 0 limit data in
          (Returned results,
           mkState w1 (TrefleCache.set (now w1) cache1 normalizedQuery results))
      end
  end.

End Search.

(** The registry update at the end of [getSpeciesById] and
    [getSpeciesBySlug]:
    [conversationRegistry.addPlant(processed.slug, processed);
     if (processed.commonName)
       conversationRegistry.addPlant(processed.commonName, processed);] *)
Definition registerProfile (processed : ProcessedPlantData)
           (r : ConversationPlantRegistry.t) : ConversationPlantRegistry.t :=
  let r1 := ConversationPlantRegistry.addPlant (slug processed) processed r in
  match commonName processed with
  | Some cn =>
      if JsString.truthy cn
      then ConversationPlantRegistry.addPlant cn processed r1
      else r1
  | None => r1
  end.

End TrefleClient.

(* ====================================================================== *)
(** ** Regular expressions

    A backtracking matcher for the fragment of ECMAScript regular
    expressions that extractors.ts uses: literals, classes, [.], [^], [$],
    [\b], sequence, ordered alternation, greedy and lazy bounded repetition,
    capture groups, and the [i] flag. Choices are explored in the order the
    language prescribes, so the first success is the match [exec] reports. *)
(* ====================================================================== *)

Module Regex.

Inductive item : Type :=
| CRange (lo hi : ascii)      (* a-z *)
| CSpace.                     (* \s *)

Inductive re : Type :=
| Empty
| Char (c : ascii)
| Class (items : list item)
| Dot
| Bol                         (* ^ *)
| Eol                         (* $ *)
| WordB                       (* \b *)
| Seq (a b : re)
| Alt (a b : re)
| Rep (greedy : bool) (lo : nat) (hi : option nat) (a : re)
| Group (n : nat) (a : re).

(** Matcher state: the character before the current position, the rest of
    the input, and the captures recorded so far (latest first). *)
Record mstate : Type := mkM {
  prev : option ascii;
  rest : string;
  caps : list (nat * string)
}.

Definition item_mem (c : ascii) (i : item) : bool :=
  match i with
  | CRange lo hi => JsString.in_range (JsString.code lo) (JsString.code hi) c
  | CSpace => JsString.isWhiteSpace c
  end.

Definition class_mem (items : list item) (c : ascii) : bool :=
  existsb (item_mem c) items.

(** With the [i] flag a class matches [c] when it holds a character whose
    canonical form is that of [c]; among the modelled code units those are
    [c], its capital and its small letter. *)
Definition class_mem_flag (ic : bool) (items : list item) (c : ascii) : bool :=
  if ic
  then (class_mem items c || class_mem items (JsString.canonicalize c)
        || class_mem items (JsString.toLowerChar c))%bool
  else class_mem items c.

Definition char_eq_flag (ic : bool) (a c : ascii) : bool :=
  if ic
  then Ascii.eqb (JsString.canonicalize a) (JsString.canonicalize c)
  else Ascii.eqb a c.

Definition is_word (o : option ascii) : bool :=
  match o with Some c => JsString.isWordChar c | None => false end.

Definition next (s : string) : option ascii :=
  match s with EmptyString => None | String c _ => Some c end.

(** Consume one character satisfying [p]. *)
Definition one (p : ascii -> bool) (st : mstate)
           (k : mstate -> option mstate) : option mstate :=
  match rest st with
  | EmptyString => None
  | String c s' => if p c then k (mkM (Some c) s' (caps st)) else None
  end.

Definition under (i : nat) (hi : option nat) : bool :=
  match hi with None => true | Some h => Nat.ltb i h end.

Definition consumed (before after : string) : string :=
  substring 0 (String.length before - String.length after) before.

Definition orelse {A : Type} (x : option A) (y : option A) : option A :=
  match x with Some _ => x | None => y end.

(** The repetition [a{lo,hi}] (lazy when [greedy] is false), with [step] the
    matcher of [a] and [i] the iterations done so far. An iteration beyond
    the minimum that consumes nothing is rejected, as the language
    prescribes, so at most [lo] plus the length of the input can succeed:
    [fuel] is set beyond that and never runs out. *)
Fixpoint iterate (step : mstate -> (mstate -> option mstate) -> option mstate)
         (greedy : bool) (lo : nat) (hi : option nat)
         (k : mstate -> option mstate) (fuel i : nat) (st : mstate)
         {struct fuel} : option mstate :=
  let again :=
    match fuel with
    | O => None
    | S fuel' =>
        if under i hi
        then step st
               (fun st' =>
                  if (Nat.leb lo i
                      && Nat.leb (String.length (rest st))
                                 (String.length (rest st')))%bool
                  then None
                  else iterate step greedy lo hi k fuel' (S i) st')
        else None
    end in
  if Nat.ltb i lo then again
  else if greedy then orelse again (k st)
       else orelse (k st) again.

Fixpoint run (ic : bool) (r : re) (st : mstate)
         (k : mstate -> option mstate) {struct r} : option mstate :=
  match r with
  | Empty => k st
  | Char a => one (char_eq_flag ic a) st k
  | Class items => one (class_mem_flag ic items) st k
  | Dot => one (fun c => negb (JsString.isLineTerminator c)) st k
  | Bol => match prev st with None => k st | Some _ => None end
  | Eol => match rest st with EmptyString => k st | _ => None end
  | WordB =>
      if xorb (is_word (prev st)) (is_word (next (rest st)))
      then k st else None
  | Seq a b => run ic a st (fun st' => run ic b st' k)
  | Alt a b => orelse (run ic a st k) (run ic b st k)
  | Group n a =>
      run ic a st
          (fun st' =>
             k (mkM (prev st') (rest st')
                    ((n, consumed (rest st) (rest st')) :: caps st')))
  | Rep greedy lo hi a =>
      iterate (run ic a) greedy lo hi k
              (lo + String.length (rest st) + 1)%nat 0%nat st
  end.

(** A successful match: the input from the match start on, and the state
    at the match end. *)
Record found : Type := mkFound {
  from : string;
  upto : mstate
}.

Definition matched (f : found) : string := consumed (from f) (rest (upto f)).

(** [match[n]] *)
Definition capture (n : nat) (f : found) : option string :=
  match find (fun c => Nat.eqb (fst c) n) (caps (upto f)) with
  | Some c => Some (snd c)
  | None => None
  end.

(** Leftmost match at or after the current position. *)
Fixpoint search (ic : bool) (r : re) (p : option ascii) (s : string)
  : option found :=
  match run ic r (mkM p s []) (fun st => Some st) with
  | Some st => Some (mkFound s st)
  | None =>
      match s with
      | EmptyString => None
      | String c s' => search ic r (Some c) s'
      end
  end.

(** [regex.test(s)] and [s.match(regex)] for a regex without the [g] flag. *)
Definition exec (ic : bool) (r : re) (s : string) : option found :=
  search ic r None s.

Definition test (ic : bool) (r : re) (s : string) : bool :=
  match exec ic r s with Some _ => true | None => false end.

(** The successive results of [regex.exec(s)] for a regex with the [g]
    flag, from [lastIndex = 0] until it returns [null]: each search resumes
    where the previous match ended. *)
Fixpoint exec_all (fuel : nat) (ic : bool) (r : re) (p : option ascii)
         (s : string) : list found :=
  match fuel with
  | O => []
  | S fuel' =>
      match search ic r p s with
      | None => []
      | Some f => f :: exec_all fuel' ic r (prev (upto f)) (rest (upto f))
      end
  end.

(** *** Building patterns *)

Fixpoint lit (s : string) : re :=
  match s with
  | EmptyString => Empty
  | String c s' => Seq (Char c) (lit s')
  end.

Fixpoint seqs (l : list re) : re :=
  match l with
  | [] => Empty
  | [r] => r
  | r :: l' => Seq r (seqs l')
  end.

Fixpoint alts (l : list re) : re :=
  match l with
  | [] => Empty
  | [r] => r
  | r :: l' => Alt r (alts l')
  end.

Definition opt (r : re) : re := Rep true 0 (Some 1%nat) r.
Definition plus (r : re) : re := Rep true 1 None r.

End Regex.

(* ====================================================================== *)
(** ** extractors.ts *)
(* ====================================================================== *)

Inductive Confidence : Type := high | medium | low.
Inductive Source : Type := exact_match | common_name | pattern | context.

Record PlantMention : Type := mkMention {
  originalText : string;
  normalizedName : string;
  confidence : Confidence;
  source : Source
}.

Module Extractor.
Import Regex.
Local Open Scope string_scope.
Local Open Scope list_scope.

(** [Set.prototype.has] on a set of strings listed in insertion order. *)
Definition has (set : list string) (x : string) : bool :=
  existsb (String.eqb x) set.

Definition COMMON_PLANT_NAMES : list string := [
  "tomato"; "tomatoes"; "potato"; "potatoes"; "carrot"; "carrots";
  "lettuce"; "spinach"; "kale"; "broccoli"; "cauliflower"; "cabbage";
  "celery"; "cucumber"; "cucumbers"; "zucchini"; "squash"; "pumpkin";
  "pumpkins"; "eggplant"; "pepper"; "peppers"; "bell pepper"; "chili";
  "chilies"; "onion"; "onions"; "garlic"; "leek"; "leeks"; "asparagus";
  "artichoke"; "beet"; "beets"; "radish"; "radishes"; "turnip"; "turnips";
  "parsnip"; "parsnips"; "corn"; "peas"; "green beans"; "beans"; "lentils";
  "chickpeas"; "apple"; "apples"; "orange"; "oranges"; "lemon"; "lemons";
  "lime"; "limes"; "grapefruit"; "banana"; "bananas"; "grape"; "grapes";
  "strawberry"; "strawberries"; "blueberry"; "blueberries"; "raspberry";
  "raspberries"; "blackberry"; "blackberries"; "cherry"; "cherries";
  "peach"; "peaches"; "plum"; "plums"; "apricot"; "apricots"; "mango";
  "mangoes"; "pineapple"; "pineapples"; "watermelon"; "cantaloupe";
  "honeydew"; "melon"; "kiwi"; "papaya"; "guava"; "pomegranate"; "fig";
  "figs"; "date"; "dates"; "coconut"; "coconuts"; "avocado"; "avocados";
  "basil"; "oregano"; "thyme"; "rosemary"; "sage"; "mint"; "peppermint";
  "spearmint"; "parsley"; "cilantro"; "coriander"; "dill"; "chives";
  "tarragon"; "marjoram"; "bay leaf"; "bay laurel"; "lavender";
  "chamomile"; "lemongrass"; "fennel"; "cumin"; "turmeric"; "ginger";
  "rose"; "roses"; "tulip"; "tulips"; "daisy"; "daisies"; "sunflower";
  "sunflowers"; "lily"; "lilies"; "orchid"; "orchids"; "carnation";
  "carnations"; "chrysanthemum"; "dahlia"; "dahlias"; "peony"; "peonies";
  "hydrangea"; "hydrangeas"; "marigold"; "marigolds"; "petunia";
  "petunias"; "geranium"; "geraniums"; "begonia"; "begonias"; "zinnia";
  "zinnias"; "pansy"; "pansies"; "violet"; "violets"; "iris"; "irises";
  "daffodil"; "daffodils"; "hyacinth"; "crocus"; "amaryllis"; "hibiscus";
  "jasmine"; "gardenia"; "magnolia"; "camellia"; "azalea"; "rhododendron";
  "wisteria"; "bougainvillea"; "plumeria"; "bird of paradise"; "pothos";
  "philodendron"; "monstera"; "snake plant"; "sansevieria"; "spider plant";
  "peace lily"; "rubber plant"; "fiddle leaf fig"; "ficus"; "aloe";
  "aloe vera"; "jade plant"; "succulent"; "succulents"; "cactus"; "cacti";
  "bamboo"; "palm"; "palms"; "fern"; "ferns"; "boston fern";
  "maidenhair fern"; "english ivy"; "ivy"; "dracaena"; "zz plant";
  "chinese evergreen"; "prayer plant"; "calathea"; "croton";
  "dieffenbachia"; "anthurium"; "bromeliad"; "air plant"; "tillandsia";
  "hoya"; "string of pearls"; "string of hearts"; "oak"; "maple"; "pine";
  "spruce"; "fir"; "cedar"; "birch"; "ash"; "elm"; "willow"; "poplar";
  "aspen"; "beech"; "hickory"; "walnut"; "chestnut"; "cherry tree";
  "apple tree"; "peach tree"; "pear tree"; "plum tree"; "olive";
  "olive tree"; "eucalyptus"; "cypress"; "redwood"; "sequoia"; "palm tree";
  "coconut palm"; "magnolia tree"; "dogwood"; "redbud"; "crepe myrtle";
  "japanese maple"; "bonsai"; "boxwood"; "privet"; "holly"; "juniper";
  "yew"; "forsythia"; "lilac"; "viburnum"; "spirea"; "barberry";
  "euonymus"; "cotoneaster"; "burning bush"; "butterfly bush";
  "rose of sharon"
].

Definition PLANT_CONTEXT_WORDS : list string := [
  "plant"; "plants"; "grow"; "growing"; "grew"; "grown"; "garden";
  "gardening"; "water"; "watering"; "prune"; "pruning"; "fertilize";
  "fertilizing"; "harvest"; "harvesting"; "seed"; "seeds"; "seedling";
  "seedlings"; "cutting"; "cuttings"; "propagate"; "propagating"; "repot";
  "repotting"; "transplant"; "transplanting"; "care"; "caring"; "leaf";
  "leaves"; "flower"; "flowers"; "bloom"; "blooming"; "blossom"; "fruit";
  "fruits"; "vegetable"; "vegetables"; "herb"; "herbs"; "tree"; "trees";
  "shrub"; "shrubs"; "vine"; "vines"; "bush"; "bushes"; "pot"; "potted";
  "indoor"; "outdoor"; "houseplant"; "houseplants"
].

Definition COMMON_ENGLISH_WORDS : list string := [
  "the"; "a"; "an"; "and"; "or"; "but"; "if"; "then"; "else"; "when";
  "where"; "what"; "which"; "who"; "how"; "why"; "is"; "are"; "was";
  "were"; "be"; "been"; "being"; "have"; "has"; "had"; "do"; "does"; "did";
  "will"; "would"; "could"; "should"; "may"; "might"; "must"; "can";
  "this"; "that"; "these"; "those"; "it"; "its"; "they"; "them"; "their";
  "we"; "us"; "our"; "you"; "your"; "he"; "him"; "his"; "she"; "her"; "i";
  "me"; "my"; "some"; "any"; "all"; "most"; "many"; "much"; "more"; "less";
  "few"; "little"; "lot"; "lots"; "very"; "too"; "also"; "just"; "only";
  "even"; "still"; "already"; "always"; "never"; "ever"; "often";
  "sometimes"; "usually"; "really"; "quite"; "rather"; "pretty"; "about";
  "after"; "before"; "between"; "during"; "through"; "from"; "into";
  "onto"; "with"; "without"; "for"; "of"; "in"; "on"; "at"; "to"; "by";
  "up"; "down"; "out"; "off"; "over"; "under"; "again"; "back"; "here";
  "there"; "now"; "today"; "tomorrow"; "yesterday"; "thing"; "things";
  "way"; "ways"; "time"; "times"; "day"; "days"; "year"; "years"; "week";
  "weeks"; "month"; "months"; "something"; "anything"; "everything";
  "nothing"; "someone"; "anyone"; "everyone"; "nobody"; "anybody";
  "everybody"; "place"; "room"; "house"; "home"; "work"; "life"; "world";
  "people"; "person"; "child"; "children"; "man"; "men"; "woman"; "women";
  "good"; "bad"; "new"; "old"; "big"; "small"; "long"; "short"; "high";
  "low"; "great"; "other"; "same"; "different"; "first"; "last"; "next";
  "right"; "left"; "best"; "want"; "need"; "know"; "think"; "see"; "look";
  "find"; "give"; "take"; "come"; "go"; "make"; "get"; "say"; "tell";
  "ask"; "use"; "try"; "help"; "start"; "stop"; "keep"; "let"; "put";
  "set"; "turn"; "show"; "hear"; "leave"; "call"; "run"; "move"; "live";
  "believe"; "feel"; "bring"
].

(** *** PLANT_PATTERNS *)

Definition ws : re := Class [CSpace].                       (* \s *)
Definition az : re := Class [CRange "a" "z"].               (* [a-z] *)
Definition AZ : re := Class [CRange "A" "Z"].               (* [A-Z] *)
Definition azs : re := Class [CRange "a" "z"; CSpace].      (* [a-z\s] *)

(** [(?:\s|$|,|\.|\?|!)] *)
Definition terminator : re :=
  alts [ws; Eol; Char ","; Char "."; Char "?"; Char "!"].

(** [([a-z][a-z\s]{2,n}?)] *)
Definition candidate_group (n : nat) : re :=
  Group 1 (Seq az (Rep false 2 (Some n) azs)).

(** [\s+word] *)
Definition sp (word : string) : re := Seq (plus ws) (lit word).

Definition pattern_my : re :=
  seqs [lit "my"; plus ws; candidate_group 25;
        opt (alts [sp "plant"; sp "tree"; sp "bush"; sp "vine"]);
        terminator].

Definition pattern_the : re :=
  seqs [lit "the"; plus ws; candidate_group 25;
        alts [sp "plant"; sp "tree"; sp "bush"; sp "vine";
              sp "is"; sp "needs"; sp "has"; sp "looks"]].

Definition pattern_kind : re :=
  seqs [candidate_group 20; plus ws;
        alts [lit "plant"; lit "tree"; lit "bush"; lit "vine";
              lit "shrub"; lit "flower"; lit "herb"];
        opt (Char "s"); terminator].

Definition pattern_verb : re :=
  seqs [alts [lit "grow"; lit "plant"; seqs [lit "care"; plus ws; lit "for"];
              lit "water"; lit "fertilize"; lit "prune"; lit "harvest";
              lit "propagate"];
        plus ws;
        opt (alts [Seq (lit "the") (plus ws); Seq (lit "my") (plus ws);
                   Seq (lit "some") (plus ws)]);
        candidate_group 25; terminator].

Definition pattern_about : re :=
  seqs [alts [lit "about"; lit "regarding"]; plus ws;
        opt (alts [Seq (lit "the") (plus ws); Seq (lit "my") (plus ws)]);
        candidate_group 25;
        opt (alts [sp "plant"; sp "tree"; sp "bush"]);
        terminator].

(** [([A-Z][a-z]+\s+[a-z]+)(?:\s|$|,|\.|\?|!)], without the [i] flag. *)
Definition pattern_binomial : re :=
  seqs [Group 1 (seqs [AZ; plus az; plus ws; plus az]); terminator].

(** Each pattern with its [i] flag; all carry the [g] flag. *)
Definition PLANT_PATTERNS : list (bool * re) := [
  (true, pattern_my); (true, pattern_the); (true, pattern_kind);
  (true, pattern_verb); (true, pattern_about); (false, pattern_binomial)
].

(** *** Helper functions *)

Definition isCommonWord (word : string) : bool :=
  has COMMON_ENGLISH_WORDS (JsString.toLowerCase word).

(** [escapeRegex] backslash-escapes every metacharacter, so a pattern
    spliced from [escapeRegex(s)] matches [s] literally: the spliced part
    is [lit s]. *)
Definition escaped (s : string) : re := lit s.

(** [/^[A-Z][a-z]+\s+[a-z]+$/] *)
Definition binomial_form : re :=
  seqs [Bol; AZ; plus az; plus ws; plus az; Eol].

(** [(w1|w2|...)\s+.{0,30}CAND|CAND\s+.{0,30}(w1|w2|...)], flag [i]. *)
Definition contextPattern (candidate : string) : re :=
  Alt (seqs [Group 1 (alts (map lit PLANT_CONTEXT_WORDS)); plus ws;
             Rep true 0 (Some 30%nat) Dot; escaped candidate])
      (seqs [escaped candidate; plus ws; Rep true 0 (Some 30%nat) Dot;
             Group 2 (alts (map lit PLANT_CONTEXT_WORDS))]).

Definition assessPlantNameConfidence (candidate fullText : string)
  : Confidence :=
  let normalized := JsString.toLowerCase candidate in
  if has COMMON_PLANT_NAMES normalized then high
  else if test false binomial_form candidate then high
  else if test true (contextPattern candidate) fullText then medium
  else low.

Definition normalizePlantName (name : string) : string :=
  JsString.collapseWhitespace (JsString.trim (JsString.toLowerCase name)).

(** *** Registry pass *)

Definition registryMatchesOf (normalizedText : string)
           (plant : ProcessedPlantData) : list PlantMention :=
  (match commonName plant with
   | Some cn =>
       if (JsString.truthy cn
           && JsString.includes normalizedText (JsString.toLowerCase cn))%bool
       then [mkMention cn (JsString.toLowerCase cn) high exact_match]
       else []
   | None => []
   end)
  ++ (if JsString.includes normalizedText
                           (JsString.toLowerCase (scientificName plant))
      then [mkMention (scientificName plant)
                      (JsString.toLowerCase (scientificName plant))
                      high exact_match]
      else [])
  ++ (let g := JsString.toLowerCase (genus plant) in
      if (JsString.includes normalizedText g
          && Nat.ltb 3 (String.length g))%bool
      then [mkMention (genus plant) g medium exact_match]
      else []).

Definition findRegistryMatches (registry : ConversationPlantRegistry.t)
           (text : string) : list PlantMention :=
  let normalizedText := JsString.toLowerCase text in
  flat_map (registryMatchesOf normalizedText)
           (ConversationPlantRegistry.getAllPlants registry).

(** *** Exact-vocabulary pass *)

(** [[...set].sort((a, b) => b.length - a.length)]: longest first, names of
    equal length in set order. *)
Fixpoint insert_by_length (x : string) (l : list string) : list string :=
  match l with
  | [] => [x]
  | y :: l' =>
      if Nat.leb (String.length y) (String.length x)
      then x :: y :: l'
      else y :: insert_by_length x l'
  end.

Definition sortedNames : list string :=
  fold_right insert_by_length [] COMMON_PLANT_NAMES.

(** [new RegExp(`\\b${escapeRegex(name)}\\b`, "i")] *)
Definition wordRegex (name : string) : re :=
  seqs [WordB; escaped name; WordB].

Definition findExactMatches (text : string) : list PlantMention :=
  let words := JsString.toLowerCase text in
  flat_map (fun name =>
              match exec true (wordRegex name) words with
              | Some m => [mkMention (matched m) (JsString.toLowerCase name)
                                     high common_name]
              | None => []
              end) sortedNames.

(** *** Pattern pass *)

(** One turn of the [while] loop: [acc] is [(matches, processedCandidates)]. *)
Definition patternStep (text : string)
           (acc : list PlantMention * list string) (m : found)
  : list PlantMention * list string :=
  let (matches, processedCandidates) := acc in
  match capture 1 m with
  | None => acc
  | Some group =>
      let candidate := JsString.trim group in
      if (negb (JsString.truthy candidate)
          || Nat.ltb (String.length candidate) 3
          || Nat.ltb 30 (String.length candidate))%bool
      then acc
      else
        let normalized := JsString.toLowerCase candidate in
        if has processedCandidates normalized then acc
        else
          let processedCandidates' := processedCandidates ++ [normalized] in
          if isCommonWord normalized then (matches, processedCandidates')
          else
            let confidence := assessPlantNameConfidence normalized text in
            if (match confidence with low => false | _ => true end
                || has COMMON_PLANT_NAMES normalized)%bool
            then (matches ++ [mkMention candidate normalized confidence pattern],
                  processedCandidates')
            else (matches, processedCandidates')
  end.

(** A match of a plant pattern is never empty, so [exec] is called at most
    once per character of [text] before it returns [null]. *)
Definition findPatternMatches (text : string) : list PlantMention :=
  fst (fold_left
         (fun acc p =>
            fold_left (patternStep text)
                      (exec_all (S (String.length text)) (fst p) (snd p)
                                None text)
                      acc)
         PLANT_PATTERNS ([], [])).

(** *** Main extraction function *)

(** One [for] loop of [extractPlantMentions]: [acc] is
    [(mentions, foundNames)]. *)
Definition pushNew (acc : list PlantMention * list string)
           (matches : list PlantMention) : list PlantMention * list string :=
  fold_left (fun a m =>
               if has (snd a) (normalizedName m) then a
               else (fst a ++ [m], snd a ++ [normalizedName m]))
            matches acc.

Definition confidenceOrder (c : Confidence) : Z :=
  match c with high => 0 | medium => 1 | low => 2 end.

(** [mentions.sort((a, b) => order[a.confidence] - order[b.confidence])];
    the sort is stable. *)
Fixpoint insert_by_confidence (x : PlantMention) (l : list PlantMention)
  : list PlantMention :=
  match l with
  | [] => [x]
  | y :: l' =>
      if (confidenceOrder (confidence x) - confidenceOrder (confidence y) <=? 0)%Z
      then x :: y :: l'
      else y :: insert_by_confidence x l'
  end.

Definition sort_by_confidence (l : list PlantMention) : list PlantMention :=
  fold_right insert_by_confidence [] l.

Definition extractPlantMentions (registry : ConversationPlantRegistry.t)
           (text : string) : list PlantMention :=
  let acc0 := pushNew ([], []) (findRegistryMatches registry text) in
  let acc1 := pushNew acc0 (findExactMatches text) in
  let acc2 := pushNew acc1 (findPatternMatches text) in
  sort_by_confidence (fst acc2).

(** *** Mentions of a conversation *)

(** The inner [for] loop of [extractPlantMentionsFromHistory]: [acc] is
    [(allMentions, foundNames)]. *)
Definition pushUpTo (limit : Z) (acc : list PlantMention * list string)
           (mentions : list PlantMention) : list PlantMention * list string :=
  fold_left (fun a mention =>
               if (negb (has (snd a) (normalizedName mention))
                   && (Z.of_nat (length (fst a)) <? limit)%Z)%bool
               then (fst a ++ [mention], snd a ++ [normalizedName mention])
               else a)
            mentions acc.

(** [for (let i = messages.length - 1; i >= 0 && allMentions.length < limit;
    i--)]: [newestFirst] holds the texts of the messages still to visit. *)
Fixpoint historyLoop (registry : ConversationPlantRegistry.t) (limit : Z)
         (newestFirst : list string) (acc : list PlantMention * list string)
  : list PlantMention * list string :=
  match newestFirst with
  | [] => acc
  | text :: older =>
      if (Z.of_nat (length (fst acc)) <? limit)%Z
      then if negb (JsString.truthy text)
           then historyLoop registry limit older acc
           else historyLoop registry limit older
                            (pushUpTo limit acc
                                      (extractPlantMentions registry text))
      else acc
  end.

(** A message is modelled by its [text]; [limit] is an integer. *)
Definition extractPlantMentionsFromHistory
           (registry : ConversationPlantRegistry.t) (messages : list string)
           (limit : Z) : list PlantMention :=
  fst (historyLoop registry limit (rev messages) ([], [])).

(** *** Pre-filter *)

Definition plantKeywords : list string := [
  "plant"; "grow"; "garden"; "water"; "prune"; "fertilize"; "harvest";
  "seed"; "cutting"; "propagate"; "repot"; "transplant"; "leaf"; "leaves";
  "flower"; "bloom"; "fruit"; "vegetable"; "herb"; "tree"; "shrub";
  "houseplant"; "indoor plant"; "outdoor"; "pot"; "soil"; "sunlight";
  "shade"; "care"; "dying"; "yellow"; "brown"; "drooping"; "wilting"
].

Definition isPlantRelatedQuery (text : string) : bool :=
  let normalizedText := JsString.toLowerCase text in
  (existsb (JsString.includes normalizedText) plantKeywords
   || existsb (JsString.includes normalizedText) COMMON_PLANT_NAMES)%bool.

End Extractor.

(* ====================================================================== *)
(** ** types.ts: the species records of the remote API

    Of a species the lookups read the identifier and the names; the other
    fields are payload and are left out. *)
(* ====================================================================== *)

Module TrefleSpeciesLight.
Record t : Type := mk {
  id : Z;
  common_name : option string;
  slug : string;
  scientific_name : string
}.
End TrefleSpeciesLight.

Module TrefleSpeciesFull.
Record t : Type := mk {
  id : Z;
  common_name : option string;
  slug : string;
  scientific_name : string;
  family : string;
  genus : string
}.
End TrefleSpeciesFull.

(* ====================================================================== *)
(** ** client.ts: [TrefleClient], looking up a species

    The module-level caches and the conversation registry are gathered in a
    [Store] with the world of the requests. The remote API is two scripts,
    one per endpoint, both indexed by the number of the underlying call. *)
(* ====================================================================== *)

Module SpeciesLookup.
Local Open Scope string_scope.
Local Open Scope list_scope.
Local Open Scope Z_scope.

Record Store : Type := mkStore {
  world : TrefleClient.World;
  searchResultsCache : TrefleCache.t (list TrefleSpeciesLight.t);
  speciesCache : TrefleCache.t ProcessedPlantData;
  commonNameCache : TrefleCache.t ProcessedPlantData;
  conversationRegistry : ConversationPlantRegistry.t
}.

(** [String(n)] for an integer [n] (below 10^21 in size, where JavaScript
    still prints every digit). *)
Definition decimal (n : Z) : string := NilZero.string_of_int (Z.to_int n).

(** [createSpeciesKey(idOrSlug)] *)
Definition createSpeciesKey (idOrSlug : Z + string) : string :=
  JsString.toLowerCase
    (match idOrSlug with inl n => decimal n | inr s => s end).

(** [processSpeciesData], on the fields of the model. *)
Definition processSpeciesData (raw : TrefleSpeciesFull.t)
  : ProcessedPlantData :=
  mkPlant (TrefleSpeciesFull.id raw) (TrefleSpeciesFull.slug raw)
          (TrefleSpeciesFull.scientific_name raw)
          (TrefleSpeciesFull.common_name raw)
          (TrefleSpeciesFull.family raw) (TrefleSpeciesFull.genus raw).

(** [r.common_name?.toLowerCase()] fed to a test; on [null] the source
    compares [undefined] with a string or falls back to [false]. *)
Definition onCommonName (test : string -> bool) (r : TrefleSpeciesLight.t)
  : bool :=
  match TrefleSpeciesLight.common_name r with
  | Some cn => test (JsString.toLowerCase cn)
  | None => false
  end.

Definition onScientificName (test : string -> bool)
           (r : TrefleSpeciesLight.t) : bool :=
  test (JsString.toLowerCase (TrefleSpeciesLight.scientific_name r)).

Definition matchers (q : string) : list (TrefleSpeciesLight.t -> bool) := [
  onCommonName (fun s => String.eqb s q);
  onScientificName (fun s => String.eqb s q);
  onCommonName (String.prefix q);
  onScientificName (String.prefix q);
  onCommonName (fun s => JsString.includes s q)
].

(** [for (const matches of matchers) { const found = results.find(matches);
    if (found) return found; }] *)
Fixpoint firstFound (ms : list (TrefleSpeciesLight.t -> bool))
         (results : list TrefleSpeciesLight.t) : option TrefleSpeciesLight.t :=
  match ms with
  | [] => None
  | matches :: ms' =>
      match find matches results with
      | Some found => Some found
      | None => firstFound ms' results
      end
  end.

(** [None] stands for the [undefined] that [results[0]] is on an empty
    array. *)
Definition findBestMatch (query : string)
           (results : list TrefleSpeciesLight.t)
  : option TrefleSpeciesLight.t :=
  let q := JsString.trim (JsString.toLowerCase query) in
  match firstFound (matchers q) results with
  | Some found => Some found
  | None => nth_error results 0
  end.

Definition with_world (st : Store) (w : TrefleClient.World) : Store :=
  mkStore w (searchResultsCache st) (speciesCache st) (commonNameCache st)
          (conversationRegistry st).

Definition with_speciesCache (st : Store)
           (c : TrefleCache.t ProcessedPlantData) : Store :=
  mkStore (world st) (searchResultsCache st) c (commonNameCache st)
          (conversationRegistry st).

Definition with_commonNameCache (st : Store)
           (c : TrefleCache.t ProcessedPlantData) : Store :=
  mkStore (world st) (searchResultsCache st) (speciesCache st) c
          (conversationRegistry st).

(** What [getSpeciesById] and [getSpeciesBySlug] do with the species they
    fetched, [cacheKey] being the key they looked up and [otherKey] the
    key made of the other identifier of the profile: three cache writes and
    the registration. *)
Definition remember (cacheKey otherKey : string)
           (processed : ProcessedPlantData) (st : Store) : Store :=
  let t := TrefleClient.now (world st) in
  let species1 := TrefleCache.set t (speciesCache st) cacheKey processed in
  let species2 := TrefleCache.set t species1 otherKey processed in
  let names :=
    match commonName processed with
    | Some cn =>
        if JsString.truthy cn
        then TrefleCache.set t (commonNameCache st)
                             (JsString.toLowerCase cn) processed
        else commonNameCache st
    | None => commonNameCache st
    end in
  mkStore (world st) (searchResultsCache st) species2 names
          (TrefleClient.registerProfile processed (conversationRegistry st)).

Section WithNetwork.
Variable searchScript : nat -> Fetched (list TrefleSpeciesLight.t).
Variable speciesScript : nat -> Fetched TrefleSpeciesFull.t.

Definition getSpeciesById (id : Z) (st : Store)
  : Result ProcessedPlantData * Store :=
  let cacheKey := createSpeciesKey (inl id) in
  let (cached, species1) :=
    TrefleCache.get (TrefleClient.now (world st)) (speciesCache st) cacheKey in
  let st1 := with_speciesCache st species1 in
  match cached with
  | Some profile => (Returned profile, st1)
  | None =>
      let (response, w1) := TrefleClient.request speciesScript (world st1) in
      let st2 := with_world st1 w1 in
      match response with
      | Thrown e => (Thrown e, st2)
      | Returned raw =>
          let processed := processSpeciesData raw in
          (Returned processed,
           remember cacheKey (createSpeciesKey (inr (slug processed)))
                    processed st2)
      end
  end.

Definition getSpeciesBySlug (slug' : string) (st : Store)
  : Result ProcessedPlantData * Store :=
  let cacheKey := createSpeciesKey (inr slug') in
  let (cached, species1) :=
    TrefleCache.get (TrefleClient.now (world st)) (speciesCache st) cacheKey in
  let st1 := with_speciesCache st species1 in
  match cached with
  | Some profile => (Returned profile, st1)
  | None =>
      let (response, w1) := TrefleClient.request speciesScript (world st1) in
      let st2 := with_world st1 w1 in
      match response with
      | Thrown e => (Thrown e, st2)
      | Returned raw =>
          let processed := processSpeciesData raw in
          (Returned processed,
           remember cacheKey (createSpeciesKey (inl (id processed)))
                    processed st2)
      end
  end.

(** [searchPlants] of the client, on the store. *)
Definition searchPlants (query : string) (limit : Z) (st : Store)
  : Result (list TrefleSpeciesLight.t) * Store :=
  let (res, st') :=
    TrefleClient.searchPlants searchScript query limit
      (TrefleClient.mkState (world st) (searchResultsCache st)) in
  (res,
   mkStore (TrefleClient.world st') (TrefleClient.searchResultsCache st')
           (speciesCache st) (commonNameCache st) (conversationRegistry st)).

(** The result is [null] ([None]) when the search finds nothing. The array
    passed to [findBestMatch] is not empty, so the match exists: its
    absence, which the source does not handle, stands for the first
    result. *)
Definition findPlantByName (name : string) (st : Store)
  : Result (option ProcessedPlantData) * Store :=
  match ConversationPlantRegistry.findPlant name (conversationRegistry st) with
  | Some existingPlant => (Returned (Some existingPlant), st)
  | None =>
      let (cachedByName, names1) :=
        TrefleCache.get (TrefleClient.now (world st)) (commonNameCache st)
                        (JsString.toLowerCase name) in
      let st1 := with_commonNameCache st names1 in
      match cachedByName with
      | Some profile => (Returned (Some profile), st1)
      | None =>
          let (searchResults, st2) := searchPlants name 5 st1 in
          match searchResults with
          | Thrown e => (Thrown e, st2)
          | Returned [] => (Returned None, st2)
          | Returned (first :: others) =>
              let bestMatch :=
                match findBestMatch name (first :: others) with
                | Some found => found
                | None => first
                end in
              let (res, st3) :=
                getSpeciesById (TrefleSpeciesLight.id bestMatch) st2 in
              (match res with
               | Returned profile => Returned (Some profile)
               | Thrown e => Thrown e
               end, st3)
          end
      end
  end.

End WithNetwork.

End SpeciesLookup.

(* ====================================================================== *)
(** ** client.ts: the singleton client

    A client is its token; [clientInstance] is [None] for [null]. A call
    returns the client or the error it throws, and the instance it
    leaves. *)
(* ====================================================================== *)

Module ClientFactory.
Local Open Scope string_scope.

Inductive FactoryError : Type :=
| TokenRequired       (* Error("Trefle API token is required") *)
| NotInitialized.     (* Error("Trefle client not initialized. ...") *)

(** [new TrefleClient(token)] *)
Definition construct (token : string) : FactoryError + string :=
  if (negb (JsString.truthy token) || String.eqb (JsString.trim token) "")%bool
  then inl TokenRequired
  else inr (JsString.trim token).

(** [getTrefleClient(token?)]; [None] is an omitted token. *)
Definition getTrefleClient (token : option string)
           (clientInstance : option string)
  : (FactoryError + string) * option string :=
  match clientInstance with
  | Some client => (inr client, clientInstance)
  | None =>
      match token with
      | Some t =>
          if JsString.truthy t
          then match construct t with
               | inr client => (inr client, Some client)
               | inl e => (inl e, None)
               end
          else (inl NotInitialized, None)
      | None => (inl NotInitialized, None)
      end
  end.

Definition initializeTrefleClient (token : string)
           (clientInstance : option string)
  : (FactoryError + string) * option string :=
  match construct token with
  | inr client => (inr client, Some client)
  | inl e => (inl e, clientInstance)
  end.

Definition isClientInitialized (clientInstance : option string) : bool :=
  match clientInstance with Some _ => true | None => false end.

(** A call of the factory. *)
Inductive Call : Type :=
| Get (token : option string)
| Initialize (token : string).

Definition call (c : Call) (clientInstance : option string)
  : (FactoryError + string) * option string :=
  match c with
  | Get token => getTrefleClient token clientInstance
  | Initialize token => initializeTrefleClient token clientInstance
  end.

(** The instance after a sequence of calls. *)
Definition after (calls : list Call) (clientInstance : option string)
  : option string :=
  fold_left (fun inst c => snd (call c inst)) calls clientInstance.

End ClientFactory.

(* ====================================================================== *)
(** ** providers/plant-context.ts *)
(* ====================================================================== *)

Module PlantContext.
Local Open Scope string_scope.
Local Open Scope list_scope.
Local Open Scope Z_scope.

Definition MAX_PLANTS_TO_FETCH : Z := 5.

(** The mentions of the messages, oldest message first, a name once. *)
Definition extractMentionsFromHistory
           (registry : ConversationPlantRegistry.t) (messages : list string)
  : list PlantMention :=
  fst (fold_left
         (fun acc text =>
            Extractor.pushNew acc
                              (Extractor.extractPlantMentions registry text))
         messages ([], [])).

(** One turn of the [for] loop of [deduplicateMentions]. *)
Definition keepBetter (mentionMap : JsMap.t PlantMention)
           (mention : PlantMention) : JsMap.t PlantMention :=
  match JsMap.get mentionMap (normalizedName mention) with
  | None => JsMap.set mentionMap (normalizedName mention) mention
  | Some existing =>
      if Extractor.confidenceOrder (confidence mention)
         <? Extractor.confidenceOrder (confidence existing)
      then JsMap.set mentionMap (normalizedName mention) mention
      else mentionMap
  end.

Definition deduplicateMentions (mentions : list PlantMention)
  : list PlantMention :=
  JsMap.values (fold_left keepBetter mentions JsMap.empty).

(** [allMentions] of [getPlantContext]. *)
Definition allMentions (registry : ConversationPlantRegistry.t)
           (currentMessageText : string) (historyMessages : list string)
  : list PlantMention :=
  deduplicateMentions
    (Extractor.extractPlantMentions registry currentMessageText
     ++ extractMentionsFromHistory registry historyMessages).

Section WithNetwork.
Variable searchScript : nat -> Fetched (list TrefleSpeciesLight.t).
Variable speciesScript : nat -> Fetched TrefleSpeciesFull.t.

(** [fetchPlantSafely]: whatever the lookup throws is caught. *)
Definition fetchPlantSafely (mention : PlantMention)
           (st : SpeciesLookup.Store)
  : option ProcessedPlantData * SpeciesLookup.Store :=
  let (res, st') :=
    SpeciesLookup.findPlantByName searchScript speciesScript
                                  (normalizedName mention) st in
  (match res with
   | Returned (Some plant) => Some plant
   | Returned None => None
   | Thrown _ => None
   end, st').

(** One turn of the loop over [mentionsToFetch]: [acc] is the [plants]
    array and the store. *)
Definition fetchStep (acc : list ProcessedPlantData * SpeciesLookup.Store)
           (mention : PlantMention)
  : list ProcessedPlantData * SpeciesLookup.Store :=
  let (plants, st) := acc in
  match ConversationPlantRegistry.findPlant
          (normalizedName mention) (SpeciesLookup.conversationRegistry st) with
  | Some existingPlant => (plants ++ [existingPlant], st)
  | None =>
      match confidence mention with
      | low => (plants, st)
      | _ =>
          let (plant, st') := fetchPlantSafely mention st in
          match plant with
          | Some p => (plants ++ [p], st')
          | None => (plants, st')
          end
      end
  end.

(** One turn of the loop over [existingPlants]. *)
Definition includeExisting (plants : list ProcessedPlantData)
           (plant : ProcessedPlantData) : list ProcessedPlantData :=
  let alreadyIncluded := existsb (fun p => id p =? id plant) plants in
  if (negb alreadyIncluded
      && (Z.of_nat (length plants) <? MAX_PLANTS_TO_FETCH))%bool
  then plants ++ [plant]
  else plants.

(** [getPlantContext], as far as the plants it provides ([rawPlants] of the
    result; the texts derived from them are left out). [initialized] is
    [isClientInitialized()]. *)
Definition getPlantContext (initialized : bool) (currentMessageText : string)
           (historyMessages : list string) (st : SpeciesLookup.Store)
  : list ProcessedPlantData * SpeciesLookup.Store :=
  if negb initialized then ([], st)
  else
    let registry := SpeciesLookup.conversationRegistry st in
    let mentions := allMentions registry currentMessageText historyMessages in
    if Z.of_nat (length mentions) =? 0
    then (ConversationPlantRegistry.getRecentPlants MAX_PLANTS_TO_FETCH
                                                    registry, st)
    else
      let mentionsToFetch := JsString.slice 0 MAX_PLANTS_TO_FETCH mentions in
      let (plants, st') := fold_left fetchStep mentionsToFetch ([], st) in
      let existingPlants :=
        ConversationPlantRegistry.getRecentPlants
          MAX_PLANTS_TO_FETCH (SpeciesLookup.conversationRegistry st') in
      (fold_left includeExisting existingPlants plants, st').

End WithNetwork.

End PlantContext.

(* ====================================================================== *)
(** ** actions/reply-with-plant-info.ts *)
(* ====================================================================== *)

Module PlantInfo.
Local Open Scope string_scope.
Local Open Scope list_scope.
Local Open Scope Z_scope.

Definition MAX_PLANTS_PER_REQUEST : Z := 3.

Definition PLANT_INFO_TRIGGERS : list string := [
  "tell me about"; "what is"; "what are"; "how do i care for";
  "how to care for"; "how to grow"; "how do i grow"; "care guide";
  "care instructions"; "growing guide"; "plant info"; "plant information";
  "about my"; "information on"; "details about"; "facts about";
  "learn about"; "help with my"; "advice for my"; "tips for"
].

(** [initialized] is [isClientInitialized()]. *)
Definition shouldTriggerPlantInfo (initialized : bool)
           (registry : ConversationPlantRegistry.t) (messageText : string)
  : bool :=
  if negb initialized then false
  else if negb (JsString.truthy messageText) then false
  else if negb (Extractor.isPlantRelatedQuery messageText) then false
  else
    let normalizedText := JsString.toLowerCase messageText in
    let hasInfoTrigger :=
      existsb (JsString.includes normalizedText) PLANT_INFO_TRIGGERS in
    let mentions := Extractor.extractPlantMentions registry messageText in
    let hasPlantMention :=
      ((Z.of_nat (length mentions) >? 0)
       || (ConversationPlantRegistry.size registry >? 0))%bool in
    let hasContextPlants :=
      Z.of_nat (length (ConversationPlantRegistry.getRecentPlants 1 registry))
      >? 0 in
    (hasPlantMention && (hasInfoTrigger || hasContextPlants))%bool.

(** [PlantInfoResult] without its [text]; [plants] holds the profiles that
    the source formats into records. *)
Record PlantInfoResult : Type := mkResult {
  plants : list ProcessedPlantData;
  notFound : list string;
  triggered : bool
}.

Section WithNetwork.
Variable searchScript : nat -> Fetched (list TrefleSpeciesLight.t).
Variable speciesScript : nat -> Fetched TrefleSpeciesFull.t.

(** One turn of the loop over [plantsToFetch] for a mention: [acc] is
    [fetchedPlants], [notFoundPlants] and the store. *)
Definition lookupStep
           (acc : list ProcessedPlantData * list string * SpeciesLookup.Store)
           (mention : PlantMention)
  : list ProcessedPlantData * list string * SpeciesLookup.Store :=
  let '(fetchedPlants, notFoundPlants, st) := acc in
  match ConversationPlantRegistry.findPlant
          (normalizedName mention) (SpeciesLookup.conversationRegistry st) with
  | Some existingPlant => (fetchedPlants ++ [existingPlant], notFoundPlants, st)
  | None =>
      let (res, st') :=
        SpeciesLookup.findPlantByName searchScript speciesScript
                                      (normalizedName mention) st in
      match res with
      | Returned (Some plant) => (fetchedPlants ++ [plant], notFoundPlants, st')
      | Returned None =>
          (fetchedPlants, notFoundPlants ++ [originalText mention], st')
      | Thrown _ =>
          (fetchedPlants, notFoundPlants ++ [originalText mention], st')
      end
  end.

(** [getPlantInfo]. Without a mention the recent profiles of the registry
    are the items of the loop, which takes each as it is. With mentions,
    when nothing was fetched the first name not found is searched once
    more, for the suggestions of the reply text. *)
Definition getPlantInfo (initialized : bool) (messageText : string)
           (st : SpeciesLookup.Store)
  : PlantInfoResult * SpeciesLookup.Store :=
  if negb initialized then (mkResult [] [] false, st)
  else
    let registry := SpeciesLookup.conversationRegistry st in
    let mentions := Extractor.extractPlantMentions registry messageText in
    if Z.of_nat (length mentions) =? 0
    then
      let recentPlants :=
        ConversationPlantRegistry.getRecentPlants MAX_PLANTS_PER_REQUEST
                                                  registry in
      if Z.of_nat (length recentPlants) >? 0
      then (mkResult (JsString.slice 0 MAX_PLANTS_PER_REQUEST recentPlants)
                     [] true, st)
      else (mkResult [] [] true, st)
    else
      let plantsToFetch := JsString.slice 0 MAX_PLANTS_PER_REQUEST mentions in
      let '(fetchedPlants, notFoundPlants, st1) :=
        fold_left lookupStep plantsToFetch ([], [], st) in
      match fetchedPlants, notFoundPlants with
      | [], searchQuery :: _ =>
          let (_, st2) :=
            SpeciesLookup.searchPlants searchScript searchQuery 5 st1 in
          (mkResult [] notFoundPlants true, st2)
      | _, _ => (mkResult fetchedPlants notFoundPlants true, st1)
      end.

End WithNetwork.

End PlantInfo.

(* ====================================================================== *)
(** ** Sample data used by the examples below *)
(* ====================================================================== *)

Module Samples.
Local Open Scope string_scope.

Definition monstera : ProcessedPlantData :=
  mkPlant 1 "monstera-deliciosa" "Monstera deliciosa"
          (Some "Swiss cheese plant") "Araceae" "Monstera".

Definition twentyKeys : list string := [
  "oak"; "maple"; "pine"; "spruce"; "fir"; "cedar"; "birch"; "ash"; "elm";
  "willow"; "poplar"; "aspen"; "beech"; "hickory"; "walnut"; "chestnut";
  "olive"; "cypress"; "redwood"; "sequoia"
].

(** A profile registered under a key. *)
Definition under (key : string) : string * ProcessedPlantData :=
  (key, mkPlant 2 key key None "" "").

End Samples.

(* ====================================================================== *)
(** ** Vocabulary of the properties *)
(* ====================================================================== *)

(** The character before the position reached after reading [s], when [p]
    was the character before [s]. *)
Fixpoint last_or (p : option ascii) (s : string) : option ascii :=
  match s with
  | EmptyString => p
  | String c s' => last_or (Some c) s'
  end.

(** A word boundary lies between two neighbouring positions when exactly one
    of them holds a word character. *)
Definition boundary (before after : option ascii) : Prop :=
  xorb (Regex.is_word before) (Regex.is_word after) = true.

(** [name] occurs in [text] as a standalone word: an occurrence with a word
    boundary on either side. *)
Definition standalone (name text : string) : Prop :=
  exists pre post : string,
    text = (pre ++ name ++ post)%string
    /\ boundary (last_or None pre) (Regex.next (name ++ post)%string)
    /\ boundary (last_or (last_or None pre) name) (Regex.next post).

(** Mentions in order of confidence rank. *)
Definition by_rank (a b : PlantMention) : Prop :=
  Extractor.confidenceOrder (confidence a)
  <= Extractor.confidenceOrder (confidence b).

(** The three parts of the claimed normal form of a name. *)
Definition is_lowercase (s : string) : Prop := JsString.toLowerCase s = s.
Definition is_trimmed (s : string) : Prop := JsString.trim s = s.
Definition is_collapsed (s : string) : Prop := JsString.collapseWhitespace s = s.

(** Cache entries in order of insertion timestamp. *)
Definition ts_le {T : Type} (e e' : string * CacheEntry T) : Prop :=
  timestamp (snd e) <= timestamp (snd e').

(** The entries [evictOldest] removes. *)
Definition evicted {T : Type} (c : TrefleCache.t T)
  : list (string * CacheEntry T) :=
  firstn (Z.to_nat (TrefleCache.entriesToRemove c))
         (TrefleCache.sort_by_ts (TrefleCache.cache c)).

(** The key under which [addPlant(key, ...)] registers. *)
Definition normKey (key : string) : string :=
  JsString.trim (JsString.toLowerCase key).

(** Registry invariant: every key of the insertion queue is registered, and
    no key is queued or registered twice. *)
Definition reg_inv (r : ConversationPlantRegistry.t) : Prop :=
  NoDup (ConversationPlantRegistry.mentionOrder r)
  /\ JsMap.wf (ConversationPlantRegistry.plants r)
  /\ forall k, In k (ConversationPlantRegistry.mentionOrder r) ->
               In k (JsMap.keys (ConversationPlantRegistry.plants r)).

(** Registry invariant while no key is empty: the registered keys are the
    insertion queue, at most 20 long. *)
Definition fifo_inv (r : ConversationPlantRegistry.t) : Prop :=
  JsMap.keys (ConversationPlantRegistry.plants r)
  = ConversationPlantRegistry.mentionOrder r
  /\ NoDup (ConversationPlantRegistry.mentionOrder r)
  /\ (length (ConversationPlantRegistry.mentionOrder r) <= 20)%nat
  /\ ~ In EmptyString (ConversationPlantRegistry.mentionOrder r).

(** State of the three [for] loops of [extractPlantMentions]: [foundNames]
    holds exactly the names of [mentions], each once. *)
Definition push_inv (acc : list PlantMention * list string) : Prop :=
  snd acc = map normalizedName (fst acc) /\ NoDup (snd acc).

(** The accumulator of [extractPlantMentions] before the final sort. *)
Definition pushed (registry : ConversationPlantRegistry.t) (text : string)
  : list PlantMention * list string :=
  Extractor.pushNew
    (Extractor.pushNew
       (Extractor.pushNew ([], [])
                          (Extractor.findRegistryMatches registry text))
       (Extractor.findExactMatches text))
    (Extractor.findPatternMatches text).

(** A regular expression every match of which reads at least one
    character (a sufficient syntactic condition). *)
Fixpoint consuming (r : Regex.re) : bool :=
  match r with
  | Regex.Char _ | Regex.Class _ | Regex.Dot => true
  | Regex.Seq a b => consuming a || consuming b
  | Regex.Alt a b => consuming a && consuming b
  | Regex.Rep _ lo _ a => Nat.leb 1 lo && consuming a
  | Regex.Group _ a => consuming a
  | _ => false
  end.

(** A string that does not begin, respectively end, with whitespace. *)
Definition starts_clean (s : string) : Prop :=
  match s with
  | EmptyString => True
  | String c _ => JsString.isWhiteSpace c = false
  end.

Definition ends_clean (s : string) : Prop :=
  match last_or None s with
  | None => True
  | Some c => JsString.isWhiteSpace c = false
  end.

(** What one attempt of [request] decides from the outcome of its fetch:
    return the body, throw a classified error, or record the error as
    [lastError] and go on to the next attempt. *)
Inductive Verdict (T : Type) : Type :=
| Succeeds (body : T)
| Fails (error : RequestError)
| Retries (error : RequestError).
Arguments Succeeds {T}.
Arguments Fails {T}.
Arguments Retries {T}.

Definition verdict {T : Type} (o : FetchOutcome T) : Verdict T :=
  match o with
  | Rejected => Retries FetchError
  | Responded status body =>
      if TrefleClient.ok status then
        match body with
        | Some d => Succeeds d
        | None => Retries FetchError
        end
      else if status =? 404 then Fails TrefleNotFoundError
      else if status =? 401 then Fails TrefleAuthError
      else if status =? 429 then Fails TrefleRateLimitError
      else if status >=? 500 then Retries (ServerError status)
      else Retries (ApiError status)
  end.

(** The delays before the attempts numbered [first], ..., [first + n - 1];
    attempt 0 is not delayed. *)
Definition retry_delays (first n : nat) : list Z :=
  map (fun i => RETRY_DELAY_MS * Z.of_nat i)
      (filter (fun i => Nat.ltb 0 i) (seq first n)).

(** Summary of a run of the retry loop that starts at attempt [a] with [r]
    attempts left, in world [w]: it makes [n] calls, the first [n - 1] of
    which are retried, and the last one decides the result. *)
Definition loop_summary {T : Type} (script : nat -> Fetched T) (r : nat)
           (a : Z) (lastError : option RequestError) (w : TrefleClient.World)
           (out : Result T * TrefleClient.World) : Prop :=
  exists (n : nat) (stamps : list Z),
    (n <= r)%nat /\ (1 <= r -> 1 <= n)%nat
    /\ TrefleClient.calls (snd out) = (TrefleClient.calls w + n)%nat
    /\ TrefleClient.requestTimes (snd out)
       = TrefleClient.requestTimes w ++ stamps
    /\ length stamps = n
    /\ TrefleClient.delays (snd out)
       = TrefleClient.delays w ++ retry_delays (Z.to_nat a) n
    /\ (forall i, (S i < n)%nat ->
                  exists e, verdict (outcome (script (TrefleClient.calls w + i)%nat))
                            = Retries e)
    /\ match n with
       | O => fst out = Thrown (match lastError with
                                | Some e => e
                                | None => RequestFailed
                                end)
       | S m =>
           match verdict (outcome (script (TrefleClient.calls w + m)%nat)) with
           | Succeeds d => fst out = Returned d
           | Fails e => fst out = Thrown e
           | Retries e => fst out = Thrown e /\ n = r
           end
       end.

(** [t] reads like [s] to a literal pattern: character by character, up to
    case when the [i] flag is set. *)
Fixpoint reads_as (ic : bool) (s t : string) : Prop :=
  match s, t with
  | EmptyString, EmptyString => True
  | String a s', String c t' =>
      Regex.char_eq_flag ic a c = true /\ reads_as ic s' t'
  | _, _ => False
  end.

(** What the pattern pass reports about [text]: a trimmed candidate of 3
    to 30 characters with its lower-cased form as name, which is no stop
    word; the confidence is high for a vocabulary name and medium for any
    other name that a context word accompanies. *)
Definition pattern_mention (text : string) (m : PlantMention) : Prop :=
  source m = pattern
  /\ normalizedName m = JsString.toLowerCase (originalText m)
  /\ is_trimmed (originalText m)
  /\ (3 <= String.length (originalText m) <= 30)%nat
  /\ Extractor.isCommonWord (normalizedName m) = false
  /\ ((confidence m = high
       /\ In (normalizedName m) Extractor.COMMON_PLANT_NAMES)
      \/ (confidence m = medium
          /\ ~ In (normalizedName m) Extractor.COMMON_PLANT_NAMES
          /\ Regex.test true (Extractor.contextPattern (normalizedName m))
                        text = true)).

(** State of the loops of [findPatternMatches]: every reported name is a
    processed candidate, and no name is reported twice. *)
Definition pattern_inv (text : string)
           (acc : list PlantMention * list string) : Prop :=
  Forall (pattern_mention text) (fst acc)
  /\ (forall m, In m (fst acc) -> In (normalizedName m) (snd acc))
  /\ NoDup (map normalizedName (fst acc)).

(** The pass of [extractPlantMentions] that a mention's [source] names;
    no pass uses the source [context]. *)
Definition pass_of (registry : ConversationPlantRegistry.t) (text : string)
           (m : PlantMention) : Prop :=
  match source m with
  | exact_match => In m (Extractor.findRegistryMatches registry text)
  | common_name => In m (Extractor.findExactMatches text)
  | pattern => In m (Extractor.findPatternMatches text)
  | context => False
  end.

(** An accumulator of mentions and names cut at [limit] entries: what the
    loop with a limit holds where the loop without one holds [acc]. *)
Definition cut (limit : Z) (acc : list PlantMention * list string)
  : list PlantMention * list string :=
  (firstn (Z.to_nat limit) (fst acc), firstn (Z.to_nat limit) (snd acc)).

(** State of the loop of [deduplicateMentions] after the mentions [seen]:
    the map holds, in order of first occurrence, the names seen; under each
    name a mention seen with that name, of the best confidence seen with
    it. *)
Definition dedup_inv (seen : list PlantMention)
           (mentionMap : JsMap.t PlantMention) : Prop :=
  JsMap.keys mentionMap = snd (Extractor.pushNew ([], []) seen)
  /\ JsMap.wf mentionMap
  /\ (forall k v, In (k, v) mentionMap -> normalizedName v = k /\ In v seen)
  /\ (forall m, In m seen ->
                exists v, JsMap.get mentionMap (normalizedName m) = Some v
                          /\ by_rank v m).

(** The name under which a fetched profile is registered last: its common
    name when it has one, its slug otherwise. *)
Definition registered_name (processed : ProcessedPlantData) : string :=
  match commonName processed with
  | Some cn => if JsString.truthy cn then cn else slug processed
  | None => slug processed
  end.

(** A client instance as the constructor leaves it: a token that is
    trimmed and not empty. *)
Definition valid_instance (clientInstance : option string) : Prop :=
  match clientInstance with
  | Some client => is_trimmed client /\ client <> EmptyString
  | None => True
  end.

(** Every modelled code unit. *)
Definition all_chars : list ascii := map ascii_of_nat (seq 0 256).


(* ====================================================================== *)
(** * Properties *)
(* ====================================================================== *)

Local Open Scope string_scope.
Local Open Scope list_scope.
Local Open Scope Z_scope.

(** ** Insertion-ordered maps *)

Section JsMapFacts.
Context {V : Type}.
Implicit Types (m : JsMap.t V) (k : string) (v : V).

Lemma jsmap_get_set_same m k v : JsMap.get (JsMap.set m k v) k = Some v.
Proof.
  induction m as [|[k' v'] m IH]; simpl.
  - now rewrite String.eqb_refl.
  - destruct (String.eqb k' k) eqn:E; simpl; rewrite E; auto.
Qed.

Lemma jsmap_get_set_other m k k' v :
  k <> k' -> JsMap.get (JsMap.set m k v) k' = JsMap.get m k'.
Proof.
  intros Hne. induction m as [|[k0 v0] m IH]; simpl.
  - destruct (String.eqb k k') eqn:E; auto.
    apply String.eqb_eq in E. contradiction.
  - destruct (String.eqb k0 k) eqn:E; simpl.
    + apply String.eqb_eq in E. subst k0.
      destruct (String.eqb k k') eqn:E'; auto.
      apply String.eqb_eq in E'. contradiction.
    + now rewrite IH.
Qed.

Lemma jsmap_get_delete_same m k : JsMap.get (JsMap.delete m k) k = None.
Proof.
  unfold JsMap.delete. induction m as [|[k' v'] m IH]; simpl; auto.
  destruct (String.eqb k' k) eqn:E; simpl; auto. now rewrite E.
Qed.

Lemma jsmap_get_delete_other m k k' :
  k <> k' -> JsMap.get (JsMap.delete m k) k' = JsMap.get m k'.
Proof.
  intros Hne. unfold JsMap.delete.
  induction m as [|[k0 v0] m IH]; simpl; auto.
  destruct (String.eqb k0 k) eqn:E; simpl.
  - apply String.eqb_eq in E. subst k0.
    destruct (String.eqb k k') eqn:E'; auto.
    apply String.eqb_eq in E'. contradiction.
  - now rewrite IH.
Qed.

Lemma jsmap_get_In m k v : JsMap.get m k = Some v -> In (k, v) m.
Proof.
  induction m as [|[k' v'] m IH]; simpl; [discriminate|].
  destruct (String.eqb k' k) eqn:E.
  - apply String.eqb_eq in E. intros [= ->]. subst. now left.
  - intros H. right. auto.
Qed.

Lemma jsmap_get_None m k : JsMap.get m k = None <-> ~ In k (JsMap.keys m).
Proof.
  induction m as [|[k' v'] m IH]; simpl.
  - tauto.
  - destruct (String.eqb k' k) eqn:E.
    + apply String.eqb_eq in E. split; [discriminate|]. intros H. tauto.
    + apply String.eqb_neq in E. rewrite IH. tauto.
Qed.

Lemma jsmap_has_true m k : JsMap.has m k = true <-> In k (JsMap.keys m).
Proof.
  unfold JsMap.has. destruct (JsMap.get m k) eqn:E.
  - split; auto. intros _.
    apply jsmap_get_In in E. apply (in_map fst) in E. exact E.
  - apply jsmap_get_None in E. split; [discriminate | tauto].
Qed.

Lemma jsmap_has_false m k : JsMap.has m k = false <-> ~ In k (JsMap.keys m).
Proof.
  rewrite <- jsmap_has_true. destruct (JsMap.has m k); split; intros; congruence.
Qed.

Lemma jsmap_keys_set_present m k v :
  In k (JsMap.keys m) -> JsMap.keys (JsMap.set m k v) = JsMap.keys m.
Proof.
  induction m as [|[k' v'] m IH]; simpl; [tauto|].
  intros H. destruct (String.eqb k' k) eqn:E; simpl; auto.
  apply String.eqb_neq in E. f_equal. apply IH. tauto.
Qed.

Lemma jsmap_keys_set_absent m k v :
  ~ In k (JsMap.keys m) -> JsMap.keys (JsMap.set m k v) = JsMap.keys m ++ [k].
Proof.
  induction m as [|[k' v'] m IH]; simpl; auto.
  intros H. destruct (String.eqb k' k) eqn:E.
  - apply String.eqb_eq in E. tauto.
  - simpl. f_equal. apply IH. tauto.
Qed.

Lemma jsmap_keys_set m k v :
  JsMap.keys (JsMap.set m k v)
  = if JsMap.has m k then JsMap.keys m else JsMap.keys m ++ [k].
Proof.
  destruct (JsMap.has m k) eqn:E.
  - apply jsmap_keys_set_present. now apply jsmap_has_true.
  - apply jsmap_keys_set_absent. now apply jsmap_has_false.
Qed.

Lemma jsmap_length_set m k v :
  length (JsMap.set m k v)
  = if JsMap.has m k then length m else S (length m).
Proof.
  pose proof (jsmap_keys_set m k v) as H.
  apply (f_equal (@length string)) in H. unfold JsMap.keys in H.
  rewrite length_map in H. rewrite H.
  destruct (JsMap.has m k); rewrite ?length_app, ?length_map; simpl; lia.
Qed.

Lemma jsmap_keys_delete m k :
  JsMap.keys (JsMap.delete m k)
  = filter (fun k' => negb (String.eqb k' k)) (JsMap.keys m).
Proof.
  unfold JsMap.delete, JsMap.keys.
  induction m as [|[k' v'] m IH]; simpl; auto.
  destruct (String.eqb k' k); simpl; now rewrite IH.
Qed.

Lemma jsmap_wf_set m k v : JsMap.wf m -> JsMap.wf (JsMap.set m k v).
Proof.
  unfold JsMap.wf. intros H. rewrite jsmap_keys_set.
  destruct (JsMap.has m k) eqn:E; auto.
  apply jsmap_has_false in E.
  apply NoDup_rev in H. rewrite <- (rev_involutive (_ ++ _)).
  apply NoDup_rev. rewrite rev_app_distr. simpl. constructor; auto.
  now rewrite <- in_rev.
Qed.

Lemma jsmap_wf_filter (p : string * V -> bool) m :
  JsMap.wf m -> JsMap.wf (filter p m).
Proof.
  unfold JsMap.wf, JsMap.keys. induction m as [|e m IH]; simpl; auto.
  intros H. inversion H as [|? ? Hn Hd]; subst.
  destruct (p e); simpl; auto. constructor; auto.
  intros Hin. apply Hn. apply in_map_iff in Hin as [x [Hx Hin]].
  apply filter_In in Hin as [Hin _]. apply in_map_iff. eauto.
Qed.

Lemma jsmap_wf_delete m k : JsMap.wf m -> JsMap.wf (JsMap.delete m k).
Proof. apply jsmap_wf_filter. Qed.

Lemma jsmap_wf_NoDup m : JsMap.wf m -> NoDup m.
Proof. unfold JsMap.wf, JsMap.keys. apply NoDup_map_inv. Qed.

Lemma jsmap_wf_key_inj m e e' :
  JsMap.wf m -> In e m -> In e' m -> fst e = fst e' -> e = e'.
Proof.
  unfold JsMap.wf, JsMap.keys. induction m as [|x m IH]; simpl; [tauto|].
  intros H [->|Hin] [->|Hin'] Heq; auto; inversion H as [|? ? Hn Hd]; subst.
  - exfalso. apply Hn. rewrite Heq. now apply in_map.
  - exfalso. apply Hn. rewrite <- Heq. now apply in_map.
  - now apply IH.
Qed.

(** Deleting a list of keys keeps exactly the entries under other keys. *)
Lemma jsmap_delete_all m (ks : list string) :
  fold_left JsMap.delete ks m
  = filter (fun e => negb (existsb (String.eqb (fst e)) ks)) m.
Proof.
  revert m. induction ks as [|k ks IH]; intros m; simpl.
  - induction m as [|e m IHm]; simpl; congruence.
  - rewrite IH. unfold JsMap.delete.
    induction m as [|e m IHm]; simpl; auto.
    destruct (String.eqb (fst e) k); simpl; rewrite IHm; auto.
Qed.

End JsMapFacts.

(** ** Lists *)

Lemma in_firstn_in {A} (n : nat) (l : list A) x : In x (firstn n l) -> In x l.
Proof.
  intros H. rewrite <- (firstn_skipn n l). apply in_or_app. now left.
Qed.

Lemma in_skipn_in {A} (n : nat) (l : list A) x : In x (skipn n l) -> In x l.
Proof.
  intros H. rewrite <- (firstn_skipn n l). apply in_or_app. now right.
Qed.

Lemma nodup_firstn {A} (n : nat) (l : list A) : NoDup l -> NoDup (firstn n l).
Proof.
  intros H. rewrite <- (firstn_skipn n l) in H.
  now apply NoDup_app_remove_r in H.
Qed.

Lemma nodup_skipn {A} (n : nat) (l : list A) : NoDup l -> NoDup (skipn n l).
Proof.
  intros H. rewrite <- (firstn_skipn n l) in H.
  now apply NoDup_app_remove_l in H.
Qed.

(** ** TrefleCache *)

Section CacheFacts.
Context {T : Type}.
Implicit Types (c : TrefleCache.t T) (l : list (string * CacheEntry T)).

Lemma insert_by_ts_perm x l :
  Permutation (TrefleCache.insert_by_ts x l) (x :: l).
Proof.
  induction l as [|y l IH]; simpl; auto.
  destruct (timestamp (snd x) <=? timestamp (snd y)); auto.
  rewrite IH. apply perm_swap.
Qed.

Lemma sort_by_ts_perm l : Permutation (TrefleCache.sort_by_ts l) l.
Proof.
  induction l as [|x l IH]; simpl; auto.
  rewrite insert_by_ts_perm. now constructor.
Qed.

Lemma insert_by_ts_sorted x l :
  StronglySorted ts_le l -> StronglySorted ts_le (TrefleCache.insert_by_ts x l).
Proof.
  induction 1 as [|y l Hs IH Hall]; simpl.
  - repeat constructor.
  - destruct (timestamp (snd x) <=? timestamp (snd y)) eqn:E.
    + apply Z.leb_le in E. constructor; [now constructor|].
      constructor; auto.
      eapply Forall_impl; [|exact Hall].
      unfold ts_le in *. intros; lia.
    + apply Z.leb_gt in E. constructor; auto.
      eapply Permutation_Forall.
      * symmetry. apply insert_by_ts_perm.
      * constructor; auto. unfold ts_le. lia.
Qed.

Lemma sort_by_ts_sorted l : StronglySorted ts_le (TrefleCache.sort_by_ts l).
Proof.
  induction l as [|x l IH]; simpl; [constructor|].
  now apply insert_by_ts_sorted.
Qed.

Lemma sorted_firstn_skipn l (n : nat) e e' :
  StronglySorted ts_le l ->
  In e (firstn n l) -> In e' (skipn n l) -> ts_le e e'.
Proof.
  intros Hs. revert n. induction Hs as [|x l Hs IH Hall]; intros n.
  - rewrite firstn_nil. simpl. tauto.
  - destruct n as [|n]; simpl; [tauto|].
    intros [<-|Hin] Hin'.
    + rewrite Forall_forall in Hall. apply Hall.
      eapply (in_skipn_in n). exact Hin'.
    + eauto.
Qed.

Lemma evictOldest_cache c :
  TrefleCache.cache (TrefleCache.evictOldest c)
  = filter (fun e => negb (existsb (String.eqb (fst e)) (map fst (evicted c))))
           (TrefleCache.cache c).
Proof. simpl. unfold TrefleCache.oldestKeys. apply jsmap_delete_all. Qed.

Lemma filter_split {A} (p : A -> bool) (l : list A) :
  Permutation l (filter p l ++ filter (fun x => negb (p x)) l).
Proof.
  induction l as [|x l IH]; simpl; auto.
  destruct (p x); simpl.
  - now constructor.
  - now apply Permutation_cons_app.
Qed.

Lemma evicted_incl c e :
  In e (evicted c) -> In e (TrefleCache.cache c).
Proof.
  intros H. apply (Permutation_in _ (sort_by_ts_perm _)).
  eapply (in_firstn_in (Z.to_nat (TrefleCache.entriesToRemove c))). exact H.
Qed.

Lemma evicted_NoDup c :
  JsMap.wf (TrefleCache.cache c) -> NoDup (evicted c).
Proof.
  intros H. apply jsmap_wf_NoDup in H.
  apply nodup_firstn.
  eapply Permutation_NoDup; [symmetry; apply sort_by_ts_perm | exact H].
Qed.

Lemma in_keys_evicted c e :
  JsMap.wf (TrefleCache.cache c) -> In e (TrefleCache.cache c) ->
  existsb (String.eqb (fst e)) (map fst (evicted c)) = true <-> In e (evicted c).
Proof.
  intros Hwf Hin. rewrite existsb_exists. split.
  - intros [k [Hk E]]. apply String.eqb_eq in E.
    apply in_map_iff in Hk as [e' [Hf He']].
    assert (e = e') as ->; auto.
    eapply jsmap_wf_key_inj; eauto using evicted_incl. congruence.
  - intros H. exists (fst e). split; [now apply in_map|apply String.eqb_refl].
Qed.

(** [evictOldest] splits the entries into the evicted ones and the rest. *)
Lemma evictOldest_split c :
  JsMap.wf (TrefleCache.cache c) ->
  Permutation (TrefleCache.cache c)
              (evicted c ++ TrefleCache.cache (TrefleCache.evictOldest c)).
Proof.
  intros Hwf. rewrite evictOldest_cache.
  etransitivity;
    [apply (filter_split
              (fun e => existsb (String.eqb (fst e)) (map fst (evicted c))))|].
  apply Permutation_app_tail.
  apply NoDup_Permutation.
  - apply NoDup_filter. now apply jsmap_wf_NoDup.
  - now apply evicted_NoDup.
  - intros e. rewrite filter_In. split.
    + intros [Hin He]. now apply in_keys_evicted in He.
    + intros He. split; [now apply evicted_incl|].
      apply in_keys_evicted; auto using evicted_incl.
Qed.

Lemma evicted_length c :
  length (evicted c)
  = Nat.min (Z.to_nat (TrefleCache.entriesToRemove c))
            (length (TrefleCache.cache c)).
Proof.
  unfold evicted. rewrite length_firstn.
  now rewrite (Permutation_length (sort_by_ts_perm _)).
Qed.

Lemma evicted_oldest c e e' :
  JsMap.wf (TrefleCache.cache c) ->
  In e (evicted c) -> In e' (TrefleCache.cache (TrefleCache.evictOldest c)) ->
  ts_le e e'.
Proof.
  intros Hwf He He'.
  rewrite evictOldest_cache in He'. apply filter_In in He' as [Hin Hk].
  eapply sorted_firstn_skipn; [apply sort_by_ts_sorted | exact He |].
  apply (Permutation_in _ (Permutation_sym (sort_by_ts_perm _))) in Hin.
  rewrite <- (firstn_skipn (Z.to_nat (TrefleCache.entriesToRemove c))) in Hin.
  apply in_app_or in Hin as [Hin|Hin]; eauto.
  exfalso. apply negb_true_iff in Hk.
  assert (existsb (String.eqb (fst e')) (map fst (evicted c)) = true);
    [|congruence].
  apply existsb_exists. exists (fst e'). split.
  - now apply in_map.
  - apply String.eqb_refl.
Qed.

Lemma evictOldest_wf c :
  JsMap.wf (TrefleCache.cache c) ->
  JsMap.wf (TrefleCache.cache (TrefleCache.evictOldest c)).
Proof. intros H. rewrite evictOldest_cache. now apply jsmap_wf_filter. Qed.

Lemma set_wf now c k v :
  JsMap.wf (TrefleCache.cache c) ->
  JsMap.wf (TrefleCache.cache (TrefleCache.set now c k v)).
Proof.
  intros H. unfold TrefleCache.set.
  destruct (TrefleCache.size c >=? TrefleCache.maxSize c); simpl;
    apply jsmap_wf_set; auto.
  apply (evictOldest_wf c H).
Qed.

Lemma set_maxSize now c k v :
  TrefleCache.maxSize (TrefleCache.set now c k v) = TrefleCache.maxSize c.
Proof.
  unfold TrefleCache.set.
  now destruct (TrefleCache.size c >=? TrefleCache.maxSize c).
Qed.

Lemma set_ttlMs now c k v :
  TrefleCache.ttlMs (TrefleCache.set now c k v) = TrefleCache.ttlMs c.
Proof.
  unfold TrefleCache.set.
  now destruct (TrefleCache.size c >=? TrefleCache.maxSize c).
Qed.

Lemma set_size_bound now c k v :
  1 <= TrefleCache.maxSize c ->
  JsMap.wf (TrefleCache.cache c) ->
  TrefleCache.size c <= TrefleCache.maxSize c ->
  TrefleCache.size (TrefleCache.set now c k v) <= TrefleCache.maxSize c.
Proof.
  intros Hcap Hwf Hsz. unfold TrefleCache.set, TrefleCache.size, JsMap.size in *.
  destruct (Z.of_nat (length (TrefleCache.cache c)) >=? TrefleCache.maxSize c)
    eqn:E; cbn [TrefleCache.cache TrefleCache.with_cache].
  - pose proof (Permutation_length (evictOldest_split c Hwf)) as Hlen.
    rewrite length_app, evicted_length in Hlen.
    pose proof (jsmap_length_set
                  (TrefleCache.cache (TrefleCache.evictOldest c)) k
                  (mkEntry v now)) as Hset.
    apply Z.geb_le in E. unfold TrefleCache.entriesToRemove in Hlen.
    destruct (JsMap.has _ k); lia.
  - rewrite Z.geb_leb in E. apply Z.leb_gt in E.
    pose proof (jsmap_length_set (TrefleCache.cache c) k (mkEntry v now)).
    destruct (JsMap.has _ k); lia.
Qed.

(** Invariant of every cache reached by [set] calls from a fresh one. *)
Lemma run_sets_invariant c ops :
  1 <= TrefleCache.maxSize c ->
  JsMap.wf (TrefleCache.cache c) ->
  TrefleCache.size c <= TrefleCache.maxSize c ->
  let c' := TrefleCache.run_sets c ops in
  TrefleCache.maxSize c' = TrefleCache.maxSize c
  /\ JsMap.wf (TrefleCache.cache c')
  /\ TrefleCache.size c' <= TrefleCache.maxSize c.
Proof.
  revert c. induction ops as [|[[now k] v] ops IH]; intros c Hcap Hwf Hsz; simpl.
  - auto.
  - specialize (IH (TrefleCache.set now c k v)).
    rewrite set_maxSize in IH. apply IH; auto using set_wf, set_size_bound.
Qed.

End CacheFacts.

Lemma get_after_set_live {T} (c : TrefleCache.t T) (k : string) (v : T)
      (t0 t1 : Z) :
  t1 - t0 <= TrefleCache.ttlMs c ->
  TrefleCache.get t1 (TrefleCache.set t0 c k v) k
  = (Some v, TrefleCache.set t0 c k v).
Proof.
  intros H. unfold TrefleCache.get.
  rewrite set_ttlMs.
  replace (JsMap.get (TrefleCache.cache (TrefleCache.set t0 c k v)) k)
    with (Some (mkEntry v t0)).
  - cbn [timestamp data].
    destruct (t1 - t0 >? TrefleCache.ttlMs c) eqn:E; auto.
    apply Z.gtb_lt in E. lia.
  - unfold TrefleCache.set. cbn [TrefleCache.cache TrefleCache.with_cache].
    now rewrite jsmap_get_set_same.
Qed.

Lemma get_after_set_stale {T} (c : TrefleCache.t T) (k : string) (v : T)
      (t0 t1 : Z) :
  t1 - t0 > TrefleCache.ttlMs c ->
  let c1 := TrefleCache.set t0 c k v in
  TrefleCache.get t1 c1 k
  = (None, TrefleCache.with_cache c1 (JsMap.delete (TrefleCache.cache c1) k)).
Proof.
  intros H c1. unfold TrefleCache.get.
  replace (JsMap.get (TrefleCache.cache c1) k) with (Some (mkEntry v t0)).
  - unfold c1 at 1. rewrite set_ttlMs. cbn [timestamp].
    destruct (t1 - t0 >? TrefleCache.ttlMs c) eqn:E; auto.
    rewrite Z.gtb_ltb in E. apply Z.ltb_ge in E. lia.
  - unfold c1, TrefleCache.set.
    cbn [TrefleCache.cache TrefleCache.with_cache].
    now rewrite jsmap_get_set_same.
Qed.

(** C2. For every key [k] and value [v]: after [set(k, v)] at time [t0], a
    [get(k)] at time [t1] returns [v] as long as [t1 - t0] does not exceed
    the TTL, and leaves the cache as it is; once [t1 - t0] exceeds the TTL,
    [get(k)] returns absent and, as a side effect of that read, the entry
    under [k] is deleted from the cache. *)
Theorem cache_get_after_set (T : Type) (c : TrefleCache.t T) (k : string)
        (v : T) (t0 t1 : Z) :
  let c1 := TrefleCache.set t0 c k v in
  (t1 - t0 <= TrefleCache.ttlMs c ->
   TrefleCache.get t1 c1 k = (Some v, c1))
  /\ (t1 - t0 > TrefleCache.ttlMs c ->
      fst (TrefleCache.get t1 c1 k) = None
      /\ TrefleCache.cache (snd (TrefleCache.get t1 c1 k))
         = JsMap.delete (TrefleCache.cache c1) k
      /\ JsMap.has (TrefleCache.cache (snd (TrefleCache.get t1 c1 k))) k = false).
Proof.
  intros c1. split; intros H.
  - now apply get_after_set_live.
  - unfold c1. rewrite (get_after_set_stale c k v t0 t1 H).
    cbn [fst snd TrefleCache.cache TrefleCache.with_cache].
    repeat split. unfold JsMap.has. now rewrite jsmap_get_delete_same.
Qed.

Lemma cache_get_after_set_witness :
  let c1 := TrefleCache.set 1000 (TrefleCache.new CACHE_TTL_MS 300) "rose" 7 in
  TrefleCache.get 301000 c1 "rose" = (Some 7, c1)
  /\ fst (TrefleCache.get 301001 c1 "rose") = None
  /\ JsMap.has (TrefleCache.cache (snd (TrefleCache.get 301001 c1 "rose")))
               "rose" = false.
Proof.
  intros c1. split.
  - apply (proj1 (cache_get_after_set Z (TrefleCache.new CACHE_TTL_MS 300)
                                      "rose" 7 1000 301000)).
    vm_compute. discriminate.
  - pose proof (proj2 (cache_get_after_set Z (TrefleCache.new CACHE_TTL_MS 300)
                                           "rose" 7 1000 301001)) as H.
    destruct H as [H1 [_ H3]]; [reflexivity | split; [exact H1 | exact H3]].
Defined.

(** C3. A cache with a positive capacity (the module builds caches of
    capacity 200 and 300, 500 by default) holds at most that many entries
    after any sequence of [set] calls. Whenever [set] is invoked on such a
    cache while it is at capacity, the [max(1, floor(capacity * 0.1))]
    entries with the oldest insertion timestamps are removed, every other
    entry is kept, and only then is the new entry stored. *)
Theorem cache_never_exceeds_capacity (T : Type) (ttl cap : Z)
        (ops : list (Z * string * T)) :
  1 <= cap ->
  let c := TrefleCache.run_sets (TrefleCache.new ttl cap) ops in
  TrefleCache.size c <= cap
  /\ forall (now : Z) (k : string) (v : T),
      TrefleCache.size c >= cap ->
      exists removed kept : list (string * CacheEntry T),
        Permutation (TrefleCache.cache c) (removed ++ kept)
        /\ length removed = Z.to_nat (Z.max 1 (cap / 10))
        /\ (forall e e', In e removed -> In e' kept ->
                         timestamp (snd e) <= timestamp (snd e'))
        /\ TrefleCache.cache (TrefleCache.set now c k v)
           = JsMap.set kept k (mkEntry v now)
        /\ TrefleCache.size (TrefleCache.set now c k v) <= cap.
Proof.
  intros Hcap c.
  destruct (run_sets_invariant (TrefleCache.new ttl cap) ops) as [Hm [Hwf Hsz]];
    try (simpl; auto; fail).
  { constructor. }
  { unfold TrefleCache.size, JsMap.size. simpl. lia. }
  fold c in Hm, Hwf, Hsz. simpl in Hm, Hsz.
  split; [exact Hsz|].
  intros now k v Hfull.
  exists (evicted c), (TrefleCache.cache (TrefleCache.evictOldest c)).
  split; [now apply evictOldest_split|].
  split.
  { rewrite evicted_length. unfold TrefleCache.entriesToRemove. rewrite Hm.
    unfold TrefleCache.size, JsMap.size in Hfull, Hsz.
    pose proof (Z.div_le_upper_bound cap 10 cap ltac:(lia) ltac:(lia)).
    lia. }
  split; [intros e e'; now apply evicted_oldest|].
  split.
  { unfold TrefleCache.set. rewrite Hm.
    destruct (TrefleCache.size c >=? cap) eqn:E; [reflexivity|].
    rewrite Z.geb_leb in E. apply Z.leb_gt in E. lia. }
  rewrite <- Hm. apply set_size_bound; rewrite ?Hm; auto.
Qed.

Lemma cache_never_exceeds_capacity_witness :
  let c := TrefleCache.run_sets (TrefleCache.new CACHE_TTL_MS 2)
                                [(10, "oak", 1%nat); (20, "elm", 2%nat)] in
  TrefleCache.size c <= 2
  /\ TrefleCache.size (TrefleCache.set 30 c "yew" 3%nat) <= 2.
Proof.
  intros c.
  destruct (cache_never_exceeds_capacity
              nat CACHE_TTL_MS 2 [(10, "oak", 1%nat); (20, "elm", 2%nat)])
    as [H1 H2]; [lia|].
  split; [exact H1|].
  destruct (H2 30 "yew" 3%nat) as [removed [kept [_ [_ [_ [_ H]]]]]].
  - vm_compute. discriminate.
  - exact H.
Defined.

(** The capacity bound needs a positive capacity: with capacity 0 the first
    [set] already leaves one entry behind. *)
Example cache_capacity_zero :
  TrefleCache.size (TrefleCache.set 10 (TrefleCache.new CACHE_TTL_MS 0) "oak" 1%nat)
  = 1.
Proof. reflexivity. Qed.

(** ** ConversationPlantRegistry *)

Section RegistryFacts.
Import ConversationPlantRegistry.
Implicit Types (r : ConversationPlantRegistry.t) (p : ProcessedPlantData).

Lemma reg_inv_new : reg_inv new.
Proof. repeat split; simpl; try constructor. tauto. Qed.

Lemma shiftOldest_inv r : reg_inv r -> reg_inv (shiftOldest r).
Proof.
  intros Hinv. unfold shiftOldest.
  destruct (mentionOrder r) as [|oldest rest] eqn:E; [exact Hinv|].
  destruct Hinv as (Hnd & Hwf & Hin). rewrite E in Hnd, Hin.
  - inversion Hnd as [|? ? Hn Hd]; subst.
    repeat split; cbn [plants mentionOrder]; auto.
    + destruct (JsString.truthy oldest); auto using jsmap_wf_delete.
    + intros k Hk. assert (In k (JsMap.keys (plants r))) as Hp
          by (apply Hin; now right).
      destruct (JsString.truthy oldest); auto.
      rewrite jsmap_keys_delete. apply filter_In. split; auto.
      apply negb_true_iff. apply String.eqb_neq. congruence.
Qed.

Lemma shiftOldest_keys_incl r k :
  In k (JsMap.keys (plants (shiftOldest r))) -> In k (JsMap.keys (plants r)).
Proof.
  unfold shiftOldest. destruct (mentionOrder r) as [|oldest rest]; auto.
  cbn [plants]. destruct (JsString.truthy oldest); auto.
  rewrite jsmap_keys_delete. intros H. now apply filter_In in H.
Qed.

Lemma addPlant_inv key p r : reg_inv r -> reg_inv (addPlant key p r).
Proof.
  intros Hinv. unfold addPlant. fold (normKey key).
  destruct (JsMap.has (plants r) (normKey key)) eqn:Hhas; cbn [negb].
  - destruct Hinv as (Hnd & Hwf & Hin).
    repeat split; cbn [plants mentionOrder]; auto using jsmap_wf_set.
    intros k Hk. rewrite jsmap_keys_set, Hhas. auto.
  - apply jsmap_has_false in Hhas.
    set (r0 := if Z.of_nat (length (mentionOrder r)) >=? maxPlants
               then shiftOldest r else r).
    assert (Hinv0 : reg_inv r0)
      by (unfold r0; destruct (_ >=? _); auto using shiftOldest_inv).
    assert (Hk0 : ~ In (normKey key) (JsMap.keys (plants r0))).
    { unfold r0. destruct (_ >=? _); auto.
      intros H. now apply shiftOldest_keys_incl in H. }
    destruct Hinv0 as (Hnd & Hwf & Hin).
    repeat split; cbn [plants mentionOrder]; auto using jsmap_wf_set.
    + apply NoDup_rev in Hnd. rewrite <- (rev_involutive (_ ++ _)).
      apply NoDup_rev. rewrite rev_app_distr. simpl. constructor; auto.
      rewrite <- in_rev. auto.
    + intros k Hk. rewrite jsmap_keys_set_absent by exact Hk0.
      apply in_app_or in Hk as [Hk|Hk]; apply in_or_app; auto.
Qed.

Lemma addAll_inv ops r : reg_inv r -> reg_inv (addAll ops r).
Proof.
  revert r. unfold addAll.
  induction ops as [|[k p] ops IH]; intros r H; simpl; auto.
  apply IH. now apply addPlant_inv.
Qed.

Lemma jsmap_set_absent {V} (m : JsMap.t V) k v :
  ~ In k (JsMap.keys m) -> JsMap.set m k v = m ++ [(k, v)].
Proof.
  induction m as [|[k' v'] m IH]; simpl; auto.
  intros H. destruct (String.eqb k' k) eqn:E.
  - apply String.eqb_eq in E. tauto.
  - f_equal. apply IH. tauto.
Qed.

(** Adding a key that is not registered, below capacity. *)
Lemma addPlant_fresh key p r :
  ~ In (normKey key) (JsMap.keys (plants r)) ->
  (length (mentionOrder r) < 20)%nat ->
  addPlant key p r
  = mk (plants r ++ [(normKey key, p)]) (mentionOrder r ++ [normKey key]).
Proof.
  intros Hk Hlen. unfold addPlant. fold (normKey key).
  apply jsmap_has_false in Hk as Hhas. rewrite Hhas. cbn [negb].
  destruct (Z.of_nat (length (mentionOrder r)) >=? maxPlants) eqn:E.
  - apply Z.geb_le in E. unfold maxPlants in E. lia.
  - cbn [plants mentionOrder]. now rewrite jsmap_set_absent.
Qed.

(** On a registry satisfying the invariant, each recent key contributes
    exactly its profile. *)
Lemma recent_profiles r (ks : list string) :
  (forall k, In k ks -> In k (JsMap.keys (plants r))) ->
  Forall2 (fun k p => JsMap.get (plants r) k = Some p) ks
          (flat_map (fun key => match JsMap.get (plants r) key with
                                | Some p => [p]
                                | None => []
                                end) ks).
Proof.
  induction ks as [|k ks IH]; intros H; simpl; [constructor|].
  destruct (JsMap.get (plants r) k) eqn:E.
  - simpl. constructor; auto. apply IH. intros; apply H; now right.
  - apply jsmap_get_None in E. exfalso. apply E, H. now left.
Qed.

Lemma Forall2_rev {A B} (R : A -> B -> Prop) l l' :
  Forall2 R l l' -> Forall2 R (rev l) (rev l').
Proof.
  induction 1; simpl; [constructor|].
  apply Forall2_app; auto.
Qed.

End RegistryFacts.

Section RegistryClaims.
Import ConversationPlantRegistry.

Lemma clamp_index_neg {A} (l : list A) (n : Z) :
  1 <= n -> JsString.clamp_index l (- n) = (length l - Z.to_nat n)%nat.
Proof.
  intros Hn. unfold JsString.clamp_index.
  destruct (- n <? 0) eqn:E; [lia|]. apply Z.ltb_ge in E. lia.
Qed.

(** C7 (as amended). For every [n >= 1], [getRecentPlants(n)] returns the
    profiles registered under the last [min(n, size)] keys of the
    insertion queue, most recently inserted key first, one entry per key;
    after inserting four distinct keys A, B, C, D in that order,
    [getRecentPlants(3)] returns the profiles of D, C, B. *)
Theorem getRecentPlants_recent_keys :
  (forall (ops : list (string * ProcessedPlantData)) (n : Z),
      1 <= n ->
      let r := addAll ops new in
      let recent :=
        skipn (length (mentionOrder r) - Z.to_nat n) (mentionOrder r) in
      Forall2 (fun k p => JsMap.get (plants r) k = Some p)
              (rev recent) (getRecentPlants n r)
      /\ Z.of_nat (length (getRecentPlants n r))
         = Z.min n (Z.of_nat (length (mentionOrder r))))
  /\ (forall (A B C D : string) (pA pB pC pD : ProcessedPlantData),
         NoDup [normKey A; normKey B; normKey C; normKey D] ->
         getRecentPlants 3 (addAll [(A, pA); (B, pB); (C, pC); (D, pD)] new)
         = [pD; pC; pB]).
Proof.
  split.
  - intros ops n Hn r recent.
    destruct (addAll_inv ops new reg_inv_new) as (Hnd & Hwf & Hin).
    fold r in Hnd, Hwf, Hin.
    assert (HF : Forall2 (fun k p => JsMap.get (plants r) k = Some p)
                         (rev recent) (getRecentPlants n r)).
    { unfold getRecentPlants, JsString.slice_from.
      rewrite clamp_index_neg by exact Hn. fold recent.
      apply Forall2_rev. apply recent_profiles.
      intros k Hk. apply Hin. eapply in_skipn_in. exact Hk. }
    split; [exact HF|].
    apply Forall2_length in HF. rewrite <- HF, length_rev.
    unfold recent. rewrite length_skipn. lia.
  - intros A B C D pA pB pC pD Hnd.
    inversion Hnd as [|? ? Ha Hnd1]; subst.
    inversion Hnd1 as [|? ? Hb Hnd2]; subst.
    inversion Hnd2 as [|? ? Hc _]; subst.
    simpl in Ha, Hb, Hc.
    assert (Nab : normKey A <> normKey B) by intuition congruence.
    assert (Nac : normKey A <> normKey C) by intuition congruence.
    assert (Nad : normKey A <> normKey D) by intuition congruence.
    assert (Nbc : normKey B <> normKey C) by intuition congruence.
    assert (Nbd : normKey B <> normKey D) by intuition congruence.
    assert (Ncd : normKey C <> normKey D) by intuition congruence.
    unfold addAll. cbn [fold_left fst snd].
    rewrite (addPlant_fresh A pA new) by (simpl; auto; lia).
    cbn [plants mentionOrder new JsMap.empty app].
    rewrite (addPlant_fresh B pB (mk [(normKey A, pA)] [normKey A]))
      by (simpl; try lia; intuition congruence).
    cbn [plants mentionOrder app].
    rewrite (addPlant_fresh C pC (mk [(normKey A, pA); (normKey B, pB)]
                                     [normKey A; normKey B]))
      by (simpl; try lia; intuition congruence).
    cbn [plants mentionOrder app].
    rewrite (addPlant_fresh D pD
               (mk [(normKey A, pA); (normKey B, pB); (normKey C, pC)]
                   [normKey A; normKey B; normKey C]))
      by (simpl; try lia; intuition congruence).
    cbn [plants mentionOrder app].
    unfold getRecentPlants. cbn [plants mentionOrder].
    change (JsString.slice_from
              (- (3)) [normKey A; normKey B; normKey C; normKey D])
      with [normKey B; normKey C; normKey D].
    cbn [flat_map JsMap.get].
    rewrite !String.eqb_refl.
    apply String.eqb_neq in Nab, Nac, Nad, Nbc, Nbd, Ncd.
    rewrite Nab, Nac, Nad, Nbc, Nbd, Ncd. reflexivity.
Qed.

Lemma getRecentPlants_recent_keys_witness :
  Z.of_nat (length (getRecentPlants
                      2 (addAll (map Samples.under Samples.twentyKeys) new)))
  = 2
  /\ getRecentPlants
       3 (addAll [Samples.under "oak"; Samples.under "Elm";
                  Samples.under " fir"; Samples.under "ash"] new)
     = [snd (Samples.under "ash"); snd (Samples.under " fir");
        snd (Samples.under "Elm")].
Proof.
  split.
  - destruct (proj1 getRecentPlants_recent_keys
                    (map Samples.under Samples.twentyKeys) 2) as [_ H];
      [lia | exact H].
  - apply (proj2 getRecentPlants_recent_keys "oak" "Elm" " fir" "ash").
    repeat constructor; simpl; intuition discriminate.
Defined.

(** C7 (as stated) fails: after one species has been resolved, the
    registry holds its profile under its slug and under its common name,
    and [getRecentPlants(3)] returns that profile twice. *)
Lemma getRecentPlants_repeats_profile :
  let r := TrefleClient.registerProfile Samples.monstera new in
  getRecentPlants 3 r = [Samples.monstera; Samples.monstera]
  /\ ~ NoDup (getRecentPlants 3 r).
Proof.
  intros r. assert (E : getRecentPlants 3 r
                        = [Samples.monstera; Samples.monstera])
    by reflexivity.
  split; [exact E|]. rewrite E. intros H.
  inversion H as [|? ? Hn _]; subst. apply Hn. now left.
Qed.

(** [slice(-0)] is [slice(0)]: a count of 0 returns every queued profile. *)
Example getRecentPlants_zero :
  length (getRecentPlants
            0 (addAll (map Samples.under Samples.twentyKeys) new)) = 20%nat.
Proof. reflexivity. Qed.

(** C6 at the failing input: a key that normalizes to the empty string is
    queued first; when the 21st key arrives it is shifted out of the queue,
    but [if (oldestKey)] is false for the empty string, so the profile is
    not deleted and the registry holds 21 keys. *)
Theorem registry_blank_key_overflows :
  let r := addAll (Samples.under " " :: map Samples.under Samples.twentyKeys)
                  new in
  size r = 21
  /\ length (mentionOrder r) = 20%nat
  /\ hasPlant "" r = true
  /\ ~ In "" (mentionOrder r).
Proof.
  intros r. repeat split.
  vm_compute. intuition discriminate.
Qed.

End RegistryClaims.

(** ** RateLimiter *)

Lemma filter_all {A} (p : A -> bool) (l : list A) :
  (forall x, In x l -> p x = true) -> filter p l = l.
Proof.
  induction l as [|x l IH]; simpl; intros H; auto.
  rewrite (H x) by now left. f_equal. apply IH. intros; apply H; now right.
Qed.

Lemma cleanup_expired_length (now : Z) (times : RateLimiter.t) :
  (length (RateLimiter.cleanup now times)
   + length (RateLimiter.expired now times) = length times)%nat.
Proof.
  unfold RateLimiter.cleanup, RateLimiter.expired.
  pose proof (Permutation_length
                (filter_split (fun time => time >? now - RateLimiter.windowMs)
                              times)) as H.
  rewrite length_app in H. symmetry. exact H.
Qed.

Lemma canMakeRequest_world_full (w : TrefleClient.World) :
  length (TrefleClient.requestTimes w) = 100%nat ->
  (forall t, In t (TrefleClient.requestTimes w) ->
             t > TrefleClient.now w - RateLimiter.windowMs) ->
  TrefleClient.canMakeRequest w = (false, w).
Proof.
  intros Hlen Hin. unfold TrefleClient.canMakeRequest, RateLimiter.canMakeRequest.
  unfold RateLimiter.cleanup. rewrite filter_all.
  - rewrite Hlen. destruct w; reflexivity.
  - intros t Ht. apply Z.gtb_lt. specialize (Hin t Ht). lia.
Qed.

(** C8. With 100 requests recorded, all inside the 60-second window ending
    at [now], [canMakeRequest] returns false, and [request] throws the
    capacity error without any underlying call. At any later time [later]
    the free capacity equals the number of recorded timestamps that have
    left the window (one slot per expired timestamp), so [canMakeRequest]
    returns true exactly when some timestamp has expired, in particular as
    soon as the window has slid past the oldest one. *)
Theorem rate_limiter_sliding_window (times : RateLimiter.t) (now : Z) :
  length times = 100%nat ->
  (forall t, In t times -> t > now - RateLimiter.windowMs) ->
  fst (RateLimiter.canMakeRequest now times) = false
  /\ (forall (T : Type) (script : nat -> Fetched T) (w : TrefleClient.World),
         TrefleClient.requestTimes w = times ->
         TrefleClient.now w = now ->
         TrefleClient.request script w = (Thrown RateLimitExceeded, w))
  /\ forall later : Z,
      RateLimiter.remaining later times
      = Z.of_nat (length (RateLimiter.expired later times))
      /\ (fst (RateLimiter.canMakeRequest later times) = true
          <-> RateLimiter.expired later times <> [])
      /\ (forall oldest, In oldest times ->
                         oldest <= later - RateLimiter.windowMs ->
                         fst (RateLimiter.canMakeRequest later times) = true).
Proof.
  intros Hlen Hin.
  assert (Hfree : forall later,
             RateLimiter.remaining later times
             = Z.of_nat (length (RateLimiter.expired later times))).
  { intros later. unfold RateLimiter.remaining, RateLimiter.maxRequests.
    pose proof (cleanup_expired_length later times). lia. }
  assert (Hcan : forall later,
             fst (RateLimiter.canMakeRequest later times) = true
             <-> RateLimiter.expired later times <> []).
  { intros later. unfold RateLimiter.canMakeRequest. cbn [fst].
    pose proof (cleanup_expired_length later times) as H.
    unfold RateLimiter.maxRequests. rewrite Z.ltb_lt.
    destruct (RateLimiter.expired later times) eqn:E; simpl in H.
    - split; [lia | congruence].
    - split; [discriminate | lia]. }
  split; [|split].
  - unfold RateLimiter.canMakeRequest, RateLimiter.cleanup. cbn [fst].
    rewrite filter_all.
    + now rewrite Hlen.
    + intros t Ht. apply Z.gtb_lt. specialize (Hin t Ht). lia.
  - intros T script w Ht Hn. unfold TrefleClient.request.
    rewrite canMakeRequest_world_full; [reflexivity | congruence |].
    rewrite Ht, Hn. exact Hin.
  - intros later. split; [apply Hfree | split; [apply Hcan|]].
    intros oldest Ho Hexp. apply Hcan.
    assert (In oldest (RateLimiter.expired later times)) as Hm.
    { apply filter_In. split; auto. apply negb_true_iff.
      rewrite Z.gtb_ltb. apply Z.ltb_ge. exact Hexp. }
    intros E. rewrite E in Hm. exact Hm.
Qed.

Lemma rate_limiter_sliding_window_witness :
  let times := map Z.of_nat (seq 1 100) in
  fst (RateLimiter.canMakeRequest 60000 times) = false
  /\ RateLimiter.remaining 60002 times = 2
  /\ fst (RateLimiter.canMakeRequest 60001 times) = true.
Proof.
  intros times.
  assert (Hlen : length times = 100%nat) by reflexivity.
  assert (Hin : forall t, In t times -> t > 60000 - RateLimiter.windowMs).
  { intros t Ht. unfold times in Ht. apply in_map_iff in Ht as [n [<- Hn]].
    apply in_seq in Hn. unfold RateLimiter.windowMs. lia. }
  destruct (rate_limiter_sliding_window times 60000 Hlen Hin) as [H1 [_ H3]].
  split; [exact H1|]. split.
  - rewrite (proj1 (H3 60002)). reflexivity.
  - apply (proj2 (proj2 (H3 60001)) 1).
    + unfold times. apply in_map_iff. exists 1%nat. split; [reflexivity|].
      apply in_seq. lia.
    + unfold RateLimiter.windowMs. lia.
Defined.

(** ** TrefleClient.request *)

Section RequestFacts.
Import TrefleClient.
Context {T : Type}.
Variable script : nat -> Fetched T.

(** An attempt adds one call; the loop makes at most [MAX_RETRIES + 1]. *)
Lemma attempts_calls_bound (fuel : nat) (attempt : Z)
      (lastError : option RequestError) (w : World) :
  0 <= attempt <= MAX_RETRIES + 1 ->
  (calls w <= calls (snd (attempts script fuel attempt lastError w))
   <= calls w + Z.to_nat (MAX_RETRIES + 1 - attempt))%nat.
Proof.
  revert attempt lastError w.
  induction fuel as [|fuel IH]; intros attempt lastError w Ha.
  - simpl. lia.
  - cbn [attempts].
    destruct (attempt <=? MAX_RETRIES) eqn:E; [|simpl; lia].
    apply Z.leb_le in E.
    destruct (fetch script _) as [res w3] eqn:Ef.
    assert (H3 : calls w3 = S (calls w)).
    { unfold fetch in Ef. inversion Ef.
      destruct (attempt >? 0); reflexivity. }
    assert (Hnext : forall le,
               (calls w <= calls (snd (attempts script fuel (attempt + 1) le w3))
                <= calls w + Z.to_nat (MAX_RETRIES + 1 - attempt))%nat).
    { intros le. specialize (IH (attempt + 1) le w3). lia. }
    destruct res as [|status body]; [apply Hnext|].
    repeat match goal with
           | |- context [if ?b then _ else _] => destruct b
           | |- context [match ?b with Some _ => _ | None => _ end] =>
               destruct b
           end;
      try apply Hnext; cbn [snd]; lia.
Qed.

(** The fuel handed to [attempts] by [request] is never used up. *)
Lemma attempts_fuel (fuel fuel' : nat) (attempt : Z)
      (lastError : option RequestError) (w : World) :
  Z.of_nat fuel > Z.max 0 (MAX_RETRIES + 1 - attempt) ->
  Z.of_nat fuel' > Z.max 0 (MAX_RETRIES + 1 - attempt) ->
  attempts script fuel attempt lastError w
  = attempts script fuel' attempt lastError w.
Proof.
  revert fuel' attempt lastError w.
  induction fuel as [|fuel IH]; intros fuel' attempt lastError w Hf Hf';
    [lia|].
  destruct fuel' as [|fuel']; [lia|].
  cbn [attempts]. destruct (attempt <=? MAX_RETRIES) eqn:E; auto.
  apply Z.leb_le in E.
  assert (Hrec : forall le w3,
             attempts script fuel (attempt + 1) le w3
             = attempts script fuel' (attempt + 1) le w3)
    by (intros; apply IH; lia).
  destruct (fetch script _) as [res w3].
  destruct res as [|status body]; [apply Hrec|].
  repeat match goal with
         | |- context [if ?b then _ else _] => destruct b
         | |- context [match ?b with Some _ => _ | None => _ end] =>
             destruct b
         end; auto.
Qed.

(** A 404, 401 or 429 answer ends the loop in the attempt that receives
    it. *)
Lemma attempts_classified (fuel : nat) (lastError : option RequestError)
      (w : World) (status : Z) (body : option T) :
  outcome (script (calls w)) = Responded status body ->
  status = 404 \/ status = 401 \/ status = 429 ->
  let (res, w') := attempts script (S fuel) 0 lastError w in
  res = Thrown (if status =? 404 then TrefleNotFoundError
                else if status =? 401 then TrefleAuthError
                     else TrefleRateLimitError)
  /\ calls w' = S (calls w)
  /\ delays w' = delays w.
Proof.
  intros Hout Hst. cbn [attempts].
  change (0 <=? MAX_RETRIES) with true. change (0 >? 0) with false.
  cbn iota. unfold fetch. cbn [calls recordRequest]. rewrite Hout.
  destruct Hst as [->|[->| ->]]; cbn; auto.
Qed.

(** A 404, 401 or 429 answer to the first call is thrown at once, after
    exactly one underlying call and no delay. *)
Lemma request_classified_first (w : World) (status : Z) (body : option T) :
  fst (canMakeRequest w) = true ->
  outcome (script (calls w)) = Responded status body ->
  status = 404 \/ status = 401 \/ status = 429 ->
  let (res, w') := request script w in
  res = Thrown (if status =? 404 then TrefleNotFoundError
                else if status =? 401 then TrefleAuthError
                     else TrefleRateLimitError)
  /\ calls w' = S (calls w)
  /\ delays w' = delays w.
Proof.
  intros Hcan Hout Hst. unfold request.
  destruct (canMakeRequest w) as [can w0] eqn:Ecan. cbn [fst] in Hcan. subst can.
  assert (Hw0 : calls w0 = calls w /\ delays w0 = delays w).
  { unfold canMakeRequest in Ecan.
    destruct (RateLimiter.canMakeRequest _ _). inversion Ecan. auto. }
  destruct Hw0 as [Hc Hd].
  cbn [negb]. change (Z.to_nat (MAX_RETRIES + 2)) with 4%nat.
  rewrite <- Hc in Hout.
  pose proof (attempts_classified 3 None w0 status body Hout Hst) as H.
  destruct (attempts script 4 0 None w0) as [res w'].
  now rewrite <- Hc, <- Hd.
Qed.

End RequestFacts.

(** C1 at the failing input: the first answer is [400 Bad Request], the
    second [200 OK]. The [throw new Error("API error: ...")] for the 400 is
    raised inside the [try] and caught by the [catch] of the same attempt,
    which only rethrows the three classified errors; the loop therefore
    waits 1000 ms and calls again, and [request] returns the second answer
    after 2 underlying calls. With three 400 answers it makes all 3 calls. *)
Theorem request_retries_client_error :
  let w0 := TrefleClient.mkWorld 0 RateLimiter.new 0 [] in
  let bad := mkFetched 50 (Responded 400 (@None Z)) in
  let good := mkFetched 50 (Responded 200 (Some 7)) in
  (let (res, w) :=
     TrefleClient.request (fun n => nth n [bad; good] good) w0 in
   res = Returned 7
   /\ TrefleClient.calls w = 2%nat
   /\ TrefleClient.delays w = [1000])
  /\ (let (res, w) := TrefleClient.request (fun _ => bad) w0 in
      res = Thrown (ApiError 400)
      /\ TrefleClient.calls w = 3%nat
      /\ TrefleClient.delays w = [1000; 2000]).
Proof. vm_compute. repeat split. Qed.

(** Two 500 answers followed by a 200: success after exactly 3 underlying
    calls, the retries delayed by 1 and 2 times [RETRY_DELAY_MS]. *)
Example request_two_500_then_200 :
  let w0 := TrefleClient.mkWorld 0 RateLimiter.new 0 [] in
  let busy := mkFetched 50 (Responded 500 (@None Z)) in
  let good := mkFetched 50 (Responded 200 (Some 7)) in
  let (res, w) :=
    TrefleClient.request (fun n => nth n [busy; busy; good] good) w0 in
  res = Returned 7
  /\ TrefleClient.calls w = 3%nat
  /\ TrefleClient.delays w = [RETRY_DELAY_MS * 1; RETRY_DELAY_MS * 2].
Proof. vm_compute. repeat split. Qed.

(** A 404 on the first call: exactly 1 call and the not-found error. *)
Example request_404_first :
  let w0 := TrefleClient.mkWorld 0 RateLimiter.new 0 [] in
  let missing := mkFetched 50 (Responded 404 (@None Z)) in
  let (res, w) := TrefleClient.request (fun _ => missing) w0 in
  res = Thrown TrefleNotFoundError
  /\ TrefleClient.calls w = 1%nat
  /\ TrefleClient.delays w = [].
Proof. vm_compute. repeat split. Qed.

(** ** TrefleClient.searchPlants *)


Lemma slice_0_length {A} (limit : Z) (l : list A) :
  0 <= limit ->
  Z.of_nat (length (JsString.slice 0 limit l))
  = Z.min limit (Z.of_nat (length l)).
Proof.
  intros H. unfold JsString.slice, JsString.clamp_index.
  change (0 <? 0) with false. cbn iota.
  destruct (limit <? 0) eqn:E; [apply Z.ltb_lt in E; lia|].
  rewrite length_firstn, length_skipn. lia.
Qed.

Lemma get_live {T} (c : TrefleCache.t T) (k : string) (e : CacheEntry T)
      (now : Z) :
  JsMap.get (TrefleCache.cache c) k = Some e ->
  now - timestamp e <= TrefleCache.ttlMs c ->
  TrefleCache.get now c k = (Some (data e), c).
Proof.
  intros Hget Hlive. unfold TrefleCache.get. rewrite Hget.
  destruct (now - timestamp e >? TrefleCache.ttlMs c) eqn:E; auto.
  apply Z.gtb_lt in E. lia.
Qed.



(** ** Mention extractor: deduplication and ordering *)

Section ExtractorOrder.
Import Extractor.

Lemma has_true (set : list string) (x : string) :
  has set x = true <-> In x set.
Proof.
  unfold has. rewrite existsb_exists. split.
  - intros [y [Hy E]]. apply String.eqb_eq in E. now subst.
  - intros H. exists x. split; auto. apply String.eqb_refl.
Qed.

Lemma has_false (set : list string) (x : string) :
  has set x = false <-> ~ In x set.
Proof.
  rewrite <- has_true. destruct (has set x); split; intros; congruence.
Qed.

Lemma nodup_snoc {A} (l : list A) (x : A) :
  NoDup l -> ~ In x l -> NoDup (l ++ [x]).
Proof.
  intros Hl Hx. apply NoDup_rev in Hl. rewrite <- (rev_involutive (_ ++ _)).
  apply NoDup_rev. rewrite rev_app_distr. simpl. constructor; auto.
  now rewrite <- in_rev.
Qed.

Lemma pushNew_inv (matches : list PlantMention) acc :
  push_inv acc -> push_inv (pushNew acc matches).
Proof.
  revert acc. unfold pushNew.
  induction matches as [|m ms IH]; intros acc Hacc; simpl; auto.
  apply IH. destruct (has (snd acc) (normalizedName m)) eqn:E; auto.
  destruct Hacc as [Hs Hn]. split; cbn [fst snd].
  - rewrite map_app, Hs. reflexivity.
  - apply nodup_snoc; auto. now apply has_false.
Qed.

(** Mentions already pushed stay, in place. *)
Lemma pushNew_keeps (matches : list PlantMention) acc m :
  In m (fst acc) -> In m (fst (pushNew acc matches)).
Proof.
  revert acc. unfold pushNew.
  induction matches as [|x ms IH]; intros acc H; simpl; auto.
  apply IH. destruct (has (snd acc) (normalizedName x)); auto.
  cbn [fst]. apply in_or_app. now left.
Qed.

(** Every pushed mention comes from the accumulator or from the matches. *)
Lemma pushNew_from (matches : list PlantMention) acc m :
  In m (fst (pushNew acc matches)) -> In m (fst acc) \/ In m matches.
Proof.
  revert acc. unfold pushNew.
  induction matches as [|x ms IH]; intros acc H; simpl in *; auto.
  apply IH in H. destruct H as [H|H]; auto.
  destruct (has (snd acc) (normalizedName x)); auto.
  cbn [fst] in H. apply in_app_or in H as [H|[<-|[]]]; auto.
Qed.

(** Every match is represented afterwards by a mention with its name. *)
Lemma pushNew_covers (matches : list PlantMention) acc m :
  push_inv acc -> In m matches ->
  exists m', In m' (fst (pushNew acc matches))
             /\ normalizedName m' = normalizedName m.
Proof.
  revert acc.
  induction matches as [|x ms IH]; intros acc Hacc Hin; [destruct Hin|].
  assert (Hstep : push_inv (pushNew acc [x])) by now apply pushNew_inv.
  change (pushNew acc (x :: ms)) with (pushNew (pushNew acc [x]) ms).
  destruct Hin as [->|Hin]; [|now apply IH].
  assert (exists m', In m' (fst (pushNew acc [m]))
                     /\ normalizedName m' = normalizedName m) as [m' [H1 H2]].
  { unfold pushNew. simpl.
    destruct (has (snd acc) (normalizedName m)) eqn:E.
    - apply has_true in E. destruct Hacc as [Hs _]. rewrite Hs in E.
      apply in_map_iff in E as [m' [E Hm']]. eauto.
    - exists m. split; auto. cbn [fst]. apply in_or_app. right. now left. }
  exists m'. split; auto. now apply pushNew_keeps.
Qed.

Lemma insert_by_confidence_perm x l :
  Permutation (insert_by_confidence x l) (x :: l).
Proof.
  induction l as [|y l IH]; simpl; auto.
  destruct (_ <=? 0); auto. rewrite IH. apply perm_swap.
Qed.

Lemma sort_by_confidence_perm l : Permutation (sort_by_confidence l) l.
Proof.
  induction l as [|x l IH]; simpl; auto.
  rewrite insert_by_confidence_perm. now constructor.
Qed.

Lemma insert_by_confidence_sorted x l :
  StronglySorted by_rank l -> StronglySorted by_rank (insert_by_confidence x l).
Proof.
  induction 1 as [|y l Hs IH Hall]; simpl.
  - repeat constructor.
  - destruct (_ <=? 0) eqn:E.
    + apply Z.leb_le in E. constructor; [now constructor|].
      constructor; [unfold by_rank; lia|].
      eapply Forall_impl; [|exact Hall]. unfold by_rank. intros; lia.
    + apply Z.leb_gt in E. constructor; auto.
      eapply Permutation_Forall.
      * symmetry. apply insert_by_confidence_perm.
      * constructor; auto. unfold by_rank. lia.
Qed.

Lemma sort_by_confidence_sorted l : StronglySorted by_rank (sort_by_confidence l).
Proof.
  induction l as [|x l IH]; simpl; [constructor|].
  now apply insert_by_confidence_sorted.
Qed.

Lemma push_inv_nil : push_inv ([], []).
Proof. split; [reflexivity | constructor]. Qed.

Lemma extract_pushed registry text :
  extractPlantMentions registry text
  = sort_by_confidence (fst (pushed registry text)).
Proof. reflexivity. Qed.

Lemma pushed_inv registry text : push_inv (pushed registry text).
Proof. unfold pushed. auto using pushNew_inv, push_inv_nil. Qed.

End ExtractorOrder.

(** C4. For every text (and every state of the conversation registry), the
    list returned by [extractPlantMentions] holds no two mentions with the
    same [normalizedName], and it is sorted by non-decreasing confidence
    rank: every mention is followed only by mentions of equal or lower
    confidence. *)
Theorem extractPlantMentions_unique_sorted
        (registry : ConversationPlantRegistry.t) (text : string) :
  NoDup (map normalizedName (Extractor.extractPlantMentions registry text))
  /\ StronglySorted by_rank (Extractor.extractPlantMentions registry text).
Proof.
  rewrite extract_pushed. split.
  - destruct (pushed_inv registry text) as [Hs Hn].
    eapply Permutation_NoDup; [|rewrite Hs in Hn; exact Hn].
    apply Permutation_map. symmetry. apply sort_by_confidence_perm.
  - apply sort_by_confidence_sorted.
Qed.

(** ** Regular expressions: whole-word search for a literal *)

Section WordSearch.
Import Regex.

Lemma search_unfold (ic : bool) (r : re) (p : option ascii) (s : string) :
  search ic r p s
  = match run ic r (mkM p s []) (fun st => Some st) with
    | Some st => Some (mkFound s st)
    | None =>
        match s with
        | EmptyString => None
        | String c s' => search ic r (Some c) s'
        end
    end.
Proof. destruct s; reflexivity. Qed.

Lemma char_eq_flag_refl (ic : bool) (c : ascii) : char_eq_flag ic c c = true.
Proof. destruct ic; apply Ascii.eqb_refl. Qed.

(** A literal matches itself and moves past it. *)
Lemma run_lit (ic : bool) (s post : string) (p : option ascii)
      (cs : list (nat * string)) (k : mstate -> option mstate) :
  run ic (lit s) (mkM p (s ++ post) cs) k = k (mkM (last_or p s) post cs).
Proof.
  revert p. induction s as [|c s IH]; intros p; simpl; auto.
  unfold one. simpl. rewrite char_eq_flag_refl. apply IH.
Qed.

Lemma run_word_here (ic : bool) (name post : string) (p : option ascii) :
  boundary p (next (name ++ post)) ->
  boundary (last_or p name) (next post) ->
  run ic (Seq WordB (Seq (lit name) WordB)) (mkM p (name ++ post) [])
      (fun st => Some st)
  = Some (mkM (last_or p name) post []).
Proof.
  unfold boundary. intros H1 H2. cbn [run prev rest]. rewrite H1.
  rewrite run_lit. cbn [run prev rest]. now rewrite H2.
Qed.

(** The leftmost-match search finds a match whenever the word occurs. *)
Lemma search_word_finds (ic : bool) (name post pre : string) (p : option ascii) :
  boundary (last_or p pre) (next (name ++ post)) ->
  boundary (last_or (last_or p pre) name) (next post) ->
  exists f, search ic (Seq WordB (Seq (lit name) WordB)) p
                   (pre ++ name ++ post) = Some f.
Proof.
  revert p. induction pre as [|c pre IH]; intros p H1 H2; rewrite search_unfold.
  - cbn [last_or] in H1, H2. change ("" ++ name ++ post)%string
      with (name ++ post)%string.
    rewrite run_word_here by assumption. eauto.
  - destruct (run _ _ _ _); [eauto|].
    change (String c pre ++ name ++ post)%string
      with (String c (pre ++ name ++ post)).
    cbv iota. apply IH; assumption.
Qed.

End WordSearch.

(** ** Mention extractor: the exact-vocabulary pass *)

Section ExactPass.
Import Extractor.

Lemma insert_by_length_perm x l : Permutation (insert_by_length x l) (x :: l).
Proof.
  induction l as [|y l IH]; simpl; auto.
  destruct (Nat.leb _ _); auto. rewrite IH. apply perm_swap.
Qed.

Lemma sortedNames_perm : Permutation sortedNames COMMON_PLANT_NAMES.
Proof.
  unfold sortedNames. induction COMMON_PLANT_NAMES as [|x l IH]; simpl; auto.
  rewrite insert_by_length_perm. now constructor.
Qed.

Lemma common_names_lowercase name :
  In name COMMON_PLANT_NAMES -> JsString.toLowerCase name = name.
Proof.
  assert (H : forallb (fun n => String.eqb (JsString.toLowerCase n) n)
                      COMMON_PLANT_NAMES = true) by (vm_compute; reflexivity).
  rewrite forallb_forall in H. intros Hin. apply String.eqb_eq. now apply H.
Qed.

Lemma findExactMatches_finds (text name : string) :
  In name COMMON_PLANT_NAMES ->
  standalone name (JsString.toLowerCase text) ->
  exists original,
    In (mkMention original name high common_name) (findExactMatches text).
Proof.
  intros Hin (pre & post & Htext & H1 & H2).
  destruct (search_word_finds true name post pre None H1 H2) as [f Hf].
  exists (Regex.matched f). unfold findExactMatches.
  apply in_flat_map. exists name. split.
  - apply (Permutation_in _ (Permutation_sym sortedNames_perm)). exact Hin.
  - unfold Regex.exec, wordRegex, escaped. cbn [Regex.seqs].
    rewrite Htext, Hf, common_names_lowercase by exact Hin. now left.
Qed.

Lemma findExactMatches_high (text : string) (m : PlantMention) :
  In m (findExactMatches text) -> confidence m = high.
Proof.
  unfold findExactMatches. intros H. apply in_flat_map in H as [name [_ H]].
  destruct (Regex.exec _ _ _); [|destruct H].
  destruct H as [<-|[]]. reflexivity.
Qed.

(** A registry match is high unless it is a genus match. *)
Lemma findRegistryMatches_confidence registry text m :
  In m (findRegistryMatches registry text) ->
  confidence m = high
  \/ exists plant, In plant (ConversationPlantRegistry.getAllPlants registry)
                   /\ normalizedName m = JsString.toLowerCase (genus plant).
Proof.
  unfold findRegistryMatches. intros H.
  apply in_flat_map in H as [plant [Hp H]]. unfold registryMatchesOf in H.
  apply in_app_or in H as [H|H]; [|apply in_app_or in H as [H|H]].
  - destruct (commonName plant); [|destruct H].
    destruct (_ && _)%bool; [|destruct H]. destruct H as [<-|[]]. now left.
  - destruct (JsString.includes _ _); [|destruct H].
    destruct H as [<-|[]]. now left.
  - cbv zeta in H. destruct (_ && _)%bool; [|destruct H].
    destruct H as [<-|[]]. right. eauto.
Qed.

End ExactPass.

(** C5 (as amended). For every text in which a static-vocabulary plant name
    occurs as a standalone word (case-insensitively), [extractPlantMentions]
    returns a mention whose [normalizedName] is that name; its confidence is
    [high] whenever no plant of the conversation registry has that name as
    its lower-cased genus. *)
Theorem vocabulary_name_is_mentioned
        (registry : ConversationPlantRegistry.t) (text name : string) :
  In name Extractor.COMMON_PLANT_NAMES ->
  standalone name (JsString.toLowerCase text) ->
  exists m : PlantMention,
    In m (Extractor.extractPlantMentions registry text)
    /\ normalizedName m = name
    /\ ((forall plant,
            In plant (ConversationPlantRegistry.getAllPlants registry) ->
            JsString.toLowerCase (genus plant) <> name) ->
        confidence m = high).
Proof.
  intros Hin Hst.
  destruct (findExactMatches_finds text name Hin Hst) as [original Hex].
  set (acc0 := Extractor.pushNew ([], [])
                 (Extractor.findRegistryMatches registry text)).
  assert (Hinv0 : push_inv acc0) by (apply pushNew_inv, push_inv_nil).
  destruct (pushNew_covers (Extractor.findExactMatches text) acc0 _ Hinv0 Hex)
    as [m [Hm Hname]].
  cbn [normalizedName] in Hname.
  exists m. split; [|split; [exact Hname|]].
  - rewrite extract_pushed.
    apply (Permutation_in _ (Permutation_sym (sort_by_confidence_perm _))).
    unfold pushed. fold acc0. now apply pushNew_keeps.
  - intros Hgenus. apply pushNew_from in Hm as [Hm|Hm].
    + unfold acc0 in Hm. apply pushNew_from in Hm as [[]|Hm].
      apply findRegistryMatches_confidence in Hm as [Hm|[plant [Hp Hg]]]; auto.
      exfalso. apply (Hgenus plant Hp). congruence.
    + eapply findExactMatches_high. exact Hm.
Qed.

Lemma vocabulary_name_is_mentioned_witness :
  exists m : PlantMention,
    In m (Extractor.extractPlantMentions ConversationPlantRegistry.new
                                         "My Tomato plant has yellow leaves")
    /\ normalizedName m = "tomato"
    /\ confidence m = high.
Proof.
  destruct (vocabulary_name_is_mentioned
              ConversationPlantRegistry.new
              "My Tomato plant has yellow leaves" "tomato") as [m [H1 [H2 H3]]].
  - apply has_true. vm_compute. reflexivity.
  - exists "my ", " plant has yellow leaves". repeat split.
  - exists m. split; [exact H1 | split; [exact H2|]].
    apply H3. intros plant [].
Defined.

(** C5 (as stated) fails once a species of a genus named in the vocabulary
    has been resolved: the registry pass reports the genus with confidence
    [medium] first, and the [high] vocabulary match for the same name is
    dropped as a duplicate. *)
Lemma vocabulary_name_medium_after_genus :
  let registry := TrefleClient.registerProfile Samples.monstera
                                               ConversationPlantRegistry.new in
  let text := "my monstera is dying" in
  In "monstera" Extractor.COMMON_PLANT_NAMES
  /\ standalone "monstera" (JsString.toLowerCase text)
  /\ Extractor.extractPlantMentions registry text
     = [mkMention "Monstera" "monstera" medium exact_match]
  /\ ~ exists m : PlantMention,
         In m (Extractor.extractPlantMentions registry text)
         /\ normalizedName m = "monstera" /\ confidence m = high.
Proof.
  intros registry text.
  assert (E : Extractor.extractPlantMentions registry text
              = [mkMention "Monstera" "monstera" medium exact_match])
    by (vm_compute; reflexivity).
  split; [apply has_true; vm_compute; reflexivity|]. split.
  - exists "my ", " is dying". repeat split.
  - split; [exact E|]. rewrite E. intros [m [[<-|[]] [_ H]]]. discriminate.
Qed.

(** ** Mention extractor: the form of [normalizedName] *)

Section NameForm.
Import Extractor.

Lemma toLowerChar_idem (c : ascii) :
  JsString.toLowerChar (JsString.toLowerChar c) = JsString.toLowerChar c.
Proof.
  destruct c as [b0 b1 b2 b3 b4 b5 b6 b7].
  destruct b0, b1, b2, b3, b4, b5, b6, b7; reflexivity.
Qed.

Lemma toLowerCase_idem (s : string) : is_lowercase (JsString.toLowerCase s).
Proof.
  unfold is_lowercase. induction s as [|c s IH]; simpl; auto.
  now rewrite toLowerChar_idem, IH.
Qed.

Lemma findRegistryMatches_lowercase registry text m :
  In m (findRegistryMatches registry text) -> is_lowercase (normalizedName m).
Proof.
  unfold findRegistryMatches. intros H.
  apply in_flat_map in H as [plant [_ H]]. unfold registryMatchesOf in H.
  apply in_app_or in H as [H|H]; [|apply in_app_or in H as [H|H]].
  - destruct (commonName plant); [|destruct H].
    destruct (_ && _)%bool; [|destruct H].
    destruct H as [<-|[]]. apply toLowerCase_idem.
  - destruct (JsString.includes _ _); [|destruct H].
    destruct H as [<-|[]]. apply toLowerCase_idem.
  - cbv zeta in H. destruct (_ && _)%bool; [|destruct H].
    destruct H as [<-|[]]. apply toLowerCase_idem.
Qed.

Lemma findExactMatches_lowercase text m :
  In m (findExactMatches text) -> is_lowercase (normalizedName m).
Proof.
  unfold findExactMatches. intros H. apply in_flat_map in H as [name [_ H]].
  destruct (Regex.exec _ _ _); [|destruct H].
  destruct H as [<-|[]]. apply toLowerCase_idem.
Qed.

Lemma patternStep_lowercase text acc f :
  Forall (fun m => is_lowercase (normalizedName m)) (fst acc) ->
  Forall (fun m => is_lowercase (normalizedName m))
         (fst (patternStep text acc f)).
Proof.
  intros H. unfold patternStep. destruct acc as [matches processed].
  cbn [fst] in H.
  repeat match goal with
         | |- context [match ?b with Some _ => _ | None => _ end] => destruct b
         | |- context [if ?b then _ else _] => destruct b
         end; cbn [fst]; auto.
  apply Forall_app. split; auto. constructor; auto. apply toLowerCase_idem.
Qed.

Lemma findPatternMatches_lowercase text m :
  In m (findPatternMatches text) -> is_lowercase (normalizedName m).
Proof.
  assert (Hinner : forall fs acc,
             Forall (fun m => is_lowercase (normalizedName m)) (fst acc) ->
             Forall (fun m => is_lowercase (normalizedName m))
                    (fst (fold_left (patternStep text) fs acc))).
  { induction fs as [|f fs IH]; intros acc Hacc; simpl; auto.
    apply IH. now apply patternStep_lowercase. }
  assert (Houter : forall ps acc,
             Forall (fun m => is_lowercase (normalizedName m)) (fst acc) ->
             Forall (fun m => is_lowercase (normalizedName m))
                    (fst (fold_left
                            (fun acc p =>
                               fold_left (patternStep text)
                                         (Regex.exec_all
                                            (S (String.length text))
                                            (fst p) (snd p) None text)
                                         acc)
                            ps acc))).
  { induction ps as [|p ps IH]; intros acc Hacc; simpl; auto. }
  intros H. unfold findPatternMatches in H.
  specialize (Houter PLANT_PATTERNS ([], []) (Forall_nil _)).
  rewrite Forall_forall in Houter. auto.
Qed.

(** Every mention's [normalizedName] is lower-case. *)
Lemma mentions_lowercase registry text m :
  In m (extractPlantMentions registry text) -> is_lowercase (normalizedName m).
Proof.
  rewrite extract_pushed. intros H.
  apply (Permutation_in _ (sort_by_confidence_perm _)) in H.
  unfold pushed in H.
  apply pushNew_from in H as [H|H]; [|eauto using findPatternMatches_lowercase].
  apply pushNew_from in H as [H|H]; [|eauto using findExactMatches_lowercase].
  apply pushNew_from in H as [[]|H]. eauto using findRegistryMatches_lowercase.
Qed.

End NameForm.

(** C9 at the failing input: the text ["Aloe  vera plant"], with two spaces
    inside the name. The pattern pass captures ["Aloe  vera"], trims and
    lower-cases it, and reports it with the run of two spaces still inside;
    [normalizePlantName], which would collapse the run, is never applied. *)
Theorem normalizedName_keeps_whitespace_run :
  Extractor.extractPlantMentions ConversationPlantRegistry.new
                                 "Aloe  vera plant"
  = [mkMention "aloe" "aloe" high common_name;
     mkMention "Aloe  vera" "aloe  vera" medium pattern]
  /\ ~ is_collapsed "aloe  vera"
  /\ Extractor.normalizePlantName "Aloe  vera" = "aloe vera".
Proof.
  split; [vm_compute; reflexivity|].
  split; [|reflexivity]. unfold is_collapsed. vm_compute. discriminate.
Qed.

(** The registry pass only lower-cases: a common name that arrives with a
    trailing space is reported untrimmed. *)
Example normalizedName_untrimmed_from_registry :
  let rose := mkPlant 3 "rosa-canina" "Rosa canina" (Some "Dog rose ")
                      "Rosaceae" "Rosa" in
  let registry := TrefleClient.registerProfile rose
                                               ConversationPlantRegistry.new in
  In (mkMention "Dog rose " "dog rose " high exact_match)
     (Extractor.extractPlantMentions registry "my dog rose is wilting")
  /\ ~ is_trimmed "dog rose ".
Proof.
  split.
  - vm_compute. tauto.
  - unfold is_trimmed. vm_compute. discriminate.
Qed.

(** ** ConversationPlantRegistry with non-empty keys

    As long as no key normalizes to the empty string, the registry behaves
    as a FIFO of at most 20 keys. *)

Section RegistryFifo.
Import ConversationPlantRegistry.

Lemma truthy_nonempty (s : string) : s <> "" -> JsString.truthy s = true.
Proof. destruct s; [congruence | reflexivity]. Qed.

Lemma filter_head_out (k : string) (ks : list string) :
  ~ In k ks -> filter (fun k' => negb (String.eqb k' k)) ks = ks.
Proof.
  intros H. apply filter_all. intros x Hx.
  apply negb_true_iff, String.eqb_neq. congruence.
Qed.

(** Inserting a new key into a full registry drops exactly the oldest key. *)
Lemma addPlant_full_fifo (key : string) (p : ProcessedPlantData)
      (r : ConversationPlantRegistry.t) :
  fifo_inv r ->
  length (mentionOrder r) = 20%nat ->
  normKey key <> "" ->
  ~ In (normKey key) (mentionOrder r) ->
  exists oldest rest,
    mentionOrder r = oldest :: rest
    /\ mentionOrder (addPlant key p r) = rest ++ [normKey key]
    /\ JsMap.keys (plants (addPlant key p r)) = rest ++ [normKey key]
    /\ JsMap.get (plants (addPlant key p r)) (normKey key) = Some p
    /\ JsMap.get (plants (addPlant key p r)) oldest = None
    /\ forall k, k <> oldest -> k <> normKey key ->
                 JsMap.get (plants (addPlant key p r)) k
                 = JsMap.get (plants r) k.
Proof.
  intros (Hk & Hnd & Hlen & He) Hfull Hne Hnew.
  destruct (mentionOrder r) as [|oldest rest] eqn:Emo; [discriminate|].
  exists oldest, rest. split; [reflexivity|].
  assert (Hhas : JsMap.has (plants r) (normKey key) = false)
    by (apply jsmap_has_false; now rewrite Hk).
  assert (Ho : oldest <> "") by (intros ->; apply He; now left).
  inversion Hnd as [|? ? Hno Hnd']; subst.
  assert (Hadd : addPlant key p r
                 = mk (JsMap.set (JsMap.delete (plants r) oldest)
                                 (normKey key) p)
                      (rest ++ [normKey key])).
  { unfold addPlant. fold (normKey key). rewrite Hhas. cbn [negb].
    rewrite Emo, Hfull. change (Z.of_nat 20 >=? maxPlants) with true.
    cbv iota. unfold shiftOldest. rewrite Emo, truthy_nonempty by exact Ho.
    reflexivity. }
  assert (Hkd : JsMap.keys (JsMap.delete (plants r) oldest) = rest).
  { rewrite jsmap_keys_delete, Hk. simpl. rewrite String.eqb_refl. simpl.
    now apply filter_head_out. }
  assert (Hnk : ~ In (normKey key) rest) by (intros H; apply Hnew; now right).
  assert (Hok : oldest <> normKey key) by (intros ->; apply Hnew; now left).
  rewrite Hadd. cbn [plants mentionOrder].
  split; [reflexivity|]. split.
  { rewrite jsmap_keys_set_absent; rewrite Hkd; auto. }
  split; [apply jsmap_get_set_same|]. split.
  { rewrite jsmap_get_set_other by congruence. apply jsmap_get_delete_same. }
  intros k Hk1 Hk2.
  rewrite jsmap_get_set_other by congruence.
  now rewrite jsmap_get_delete_other by congruence.
Qed.

Lemma addPlant_fifo_inv (key : string) (p : ProcessedPlantData)
      (r : ConversationPlantRegistry.t) :
  normKey key <> "" -> fifo_inv r -> fifo_inv (addPlant key p r).
Proof.
  intros Hne Hinv.
  destruct (JsMap.has (plants r) (normKey key)) eqn:Hhas.
  - destruct Hinv as (Hk & Hnd & Hlen & He).
    unfold addPlant. fold (normKey key). rewrite Hhas. cbn [negb].
    repeat split; cbn [plants mentionOrder]; auto.
    rewrite jsmap_keys_set, Hhas. exact Hk.
  - assert (Hnew : ~ In (normKey key) (mentionOrder r)).
    { destruct Hinv as (Hk & _). rewrite <- Hk. now apply jsmap_has_false. }
    destruct (Nat.eq_dec (length (mentionOrder r)) 20) as [Hfull|Hroom].
    + destruct (addPlant_full_fifo key p r Hinv Hfull Hne Hnew)
        as (oldest & rest & Emo & Hmo & Hkeys & _).
      destruct Hinv as (Hk & Hnd & Hlen & He). rewrite Emo in *.
      inversion Hnd as [|? ? Hno Hnd']; subst.
      repeat split.
      * now rewrite Hkeys, Hmo.
      * rewrite Hmo. apply nodup_snoc; auto. intros H; apply Hnew; now right.
      * rewrite Hmo, length_app. simpl in *. lia.
      * rewrite Hmo. intros H. apply in_app_or in H as [H|[H|[]]].
        -- apply He. now right.
        -- congruence.
    + destruct Hinv as (Hk & Hnd & Hlen & He).
      rewrite addPlant_fresh by (rewrite ?Hk; auto; lia).
      repeat split; cbn [plants mentionOrder].
      * unfold JsMap.keys in *. rewrite map_app, Hk. reflexivity.
      * now apply nodup_snoc.
      * rewrite length_app. simpl. lia.
      * intros H. apply in_app_or in H as [H|[H|[]]]; auto.
Qed.

(** With non-empty keys the registry never holds more than 20 keys. *)
Lemma registry_bound_nonempty_keys (ops : list (string * ProcessedPlantData)) :
  Forall (fun kp => normKey (fst kp) <> "") ops ->
  fifo_inv (addAll ops new) /\ size (addAll ops new) <= 20.
Proof.
  assert (H : forall r, fifo_inv r ->
                        Forall (fun kp => normKey (fst kp) <> "") ops ->
                        fifo_inv (addAll ops r)).
  { unfold addAll. induction ops as [|[k p] ops IH]; intros r Hr Hall; simpl; auto.
    inversion Hall; subst. apply IH; auto. now apply addPlant_fifo_inv. }
  intros Hall.
  assert (Hinv : fifo_inv (addAll ops new)).
  { apply H; auto. unfold fifo_inv. simpl.
    repeat split; [constructor | lia | tauto]. }
  split; auto. destruct Hinv as (Hk & _ & Hlen & _).
  unfold size, JsMap.size. rewrite <- Hk in Hlen.
  unfold JsMap.keys in Hlen. rewrite length_map in Hlen. lia.
Qed.

End RegistryFifo.

(** ** TrefleClient.request: which answers are retried *)

Section RetriedAnswers.
Import TrefleClient.
Context {T : Type}.
Variable script : nat -> Fetched T.

(** Any answer that is neither a success nor 404, 401 or 429 sends the loop
    into its next attempt: a 5xx through [continue], every other status
    through the [throw] that the attempt's own [catch] swallows. *)
Lemma attempts_other_status_retried (fuel : nat) (attempt : Z)
      (lastError : option RequestError) (w : World) (status : Z)
      (body : option T) :
  attempt <= MAX_RETRIES ->
  let w2 := recordRequest (if attempt >? 0
                           then delay (RETRY_DELAY_MS * attempt) w else w) in
  outcome (script (calls w2)) = Responded status body ->
  ok status = false ->
  status <> 404 -> status <> 401 -> status <> 429 ->
  attempts script (S fuel) attempt lastError w
  = attempts script fuel (attempt + 1)
             (Some (if status >=? 500 then ServerError status
                    else ApiError status))
             (snd (fetch script w2)).
Proof.
  intros Ha w2 Hout Hok H404 H401 H429. cbn [attempts].
  apply Z.leb_le in Ha. rewrite Ha. fold w2.
  unfold fetch. rewrite Hout, Hok. cbn [snd].
  apply Z.eqb_neq in H404, H401, H429. rewrite H404, H401, H429.
  now destruct (status >=? 500).
Qed.

End RetriedAnswers.

(** ** Case folding *)

Section CaseFolding.

Lemma all_chars_complete (c : ascii) : In c all_chars.
Proof.
  unfold all_chars. apply in_map_iff. exists (nat_of_ascii c). split.
  - apply ascii_nat_embedding.
  - apply in_seq. pose proof (nat_ascii_bounded c). lia.
Qed.

(** The characters with the canonical form of [c] are [c], its capital and
    its small letter: the three candidates [class_mem_flag] tries. *)
Lemma canonical_class (a c : ascii) :
  JsString.canonicalize a = JsString.canonicalize c
  <-> a = c \/ a = JsString.canonicalize c \/ a = JsString.toLowerChar c.
Proof.
  assert (H : forallb
                (fun a =>
                   forallb
                     (fun c =>
                        Bool.eqb
                          (Ascii.eqb (JsString.canonicalize a)
                                     (JsString.canonicalize c))
                          (Ascii.eqb a c
                           || Ascii.eqb a (JsString.canonicalize c)
                           || Ascii.eqb a (JsString.toLowerChar c))%bool)
                     all_chars)
                all_chars = true) by (vm_compute; reflexivity).
  rewrite forallb_forall in H. specialize (H a (all_chars_complete a)).
  rewrite forallb_forall in H. specialize (H c (all_chars_complete c)).
  apply Bool.eqb_prop in H.
  rewrite <- Ascii.eqb_eq, H, !orb_true_iff, !Ascii.eqb_eq. tauto.
Qed.

(** With the [i] flag a class accepts [c] exactly when it holds a character
    of the same canonical form. *)
Lemma class_mem_flag_canonical (items : list Regex.item) (c : ascii) :
  Regex.class_mem_flag true items c = true
  <-> exists a, Regex.class_mem items a = true
                /\ JsString.canonicalize a = JsString.canonicalize c.
Proof.
  unfold Regex.class_mem_flag. rewrite !orb_true_iff. split.
  - intros [[H|H]|H]; eexists; (split; [exact H|]); apply canonical_class; auto.
  - intros [a [Ha E]]. apply canonical_class in E as [->|[->| ->]]; auto.
Qed.

Lemma isWordChar_lower (c : ascii) :
  JsString.isWordChar (JsString.toLowerChar c) = JsString.isWordChar c.
Proof.
  destruct c as [b0 b1 b2 b3 b4 b5 b6 b7].
  destruct b0, b1, b2, b3, b4, b5, b6, b7; reflexivity.
Qed.

Lemma toLowerCase_app (s1 s2 : string) :
  JsString.toLowerCase (s1 ++ s2)
  = (JsString.toLowerCase s1 ++ JsString.toLowerCase s2)%string.
Proof. induction s1 as [|c s1 IH]; simpl; congruence. Qed.

Lemma is_word_next_lower (s : string) :
  Regex.is_word (Regex.next (JsString.toLowerCase s))
  = Regex.is_word (Regex.next s).
Proof. destruct s; simpl; auto using isWordChar_lower. Qed.

Lemma is_word_last_lower (p q : option ascii) (s : string) :
  Regex.is_word p = Regex.is_word q ->
  Regex.is_word (last_or p (JsString.toLowerCase s))
  = Regex.is_word (last_or q s).
Proof.
  revert p q. induction s as [|c s IH]; intros p q Hpq; simpl; auto.
  apply IH. simpl. apply isWordChar_lower.
Qed.

(** A case-sensitive standalone occurrence of a vocabulary name in the text
    is one in the lower-cased text. *)
Lemma standalone_lower (name text : string) :
  In name Extractor.COMMON_PLANT_NAMES ->
  standalone name text -> standalone name (JsString.toLowerCase text).
Proof.
  intros Hin (pre & post & -> & H1 & H2).
  pose proof (common_names_lowercase name Hin) as Hname.
  pose proof (is_word_last_lower None None pre eq_refl) as Hpre.
  exists (JsString.toLowerCase pre), (JsString.toLowerCase post).
  unfold boundary in *. split; [|split].
  - now rewrite !toLowerCase_app, Hname.
  - rewrite Hpre. rewrite <- Hname. rewrite <- toLowerCase_app.
    rewrite is_word_next_lower. exact H1.
  - rewrite is_word_next_lower. rewrite <- Hname.
    rewrite (is_word_last_lower _ (last_or None pre) name Hpre).
    exact H2.
Qed.

End CaseFolding.

(** ** Regular expressions: the matcher never runs out of fuel *)

Section IterateFacts.
Import Regex.

Variable step : mstate -> (mstate -> option mstate) -> option mstate.
Variables (greedy : bool) (lo : nat) (hi : option nat).

(** [step] only calls its continuation on states that are not further from
    the end of the input than the state it starts in. *)
Hypothesis step_ext :
  forall st k1 k2,
    (forall st1, (String.length (rest st1) <= String.length (rest st))%nat ->
                 k1 st1 = k2 st1) ->
    step st k1 = step st k2.

Lemma iterate_ext (fuel i : nat) (st : mstate) (k1 k2 : mstate -> option mstate) :
  (forall st1, (String.length (rest st1) <= String.length (rest st))%nat ->
               k1 st1 = k2 st1) ->
  iterate step greedy lo hi k1 fuel i st
  = iterate step greedy lo hi k2 fuel i st.
Proof.
  revert i st. induction fuel as [|fuel IH]; intros i st H; cbn [iterate].
  - now rewrite (H st (le_n _)).
  - rewrite (H st (le_n _)).
    assert (E : step st
                     (fun st' =>
                        if (Nat.leb lo i
                            && Nat.leb (String.length (rest st))
                                       (String.length (rest st')))%bool
                        then None
                        else iterate step greedy lo hi k1 fuel (S i) st')
                = step st
                       (fun st' =>
                          if (Nat.leb lo i
                              && Nat.leb (String.length (rest st))
                                         (String.length (rest st')))%bool
                          then None
                          else iterate step greedy lo hi k2 fuel (S i) st')).
    { apply step_ext. intros st1 H1. destruct (_ && _)%bool; auto.
      apply IH. intros st2 H2. apply H. lia. }
    now rewrite E.
Qed.

(** Fuel beyond the number of iterations that can succeed is never used. *)
Lemma iterate_fuel (k : mstate -> option mstate) (fuel1 fuel2 i : nat)
      (st : mstate) :
  (lo - i + String.length (rest st) < fuel1)%nat ->
  (lo - i + String.length (rest st) < fuel2)%nat ->
  iterate step greedy lo hi k fuel1 i st
  = iterate step greedy lo hi k fuel2 i st.
Proof.
  revert fuel2 i st.
  induction fuel1 as [|fuel1 IH]; intros fuel2 i st H1 H2; [lia|].
  destruct fuel2 as [|fuel2]; [lia|]. cbn [iterate].
  assert (E : step st
                   (fun st' =>
                      if (Nat.leb lo i
                          && Nat.leb (String.length (rest st))
                                     (String.length (rest st')))%bool
                      then None
                      else iterate step greedy lo hi k fuel1 (S i) st')
              = step st
                     (fun st' =>
                        if (Nat.leb lo i
                            && Nat.leb (String.length (rest st))
                                       (String.length (rest st')))%bool
                        then None
                        else iterate step greedy lo hi k fuel2 (S i) st')).
  { apply step_ext. intros st1 Hle.
    destruct (_ && _)%bool eqn:E; auto.
    apply andb_false_iff in E.
    rewrite Nat.leb_gt, Nat.leb_gt in E. apply IH; lia. }
  now rewrite E.
Qed.

(** [bonus] characters at least are read by every [step]. *)
Variable bonus : nat.
Hypothesis step_shrinks :
  forall st k res,
    step st k = Some res ->
    exists st', k st' = Some res
                /\ (String.length (rest st') + bonus
                    <= String.length (rest st))%nat.

Lemma iterate_shrinks (k : mstate -> option mstate) (fuel i : nat)
      (st res : mstate) :
  iterate step greedy lo hi k fuel i st = Some res ->
  exists st', k st' = Some res
              /\ (String.length (rest st') + (if Nat.ltb i lo then bonus else 0)
                  <= String.length (rest st))%nat.
Proof.
  revert i st. induction fuel as [|fuel IH]; intros i st H; cbn [iterate] in H.
  - destruct (Nat.ltb i lo); [discriminate|].
    exists st. split; [|lia]. now destruct greedy, (k st).
  - assert (Hagain :
              (if under i hi
               then step st
                      (fun st' =>
                         if (Nat.leb lo i
                             && Nat.leb (String.length (rest st))
                                        (String.length (rest st')))%bool
                         then None
                         else iterate step greedy lo hi k fuel (S i) st')
               else None) = Some res ->
              exists st', k st' = Some res
                          /\ (String.length (rest st') + bonus
                              <= String.length (rest st))%nat).
    { destruct (under i hi); [|discriminate]. intros Hs.
      apply step_shrinks in Hs as [st1 [Hs Hl]].
      destruct (_ && _)%bool; [discriminate|].
      apply IH in Hs as [st' [Hk Hl']]. exists st'. split; auto.
      destruct (Nat.ltb (S i) lo); lia. }
    destruct (Nat.ltb i lo).
    + apply Hagain in H as [st' [Hk Hl]]. eauto.
    + assert (Hhere : k st = Some res ->
                      exists st', k st' = Some res
                                  /\ (String.length (rest st') + 0
                                      <= String.length (rest st))%nat)
        by (intros Hk; exists st; split; auto; lia).
      unfold orelse in H. destruct greedy.
      * destruct (if under i hi then _ else None) eqn:E.
        -- rewrite <- H in *. destruct (Hagain eq_refl) as [st' [Hk Hl]].
           exists st'. split; auto. lia.
        -- auto.
      * destruct (k st) eqn:E; [rewrite <- H in *; auto|].
        destruct (Hagain H) as [st' [Hk Hl]]. exists st'. split; auto. lia.
Qed.

End IterateFacts.

Section RunFacts.
Import Regex.

Lemma run_ext (ic : bool) (r : re) :
  forall st k1 k2,
    (forall st1, (String.length (rest st1) <= String.length (rest st))%nat ->
                 k1 st1 = k2 st1) ->
    run ic r st k1 = run ic r st k2.
Proof.
  assert (Hone : forall p st k1 k2,
             (forall st1,
                 (String.length (rest st1) <= String.length (rest st))%nat ->
                 k1 st1 = k2 st1) ->
             one p st k1 = one p st k2).
  { intros p st k1 k2 H. unfold one. destruct (rest st) as [|c s'] eqn:E; auto.
    destruct (p c); auto. apply H. simpl. lia. }
  induction r as [| | | | | | |a IHa b IHb|a IHa b IHb|g lo hi a IHa|n a IHa];
    intros st k1 k2 H; cbn [run]; auto; try (apply H; lia).
  - destruct (prev st); auto.
  - destruct (rest st) eqn:E; auto. apply H. rewrite E. simpl. lia.
  - destruct (xorb _ _); auto.
  - apply IHa. intros st1 H1. apply IHb. intros st2 H2. apply H. lia.
  - now rewrite (IHa st k1 k2 H), (IHb st k1 k2 H).
  - apply iterate_ext; auto.
Qed.

Lemma run_shrinks (ic : bool) (r : re) :
  forall st k res,
    run ic r st k = Some res ->
    exists st', k st' = Some res
                /\ (String.length (rest st') + (if consuming r then 1 else 0)
                    <= String.length (rest st))%nat.
Proof.
  assert (Hone : forall p st k res,
             one p st k = Some res ->
             exists st', k st' = Some res
                         /\ (String.length (rest st') + 1
                             <= String.length (rest st))%nat).
  { intros p st k res H. unfold one in H.
    destruct (rest st) as [|c s'] eqn:E; [discriminate|].
    destruct (p c); [|discriminate]. eexists. split; [exact H|]. simpl. lia. }
  assert (Hhere : forall st (k : mstate -> option mstate) res,
             k st = Some res ->
             exists st', k st' = Some res
                         /\ (String.length (rest st') + 0
                             <= String.length (rest st))%nat)
    by (intros st k res H; exists st; split; auto; lia).
  induction r as [| | | | | | |a IHa b IHb|a IHa b IHb|g lo hi a IHa|n a IHa];
    intros st k res H; cbn [run consuming] in *; eauto.
  - destruct (prev st); [discriminate | eauto].
  - destruct (rest st) eqn:E; [|discriminate].
    exists st. rewrite E. split; auto.
  - destruct (xorb _ _); [eauto | discriminate].
  - apply IHa in H as [st1 [H Hl1]]. apply IHb in H as [st2 [H Hl2]].
    exists st2. split; auto.
    destruct (consuming a), (consuming b); simpl in *; lia.
  - unfold orelse in H. destruct (run ic a st k) eqn:Ea.
    + rewrite <- H in *. apply IHa in Ea as [st1 [Hk Hl]].
      exists st1. split; auto. destruct (consuming a), (consuming b); simpl; lia.
    + apply IHb in H as [st1 [Hk Hl]].
      exists st1. split; auto. destruct (consuming a), (consuming b); simpl; lia.
  - apply (iterate_shrinks (run ic a) g lo hi
                           (if consuming a then 1 else 0)%nat IHa) in H
      as [st1 [Hk Hl]].
    exists st1. split; auto.
    destruct lo as [|lo]; simpl in *; [lia|].
    destruct (consuming a); lia.
  - apply IHa in H as [st1 [Hk Hl]]. eexists. split; [exact Hk|]. exact Hl.
Qed.

(** The fuel [run] gives a repetition can be replaced by any larger one. *)
Lemma run_rep_fuel (ic greedy : bool) (lo : nat) (hi : option nat) (a : re)
      (st : mstate) (k : mstate -> option mstate) (fuel : nat) :
  (lo + String.length (rest st) < fuel)%nat ->
  run ic (Rep greedy lo hi a) st k
  = iterate (run ic a) greedy lo hi k fuel 0 st.
Proof.
  intros H. cbn [run]. apply iterate_fuel; [apply run_ext | lia | lia].
Qed.

Lemma search_shrinks (ic : bool) (r : re) (s : string) :
  forall p f,
    search ic r p s = Some f ->
    (String.length (rest (upto f)) + (if consuming r then 1 else 0)
     <= String.length s)%nat.
Proof.
  induction s as [|c s IH]; intros p f H; rewrite search_unfold in H.
  - destruct (run _ _ _ _) eqn:E; [|discriminate].
    inversion H; subst. apply run_shrinks in E as [st' [[= ->] Hl]]. exact Hl.
  - destruct (run _ _ _ _) eqn:E.
    + inversion H; subst. apply run_shrinks in E as [st' [[= ->] Hl]]. exact Hl.
    + apply IH in H. simpl. lia.
Qed.

(** For a pattern whose matches are never empty, [exec] has returned [null]
    before the fuel of [exec_all] is used up. *)
Lemma exec_all_fuel (ic : bool) (r : re) :
  consuming r = true ->
  forall fuel1 fuel2 p s,
    (String.length s < fuel1)%nat -> (String.length s < fuel2)%nat ->
    exec_all fuel1 ic r p s = exec_all fuel2 ic r p s.
Proof.
  intros Hc. induction fuel1 as [|fuel1 IH]; intros fuel2 p s H1 H2; [lia|].
  destruct fuel2 as [|fuel2]; [lia|]. cbn [exec_all].
  destruct (search ic r p s) as [f|] eqn:E; auto.
  apply search_shrinks in E. rewrite Hc in E.
  f_equal. apply IH; lia.
Qed.

Lemma plant_patterns_consuming :
  Forall (fun p => consuming (snd p) = true) Extractor.PLANT_PATTERNS.
Proof. repeat constructor. Qed.

End RunFacts.

(** The [while] loop of [findPatternMatches] sees every match: more fuel
    than the length of the text yields the same matches. *)
Lemma plant_pattern_matches_complete (text : string) (fuel : nat)
      (p : bool * Regex.re) :
  In p Extractor.PLANT_PATTERNS ->
  (String.length text < fuel)%nat ->
  Regex.exec_all fuel (fst p) (snd p) None text
  = Regex.exec_all (S (String.length text)) (fst p) (snd p) None text.
Proof.
  intros Hin Hfuel. apply exec_all_fuel; [|lia|lia].
  pose proof plant_patterns_consuming as H.
  rewrite Forall_forall in H. now apply H.
Qed.

(* ====================================================================== *)
(** * Further properties of the modelled code *)
(* ====================================================================== *)

(** ** String normalization *)

Section Normalization.

Lemma isWhiteSpace_lower (c : ascii) :
  JsString.isWhiteSpace (JsString.toLowerChar c) = JsString.isWhiteSpace c.
Proof.
  destruct c as [b0 b1 b2 b3 b4 b5 b6 b7].
  destruct b0, b1, b2, b3, b4, b5, b6, b7; reflexivity.
Qed.

Lemma last_or_nonempty (p q : option ascii) (c : ascii) (s : string) :
  last_or p (String c s) = last_or q (String c s).
Proof. reflexivity. Qed.

Lemma trimStart_clean (s : string) : starts_clean (JsString.trimStart s).
Proof.
  induction s as [|c s IH]; simpl; auto.
  destruct (JsString.isWhiteSpace c) eqn:E; auto.
Qed.

Lemma trimStart_id (s : string) : starts_clean s -> JsString.trimStart s = s.
Proof. destruct s as [|c s]; simpl; auto. now intros ->. Qed.

Lemma trimEnd_clean (s : string) : ends_clean (JsString.trimEnd s).
Proof.
  unfold ends_clean. induction s as [|c s IH]; simpl; auto.
  destruct (JsString.trimEnd s) as [|d r] eqn:E.
  - destruct (JsString.isWhiteSpace c) eqn:Ec; simpl; auto.
  - exact IH.
Qed.

Lemma trimEnd_id (s : string) : ends_clean s -> JsString.trimEnd s = s.
Proof.
  unfold ends_clean. induction s as [|c s IH]; simpl; auto.
  destruct s as [|d s].
  - simpl. now intros ->.
  - intros H. rewrite IH by exact H. reflexivity.
Qed.

Lemma trimEnd_starts (s : string) :
  starts_clean s -> starts_clean (JsString.trimEnd s).
Proof.
  destruct s as [|c s]; simpl; auto. intros H.
  destruct (JsString.trimEnd s); simpl; auto. now rewrite H.
Qed.

Lemma trim_clean (s : string) :
  starts_clean (JsString.trim s) /\ ends_clean (JsString.trim s).
Proof.
  unfold JsString.trim. split.
  - apply trimEnd_starts, trimStart_clean.
  - apply trimEnd_clean.
Qed.

Lemma trim_id (s : string) :
  starts_clean s -> ends_clean s -> JsString.trim s = s.
Proof.
  intros H1 H2. unfold JsString.trim. rewrite trimStart_id by exact H1.
  now apply trimEnd_id.
Qed.

Lemma trim_idem (s : string) : is_trimmed (JsString.trim s).
Proof. destruct (trim_clean s). now apply trim_id. Qed.

Lemma collapse_starts (s : string) :
  starts_clean s -> starts_clean (JsString.collapse_from false s).
Proof. destruct s as [|c s]; simpl; auto. intros H. now rewrite H. Qed.

Lemma collapse_last (s : string) :
  forall (b : bool) (p : option ascii) (d : ascii),
    last_or None s = Some d -> JsString.isWhiteSpace d = false ->
    last_or p (JsString.collapse_from b s) = Some d.
Proof.
  induction s as [|c s IH]; intros b p d Hl Hd; [discriminate|].
  destruct s as [|c' s].
  - simpl in Hl. injection Hl as ->. simpl. now rewrite Hd.
  - change (last_or None (String c' s) = Some d) in Hl.
    change (JsString.collapse_from b (String c (String c' s)))
      with (if JsString.isWhiteSpace c
            then if b then JsString.collapse_from true (String c' s)
                 else String " "%char (JsString.collapse_from true (String c' s))
            else String c (JsString.collapse_from false (String c' s))).
    destruct (JsString.isWhiteSpace c); [destruct b|]; cbn [last_or]; auto.
Qed.

Lemma last_or_some (c : ascii) (s : string) :
  exists d, last_or (Some c) s = Some d.
Proof. revert c. induction s as [|a s IH]; intros c; simpl; eauto. Qed.

Lemma collapse_ends (s : string) :
  ends_clean s -> ends_clean (JsString.collapse_from false s).
Proof.
  destruct s as [|a s]; [auto|].
  destruct (last_or_some a s) as [d Hd]. unfold ends_clean.
  change (last_or None (String a s)) with (last_or (Some a) s).
  rewrite Hd. intros Hw.
  now rewrite (collapse_last (String a s) false None d Hd Hw).
Qed.

Lemma collapse_idem_all (s : string) :
  JsString.collapse_from false (JsString.collapse_from false s)
  = JsString.collapse_from false s
  /\ JsString.collapse_from false (JsString.collapse_from true s)
     = JsString.collapse_from true s
  /\ JsString.collapse_from true (JsString.collapse_from true s)
     = JsString.collapse_from true s.
Proof.
  induction s as [|c s (IH1 & IH2 & IH3)]; simpl; auto.
  destruct (JsString.isWhiteSpace c) eqn:E; simpl.
  - change (JsString.isWhiteSpace " ") with true. cbv iota.
    rewrite IH3. auto.
  - rewrite E, IH1. auto.
Qed.

Lemma collapse_idem (s : string) : is_collapsed (JsString.collapseWhitespace s).
Proof. apply collapse_idem_all. Qed.

Lemma toLowerCase_trimStart (s : string) :
  JsString.toLowerCase (JsString.trimStart s)
  = JsString.trimStart (JsString.toLowerCase s).
Proof.
  induction s as [|c s IH]; simpl; auto.
  rewrite isWhiteSpace_lower. destruct (JsString.isWhiteSpace c); auto.
Qed.

Lemma toLowerCase_trimEnd (s : string) :
  JsString.toLowerCase (JsString.trimEnd s)
  = JsString.trimEnd (JsString.toLowerCase s).
Proof.
  induction s as [|c s IH]; simpl; auto.
  rewrite <- IH, isWhiteSpace_lower.
  destruct (JsString.trimEnd s); simpl; auto.
  destruct (JsString.isWhiteSpace c); auto.
Qed.

Lemma toLowerCase_trim (s : string) :
  JsString.toLowerCase (JsString.trim s)
  = JsString.trim (JsString.toLowerCase s).
Proof.
  unfold JsString.trim. now rewrite toLowerCase_trimEnd, toLowerCase_trimStart.
Qed.

Lemma toLowerCase_collapse (b : bool) (s : string) :
  JsString.toLowerCase (JsString.collapse_from b s)
  = JsString.collapse_from b (JsString.toLowerCase s).
Proof.
  revert b. induction s as [|c s IH]; intros b; simpl; auto.
  rewrite isWhiteSpace_lower.
  destruct (JsString.isWhiteSpace c); [destruct b|]; simpl; now rewrite IH.
Qed.

End Normalization.

(** X1. [normalizeSearchKey] yields a canonical cache key: the key is
    lower-case, has no whitespace at either end and no whitespace other than
    single spaces inside, and normalizing a key again leaves it unchanged; a
    query and its lower-cased form get the same key. *)
Theorem normalizeSearchKey_canonical (query : string) :
  let key := TrefleClient.normalizeSearchKey query in
  is_lowercase key /\ is_trimmed key /\ is_collapsed key
  /\ TrefleClient.normalizeSearchKey key = key
  /\ TrefleClient.normalizeSearchKey (JsString.toLowerCase query) = key.
Proof.
  intros key.
  assert (Hl : is_lowercase key).
  { unfold key, TrefleClient.normalizeSearchKey, JsString.collapseWhitespace,
      is_lowercase.
    rewrite toLowerCase_collapse, toLowerCase_trim.
    now rewrite (toLowerCase_idem query). }
  assert (Ht : is_trimmed key).
  { unfold key, TrefleClient.normalizeSearchKey, JsString.collapseWhitespace.
    destruct (trim_clean (JsString.toLowerCase query)) as [H1 H2].
    apply trim_id; [now apply collapse_starts | now apply collapse_ends]. }
  assert (Hc : is_collapsed key) by apply collapse_idem.
  repeat split; auto.
  - unfold TrefleClient.normalizeSearchKey. now rewrite Hl, Ht, Hc.
  - unfold key, TrefleClient.normalizeSearchKey.
    now rewrite (toLowerCase_idem query).
Qed.

(** ** TrefleCache: maintenance and isolation of keys *)

Section CacheMaintenance.
Context {T : Type}.

Lemma jsmap_get_filter {V} (p : string * V -> bool) (m : JsMap.t V) (k : string) :
  JsMap.wf m ->
  JsMap.get (filter p m) k
  = match JsMap.get m k with
    | Some v => if p (k, v) then Some v else None
    | None => None
    end.
Proof.
  unfold JsMap.wf, JsMap.keys. induction m as [|[k' v'] m IH]; intros Hwf; simpl; auto.
  inversion Hwf as [|? ? Hn Hd]; subst.
  destruct (String.eqb k' k) eqn:E.
  - apply String.eqb_eq in E. subst k'.
    destruct (p (k, v')) eqn:Ep; simpl.
    + now rewrite String.eqb_refl.
    + apply jsmap_get_None. unfold JsMap.keys. intros H. apply Hn.
      apply in_map_iff in H as [x [Hx Hin]]. apply filter_In in Hin as [Hin _].
      apply in_map_iff. eauto.
  - destruct (p (k', v')); simpl; rewrite ?E; auto.
Qed.

Lemma cleanup_get (now : Z) (c : TrefleCache.t T) (k : string) :
  JsMap.wf (TrefleCache.cache c) ->
  TrefleCache.get now (snd (TrefleCache.cleanup now c)) k
  = (fst (TrefleCache.get now c k), snd (TrefleCache.cleanup now c)).
Proof.
  intros Hwf. unfold TrefleCache.get, TrefleCache.cleanup.
  cbn [snd TrefleCache.cache TrefleCache.with_cache TrefleCache.ttlMs].
  rewrite (jsmap_get_filter _ _ k Hwf). cbn [snd].
  destruct (JsMap.get (TrefleCache.cache c) k) as [e|]; auto.
  destruct (now - timestamp e >? TrefleCache.ttlMs c) eqn:E; cbn [negb fst]; auto.
  now rewrite E.
Qed.

End CacheMaintenance.

(** X2. [cleanup()] removes exactly the entries whose age exceeds the TTL and
    returns how many they were; afterwards every read at that time returns
    what it would have returned before the sweep, and finds nothing left to
    evict. *)
Theorem cleanup_removes_expired (T : Type) (c : TrefleCache.t T) (now : Z) :
  JsMap.wf (TrefleCache.cache c) ->
  let removed := fst (TrefleCache.cleanup now c) in
  let c' := snd (TrefleCache.cleanup now c) in
  removed
  = Z.of_nat (length (filter (fun e => now - timestamp (snd e)
                                       >? TrefleCache.ttlMs c)
                             (TrefleCache.cache c)))
  /\ removed = TrefleCache.size c - TrefleCache.size c'
  /\ (forall k e, In (k, e) (TrefleCache.cache c') <->
                  In (k, e) (TrefleCache.cache c)
                  /\ now - timestamp e <= TrefleCache.ttlMs c)
  /\ forall k, TrefleCache.get now c' k = (fst (TrefleCache.get now c k), c').
Proof.
  intros Hwf removed c'.
  pose proof (Permutation_length
                (filter_split (fun e => now - timestamp (snd e)
                                        >? TrefleCache.ttlMs c)
                              (TrefleCache.cache c))) as Hlen.
  rewrite length_app in Hlen.
  unfold removed, c', TrefleCache.cleanup, TrefleCache.size, JsMap.size.
  cbn [fst snd TrefleCache.cache TrefleCache.with_cache].
  split; [lia|]. split; [reflexivity|]. split.
  - intros k e. rewrite filter_In. cbn [snd].
    rewrite negb_true_iff, Z.gtb_ltb, Z.ltb_ge. tauto.
  - intros k. apply (cleanup_get now c k Hwf).
Qed.

Lemma cleanup_removes_expired_witness :
  let c := TrefleCache.run_sets (TrefleCache.new 100 10)
                                [(0, "oak", 1%nat); (50, "elm", 2%nat)] in
  fst (TrefleCache.cleanup 120 c) = 1
  /\ TrefleCache.get 120 (snd (TrefleCache.cleanup 120 c)) "elm"
     = (Some 2%nat, snd (TrefleCache.cleanup 120 c)).
Proof.
  intros c.
  assert (Hwf : JsMap.wf (TrefleCache.cache c)).
  { unfold JsMap.wf. vm_compute. repeat constructor; simpl; intuition discriminate. }
  destruct (cleanup_removes_expired nat c 120 Hwf) as (H1 & _ & _ & H4).
  split.
  - rewrite H1. reflexivity.
  - rewrite H4. reflexivity.
Defined.

(** X3. Reads and writes are isolated per key. A key that [get] reports as
    absent stays absent for every later read, whatever the clock says, until
    it is set again; reading one key never changes the entry of another; and
    a [set] on a cache below capacity leaves every other key's entry as it
    was. *)
Theorem cache_keys_isolated (T : Type) (c : TrefleCache.t T) (k k' : string)
        (v : T) (now now' : Z) :
  (fst (TrefleCache.get now c k) = None ->
   fst (TrefleCache.get now' (snd (TrefleCache.get now c k)) k) = None)
  /\ (k <> k' ->
      JsMap.get (TrefleCache.cache (snd (TrefleCache.get now c k))) k'
      = JsMap.get (TrefleCache.cache c) k')
  /\ (k <> k' -> TrefleCache.size c < TrefleCache.maxSize c ->
      JsMap.get (TrefleCache.cache (TrefleCache.set now c k v)) k'
      = JsMap.get (TrefleCache.cache c) k').
Proof.
  split; [|split].
  - unfold TrefleCache.get at 1 3.
    destruct (JsMap.get (TrefleCache.cache c) k) as [e|] eqn:E.
    + destruct (now - timestamp e >? TrefleCache.ttlMs c); [|discriminate].
      intros _. unfold TrefleCache.get.
      cbn [snd TrefleCache.cache TrefleCache.with_cache].
      now rewrite jsmap_get_delete_same.
    + intros _. unfold TrefleCache.get. cbn [snd]. now rewrite E.
  - intros Hne. unfold TrefleCache.get.
    destruct (JsMap.get (TrefleCache.cache c) k) as [e|]; auto.
    destruct (now - timestamp e >? TrefleCache.ttlMs c); auto.
    cbn [snd TrefleCache.cache TrefleCache.with_cache].
    now apply jsmap_get_delete_other.
  - intros Hne Hroom. unfold TrefleCache.set.
    destruct (TrefleCache.size c >=? TrefleCache.maxSize c) eqn:E.
    + apply Z.geb_le in E. lia.
    + cbn [TrefleCache.cache TrefleCache.with_cache].
      now apply jsmap_get_set_other.
Qed.

Lemma cache_keys_isolated_witness :
  let c := TrefleCache.set 0 (TrefleCache.new 100 10) "oak" 1%nat in
  fst (TrefleCache.get 50 (snd (TrefleCache.get 200 c "oak")) "oak") = None
  /\ JsMap.get (TrefleCache.cache (TrefleCache.set 10 c "elm" 2%nat)) "oak"
     = JsMap.get (TrefleCache.cache c) "oak".
Proof.
  intros c. split.
  - apply (proj1 (cache_keys_isolated nat c "oak" "elm" 2%nat 200 50)).
    reflexivity.
  - apply (proj2 (proj2 (cache_keys_isolated nat c "elm" "oak" 2%nat 10 0))).
    + discriminate.
    + reflexivity.
Defined.

(** ** ConversationPlantRegistry: lookups *)

Section RegistryLookups.
Import ConversationPlantRegistry.

Lemma addPlant_get (key : string) (p : ProcessedPlantData)
      (r : ConversationPlantRegistry.t) :
  JsMap.get (plants (addPlant key p r)) (normKey key) = Some p.
Proof. unfold addPlant. cbn [plants]. apply jsmap_get_set_same. Qed.

Lemma includes_empty (s : string) : JsString.includes s "" = true.
Proof. destruct s; reflexivity. Qed.

Lemma jsmap_get_values {V} (m : JsMap.t V) (k : string) (v : V) :
  JsMap.get m k = Some v -> In v (JsMap.values m).
Proof.
  intros H. apply jsmap_get_In in H. unfold JsMap.values.
  apply in_map_iff. exists (k, v). auto.
Qed.

End RegistryLookups.

(** X4. What [addPlant(key, plant)] registers can be looked up under any
    spelling of the key that differs only in letter case or surrounding
    whitespace: [getPlant] and [findPlant] return the profile just added and
    [hasPlant] is true, whatever the registry held before. *)
Theorem registry_lookup_after_add (r : ConversationPlantRegistry.t)
        (key key' : string) (p : ProcessedPlantData) :
  normKey key' = normKey key ->
  let r' := ConversationPlantRegistry.addPlant key p r in
  ConversationPlantRegistry.getPlant key' r' = Some p
  /\ ConversationPlantRegistry.hasPlant key' r' = true
  /\ ConversationPlantRegistry.findPlant key' r' = Some p.
Proof.
  intros Hk r'.
  assert (H : JsMap.get (ConversationPlantRegistry.plants r') (normKey key')
              = Some p) by (rewrite Hk; apply addPlant_get).
  unfold ConversationPlantRegistry.getPlant, ConversationPlantRegistry.hasPlant,
    ConversationPlantRegistry.findPlant, JsMap.has.
  fold (normKey key'). now rewrite H.
Qed.

Lemma registry_lookup_after_add_witness :
  let r' := ConversationPlantRegistry.addPlant
              "Swiss Cheese Plant" Samples.monstera
              ConversationPlantRegistry.new in
  ConversationPlantRegistry.getPlant "  swiss cheese PLANT " r'
  = Some Samples.monstera.
Proof.
  intros r'.
  apply (registry_lookup_after_add ConversationPlantRegistry.new
                                   "Swiss Cheese Plant"
                                   "  swiss cheese PLANT " Samples.monstera).
  reflexivity.
Defined.



(** X6. While no key normalizes to the empty string the registry is a FIFO
    of at most 20 keys: after any sequence of [addPlant] calls it holds at
    most 20 keys, in insertion order; adding a key that is not registered to
    a full registry removes exactly the oldest key and leaves every other
    key's profile untouched; adding a key that is registered replaces its
    profile without moving or evicting anything. *)
Theorem registry_fifo_without_blank_keys
        (ops : list (string * ProcessedPlantData)) (key : string)
        (p : ProcessedPlantData) :
  Forall (fun kp => normKey (fst kp) <> "") ops ->
  normKey key <> "" ->
  let r := ConversationPlantRegistry.addAll ops ConversationPlantRegistry.new in
  let r' := ConversationPlantRegistry.addPlant key p r in
  ConversationPlantRegistry.size r <= 20
  /\ JsMap.keys (ConversationPlantRegistry.plants r)
     = ConversationPlantRegistry.mentionOrder r
  /\ (length (ConversationPlantRegistry.mentionOrder r) = 20%nat ->
      ~ In (normKey key) (ConversationPlantRegistry.mentionOrder r) ->
      exists oldest rest,
        ConversationPlantRegistry.mentionOrder r = oldest :: rest
        /\ ConversationPlantRegistry.mentionOrder r' = rest ++ [normKey key]
        /\ JsMap.get (ConversationPlantRegistry.plants r') oldest = None
        /\ forall k, k <> oldest -> k <> normKey key ->
                     JsMap.get (ConversationPlantRegistry.plants r') k
                     = JsMap.get (ConversationPlantRegistry.plants r) k)
  /\ (In (normKey key) (ConversationPlantRegistry.mentionOrder r) ->
      ConversationPlantRegistry.mentionOrder r'
      = ConversationPlantRegistry.mentionOrder r
      /\ forall k, k <> normKey key ->
                   JsMap.get (ConversationPlantRegistry.plants r') k
                   = JsMap.get (ConversationPlantRegistry.plants r) k).
Proof.
  intros Hops Hkey r r'.
  destruct (registry_bound_nonempty_keys ops Hops) as [Hinv Hsize].
  fold r in Hinv, Hsize.
  split; [exact Hsize|]. split; [apply Hinv|]. split.
  - intros Hfull Hnew.
    destruct (addPlant_full_fifo key p r Hinv Hfull Hkey Hnew)
      as (oldest & rest & H1 & H2 & _ & _ & H5 & H6).
    exists oldest, rest. auto.
  - intros Hin. destruct Hinv as (Hk & _).
    assert (Hhas : JsMap.has (ConversationPlantRegistry.plants r) (normKey key)
                   = true) by (apply jsmap_has_true; now rewrite Hk).
    unfold r', ConversationPlantRegistry.addPlant. fold (normKey key).
    rewrite Hhas. cbn [negb ConversationPlantRegistry.plants
                            ConversationPlantRegistry.mentionOrder].
    split; [reflexivity|]. intros k Hne.
    apply jsmap_get_set_other. congruence.
Qed.

Lemma registry_fifo_without_blank_keys_witness :
  let r := ConversationPlantRegistry.addAll
             (map Samples.under Samples.twentyKeys)
             ConversationPlantRegistry.new in
  let r' := ConversationPlantRegistry.addPlant "Yew" Samples.monstera r in
  ConversationPlantRegistry.size r <= 20
  /\ exists oldest rest,
      ConversationPlantRegistry.mentionOrder r = oldest :: rest
      /\ ConversationPlantRegistry.mentionOrder r' = rest ++ ["yew"]
      /\ JsMap.get (ConversationPlantRegistry.plants r') oldest = None.
Proof.
  intros r r'.
  assert (Hops : Forall (fun kp => normKey (fst kp) <> "")
                        (map Samples.under Samples.twentyKeys))
    by (repeat constructor; discriminate).
  assert (Hkey : normKey "Yew" <> "") by discriminate.
  destruct (registry_fifo_without_blank_keys
              (map Samples.under Samples.twentyKeys) "Yew" Samples.monstera
              Hops Hkey) as (H1 & _ & H3 & _).
  split; [exact H1|].
  destruct H3 as (oldest & rest & Ha & Hb & Hc & _).
  - reflexivity.
  - vm_compute. intuition discriminate.
  - exists oldest, rest. auto.
Defined.

(** ** TrefleClient.request: the whole run *)

Section RequestRun.
Import TrefleClient.
Context {T : Type}.
Variable script : nat -> Fetched T.

(** One turn of the loop, read through [verdict]. *)
Lemma attempts_step (fuel : nat) (a : Z) (lastError : option RequestError)
      (w : World) :
  a <= MAX_RETRIES ->
  let w2 := recordRequest (if a >? 0 then delay (RETRY_DELAY_MS * a) w else w) in
  let w3 := snd (fetch script w2) in
  attempts script (S fuel) a lastError w
  = match verdict (outcome (script (calls w))) with
    | Succeeds d => (Returned d, w3)
    | Fails e => (Thrown e, w3)
    | Retries e => attempts script fuel (a + 1) (Some e) w3
    end.
Proof.
  intros Ha w2 w3. cbn [attempts]. apply Z.leb_le in Ha. rewrite Ha.
  fold w2. unfold w3, fetch.
  assert (Hc : calls w2 = calls w)
    by (unfold w2; destruct (a >? 0); reflexivity).
  rewrite Hc. unfold verdict.
  destruct (outcome (script (calls w))) as [|status body]; cbn [snd]; auto.
  destruct (ok status); [destruct body; auto|].
  destruct (status =? 404); auto. destruct (status =? 401); auto.
  destruct (status =? 429); auto. destruct (status >=? 500); auto.
Qed.

Lemma retry_delays_cons (a : Z) (n : nat) :
  0 <= a ->
  retry_delays (Z.to_nat a) (S n)
  = (if a >? 0 then [RETRY_DELAY_MS * a] else [])
      ++ retry_delays (Z.to_nat (a + 1)) n.
Proof.
  intros Ha. unfold retry_delays. cbn [seq filter].
  replace (Z.to_nat (a + 1)) with (S (Z.to_nat a)) by lia.
  destruct (Nat.ltb 0 (Z.to_nat a)) eqn:E.
  - apply Nat.ltb_lt in E. destruct (a >? 0) eqn:E'.
    + cbn [map app]. now rewrite Z2Nat.id by lia.
    + rewrite Z.gtb_ltb in E'. apply Z.ltb_ge in E'. lia.
  - apply Nat.ltb_ge in E. destruct (a >? 0) eqn:E'; auto.
    apply Z.gtb_lt in E'. lia.
Qed.

Lemma attempts_summary (r : nat) :
  forall (fuel : nat) (a : Z) (lastError : option RequestError) (w : World),
    a = MAX_RETRIES + 1 - Z.of_nat r -> 0 <= a -> (r < fuel)%nat ->
    loop_summary script r a lastError w (attempts script fuel a lastError w).
Proof.
  induction r as [|r IH]; intros fuel a lastError w Ha H0 Hfuel;
    (destruct fuel as [|fuel]; [lia|]).
  - exists 0%nat, []. cbn [attempts].
    destruct (a <=? MAX_RETRIES) eqn:E; [apply Z.leb_le in E; lia|].
    cbn [fst snd length]. unfold retry_delays. cbn [seq filter map].
    rewrite !app_nil_r, Nat.add_0_r.
    split; [lia|]. split; [lia|]. split; [reflexivity|].
    split; [reflexivity|]. split; [reflexivity|]. split; [reflexivity|].
    split; [intros i Hi; lia | reflexivity].
  - assert (Hle : a <= MAX_RETRIES) by lia.
    rewrite (attempts_step fuel a lastError w Hle).
    set (w2 := recordRequest _).
    set (w3 := snd (fetch script w2)).
    assert (Hc3 : calls w3 = S (calls w))
      by (unfold w3, fetch, w2; destruct (a >? 0); reflexivity).
    assert (Ht3 : requestTimes w3
                  = requestTimes w
                      ++ [now (if a >? 0 then delay (RETRY_DELAY_MS * a) w
                               else w)])
      by (unfold w3, fetch, w2; destruct (a >? 0); reflexivity).
    assert (Hd3 : delays w3
                  = delays w ++ (if a >? 0 then [RETRY_DELAY_MS * a] else []))
      by (unfold w3, fetch, w2; destruct (a >? 0); cbn;
          rewrite ?app_nil_r; reflexivity).
    assert (Hone : retry_delays (Z.to_nat a) 1
                   = if a >? 0 then [RETRY_DELAY_MS * a] else []).
    { rewrite retry_delays_cons by lia. unfold retry_delays at 1.
      cbn [seq filter map]. apply app_nil_r. }
    destruct (verdict (outcome (script (calls w)))) as [d|e|e] eqn:V.
    + exists 1%nat, [now (if a >? 0 then delay (RETRY_DELAY_MS * a) w else w)].
      cbn [fst snd length]. rewrite Hc3, Ht3, Hd3, Hone.
      split; [lia|]. split; [lia|]. split; [lia|].
      split; [reflexivity|]. split; [reflexivity|]. split; [reflexivity|].
      split; [intros i Hi; lia|].
      rewrite Nat.add_0_r, V. reflexivity.
    + exists 1%nat, [now (if a >? 0 then delay (RETRY_DELAY_MS * a) w else w)].
      cbn [fst snd length]. rewrite Hc3, Ht3, Hd3, Hone.
      split; [lia|]. split; [lia|]. split; [lia|].
      split; [reflexivity|]. split; [reflexivity|]. split; [reflexivity|].
      split; [intros i Hi; lia|].
      rewrite Nat.add_0_r, V. reflexivity.
    + destruct (IH fuel (a + 1) (Some e) w3) as
          (n & stamps & Hn & Hpos & Hc & Ht & Hl & Hd & Hearly & Hlast);
        try lia.
      exists (S n),
        (now (if a >? 0 then delay (RETRY_DELAY_MS * a) w else w) :: stamps).
      rewrite Hc, Ht, Hd, Hc3, Ht3, Hd3, retry_delays_cons by lia.
      rewrite <- !app_assoc. cbn [length app fst snd].
      split; [lia|]. split; [lia|]. split; [lia|].
      split; [reflexivity|]. split; [lia|]. split; [reflexivity|]. split.
      * intros i Hi. destruct i as [|i].
        -- rewrite Nat.add_0_r, V. eauto.
        -- destruct (Hearly i) as [e' He']; [lia|].
           exists e'. rewrite <- He'.
           replace (calls w + S i)%nat with (calls w3 + i)%nat
             by (rewrite Hc3; lia).
           reflexivity.
      * destruct n as [|m].
        -- rewrite Nat.add_0_r, V. split; [exact Hlast|].
           destruct r; [reflexivity | lia].
        -- replace (calls w + S m)%nat with (calls w3 + m)%nat
             by (rewrite Hc3; lia).
           destruct (verdict (outcome (script (calls w3 + m)%nat))); auto.
           destruct Hlast as [Hres Hnr]. split; [exact Hres | lia].
Qed.

(** The run of [request] once the rate limiter has let it pass. *)
Lemma request_summary (w : World) :
  fst (canMakeRequest w) = true ->
  loop_summary script 3 0 None (snd (canMakeRequest w)) (request script w).
Proof.
  intros Hcan. unfold request.
  destruct (canMakeRequest w) as [can w0]. cbn [fst snd] in *. subst can.
  cbn [negb]. change (Z.to_nat (MAX_RETRIES + 2)) with 4%nat.
  apply attempts_summary; [reflexivity | lia | lia].
Qed.

End RequestRun.

Section RequestRunFacts.
Import TrefleClient.

Lemma retry_delays_from_zero (n : nat) :
  retry_delays 0 n
  = map (fun i => RETRY_DELAY_MS * Z.of_nat i) (seq 1 (n - 1)).
Proof.
  unfold retry_delays. destruct n as [|n]; [reflexivity|].
  change (seq 0 (S n)) with (0%nat :: seq 1 n). cbn [filter].
  change (Nat.ltb 0 0) with false. cbv iota.
  rewrite Nat.sub_succ, Nat.sub_0_r.
  f_equal. apply filter_all. intros i Hi. apply in_seq in Hi.
  apply Nat.ltb_lt. lia.
Qed.

Lemma canMakeRequest_world (w : World) :
  calls (snd (canMakeRequest w)) = calls w
  /\ delays (snd (canMakeRequest w)) = delays w
  /\ now (snd (canMakeRequest w)) = now w
  /\ requestTimes (snd (canMakeRequest w))
     = RateLimiter.cleanup (now w) (requestTimes w).
Proof. repeat split. Qed.

Lemma request_rejected {T} (script : nat -> Fetched T) (w : World) :
  fst (canMakeRequest w) = false ->
  request script w = (Thrown RateLimitExceeded, snd (canMakeRequest w)).
Proof.
  intros H. unfold request. destruct (canMakeRequest w) as [can w0].
  cbn [fst snd] in *. now subst can.
Qed.

Lemma verdict_thrown {T} (o : FetchOutcome T) (e : RequestError) :
  verdict o = Fails e \/ verdict o = Retries e ->
  e <> RateLimitExceeded /\ e <> RequestFailed.
Proof.
  unfold verdict. destruct o as [|status body].
  - intros [H|H]; inversion H. split; discriminate.
  - destruct (ok status); [destruct body|];
      repeat match goal with
             | |- context [if ?b then _ else _] => destruct b
             end;
      intros [H|H]; inversion H; split; discriminate.
Qed.

End RequestRunFacts.

(** X7. Whatever the network answers, one [request] makes at most 3
    underlying calls; it records exactly one rate-limiter timestamp per call
    (after dropping the timestamps that have left the window); the waits
    before the retries are [RETRY_DELAY_MS] times 1 and 2, in that order; and
    it makes no call at all exactly when it throws the local capacity
    error. *)
Theorem request_accounting (T : Type) (script : nat -> Fetched T)
        (w : TrefleClient.World) :
  let res := fst (TrefleClient.request script w) in
  let w' := snd (TrefleClient.request script w) in
  exists (n : nat) (stamps : list Z),
    (n <= 3)%nat
    /\ TrefleClient.calls w' = (TrefleClient.calls w + n)%nat
    /\ TrefleClient.requestTimes w'
       = RateLimiter.cleanup (TrefleClient.now w) (TrefleClient.requestTimes w)
           ++ stamps
    /\ length stamps = n
    /\ TrefleClient.delays w'
       = TrefleClient.delays w
           ++ map (fun i => RETRY_DELAY_MS * Z.of_nat i) (seq 1 (n - 1))
    /\ (n = 0%nat <-> res = Thrown RateLimitExceeded).
Proof.
  intros res w'. unfold res, w'.
  destruct (fst (TrefleClient.canMakeRequest w)) eqn:Hcan.
  - destruct (request_summary script w Hcan)
      as (n & stamps & Hn & Hpos & Hc & Ht & Hl & Hd & _ & Hlast).
    exists n, stamps. rewrite Hc, Ht, Hd, retry_delays_from_zero.
    repeat split; auto.
    + intros ->. lia.
    + intros Hres. destruct n as [|m]; auto. exfalso.
      destruct (verdict (outcome (script (TrefleClient.calls
                                            (snd (TrefleClient.canMakeRequest w))
                                          + m)%nat))) eqn:V.
      * congruence.
      * rewrite Hres in Hlast. injection Hlast as <-.
        destruct (verdict_thrown _ _ (or_introl V)) as [H _]. now apply H.
      * destruct Hlast as [Hlast _]. rewrite Hres in Hlast.
        injection Hlast as <-.
        destruct (verdict_thrown _ _ (or_intror V)) as [H _]. now apply H.
  - rewrite (request_rejected script w Hcan). exists 0%nat, [].
    cbn [fst snd length seq map]. rewrite !app_nil_r, Nat.add_0_r.
    repeat split; auto.
Qed.

(** X8. Once the rate limiter lets a [request] pass, it makes between 1 and
    3 calls and its result is decided by the last one: every earlier call
    ended in a retried failure; a successful last call returns its body, a
    404, 401 or 429 throws the classified error, and a retried kind of
    failure is thrown only when the last call was the third. The fallback
    error "Request failed after retries" is never thrown. *)
Theorem request_decided_by_last_call (T : Type) (script : nat -> Fetched T)
        (w : TrefleClient.World) :
  fst (TrefleClient.canMakeRequest w) = true ->
  let res := fst (TrefleClient.request script w) in
  let w' := snd (TrefleClient.request script w) in
  exists m : nat,
    (m < 3)%nat
    /\ TrefleClient.calls w' = (TrefleClient.calls w + S m)%nat
    /\ (forall i, (i < m)%nat ->
                  exists e, verdict (outcome (script (TrefleClient.calls w + i)%nat))
                            = Retries e)
    /\ match verdict (outcome (script (TrefleClient.calls w + m)%nat)) with
       | Succeeds d => res = Returned d
       | Fails e => res = Thrown e
       | Retries e => res = Thrown e /\ m = 2%nat
       end
    /\ res <> Thrown RequestFailed.
Proof.
  intros Hcan res w'. unfold res, w'.
  destruct (request_summary script w Hcan)
    as (n & stamps & Hn & Hpos & Hc & _ & _ & _ & Hearly & Hlast).
  change (TrefleClient.calls (snd (TrefleClient.canMakeRequest w)))
    with (TrefleClient.calls w) in *.
  destruct n as [|m]; [lia|]. exists m.
  split; [lia|]. split; [exact Hc|]. split.
  { intros i Hi. apply Hearly. lia. }
  destruct (verdict (outcome (script (TrefleClient.calls w + m)%nat))) eqn:V.
  - split; [exact Hlast | congruence].
  - split; [exact Hlast|]. rewrite Hlast. intros [= ->].
    destruct (verdict_thrown _ _ (or_introl V)) as [_ H]. now apply H.
  - destruct Hlast as [Hres Hm]. split; [split; [exact Hres | lia]|].
    rewrite Hres. intros [= ->].
    destruct (verdict_thrown _ _ (or_intror V)) as [_ H]. now apply H.
Qed.

Lemma request_decided_by_last_call_witness :
  let w0 := TrefleClient.mkWorld 0 RateLimiter.new 0 [] in
  let busy := mkFetched 50 (Responded 503 (@None Z)) in
  fst (TrefleClient.request (fun _ => busy) w0) = Thrown (ServerError 503)
  /\ TrefleClient.calls (snd (TrefleClient.request (fun _ => busy) w0)) = 3%nat.
Proof.
  intros w0 busy.
  destruct (request_decided_by_last_call Z (fun _ => busy) w0 eq_refl)
    as (m & _ & Hc & _ & Hlast & _).
  change (verdict (outcome busy)) with (@Retries Z (ServerError 503)) in Hlast.
  destruct Hlast as [Hres ->]. split; [exact Hres | exact Hc].
Defined.



(** ** TrefleClient.searchPlants: failed searches *)

Section CacheReads.
Context {T : Type}.

Lemma get_miss_absent (now : Z) (c : TrefleCache.t T) (k : string) :
  fst (TrefleCache.get now c k) = None ->
  JsMap.get (TrefleCache.cache (snd (TrefleCache.get now c k))) k = None.
Proof.
  unfold TrefleCache.get.
  destruct (JsMap.get (TrefleCache.cache c) k) as [e|] eqn:E.
  - destruct (now - timestamp e >? TrefleCache.ttlMs c); [|discriminate].
    intros _. cbn [snd TrefleCache.cache TrefleCache.with_cache].
    apply jsmap_get_delete_same.
  - intros _. exact E.
Qed.

Lemma get_other_key (now : Z) (c : TrefleCache.t T) (k k' : string) :
  k <> k' ->
  JsMap.get (TrefleCache.cache (snd (TrefleCache.get now c k))) k'
  = JsMap.get (TrefleCache.cache c) k'.
Proof.
  intros Hne. unfold TrefleCache.get.
  destruct (JsMap.get (TrefleCache.cache c) k) as [e|]; auto.
  destruct (now - timestamp e >? TrefleCache.ttlMs c); auto.
  cbn [snd TrefleCache.cache TrefleCache.with_cache].
  now apply jsmap_get_delete_other.
Qed.

Lemma get_absent (now : Z) (c : TrefleCache.t T) (k : string) :
  JsMap.get (TrefleCache.cache c) k = None ->
  TrefleCache.get now c k = (None, c).
Proof. intros H. unfold TrefleCache.get. now rewrite H. Qed.

End CacheReads.

(** X10. A failed search is not remembered. When [searchPlants] throws, the
    key was not served from the cache, the error is the one [request] threw,
    and afterwards the cache holds no entry under the normalized query: a
    later search under that key, at whatever time, misses the cache and
    goes to the network again. The entries under other keys are as
    before. *)
Theorem searchPlants_failure_not_cached (S : Type)
        (script : nat -> Fetched (list S)) (st : TrefleClient.State)
        (query : string) (limit : Z) (e : RequestError) :
  fst (TrefleClient.searchPlants script query limit st) = Thrown e ->
  let key := TrefleClient.normalizeSearchKey query in
  let st' := snd (TrefleClient.searchPlants script query limit st) in
  fst (TrefleCache.get (TrefleClient.now (TrefleClient.world st))
                       (TrefleClient.searchResultsCache st) key) = None
  /\ TrefleClient.request script (TrefleClient.world st)
     = (Thrown e, TrefleClient.world st')
  /\ (forall now' : Z,
         TrefleCache.get now' (TrefleClient.searchResultsCache st') key
         = (None, TrefleClient.searchResultsCache st'))
  /\ (forall k' : string,
         k' <> key ->
         JsMap.get (TrefleCache.cache (TrefleClient.searchResultsCache st')) k'
         = JsMap.get (TrefleCache.cache (TrefleClient.searchResultsCache st))
                     k').
Proof.
  intros Hthrown key st'. unfold st'. revert Hthrown.
  unfold TrefleClient.searchPlants. fold key.
  pose proof (get_miss_absent (TrefleClient.now (TrefleClient.world st))
                              (TrefleClient.searchResultsCache st) key) as Hmiss.
  pose proof (fun k' => get_other_key
                          (TrefleClient.now (TrefleClient.world st))
                          (TrefleClient.searchResultsCache st) key k') as Hoth.
  destruct (TrefleCache.get _ _ key) as [cached cache1].
  cbn [fst snd] in *. destruct cached as [results|]; [discriminate|].
  destruct (TrefleClient.request script (TrefleClient.world st))
    as [response w1].
  destruct response as [items|e']; cbn [fst snd]; [discriminate|].
  intros [= ->].
  cbn [TrefleClient.world TrefleClient.searchResultsCache].
  split; [reflexivity|]. split; [reflexivity|]. split.
  - intros now'. apply get_absent. now apply Hmiss.
  - intros k' Hne. apply Hoth. congruence.
Qed.

Lemma searchPlants_failure_not_cached_witness :
  let st := TrefleClient.mkState (TrefleClient.mkWorld 0 RateLimiter.new 0 [])
                                 (TrefleCache.new CACHE_TTL_MS 200) in
  let down := fun _ : nat => mkFetched 30 (Responded 404 (@None (list Z))) in
  let st' := snd (TrefleClient.searchPlants down "Aloe Vera" 5 st) in
  TrefleCache.get 1 (TrefleClient.searchResultsCache st') "aloe vera"
  = (None, TrefleClient.searchResultsCache st').
Proof.
  intros st down st'.
  destruct (searchPlants_failure_not_cached
              Z down st "Aloe Vera" 5 TrefleNotFoundError eq_refl)
    as (_ & _ & H & _).
  apply (H 1).
Defined.

(** ** Mention extractor: what the exact-vocabulary pass reports *)

Section LiteralMatches.
Import Regex.

(** A successful search succeeded at some position of the input. *)
Lemma search_found (ic : bool) (r : re) (s : string) (p : option ascii)
      (f : found) :
  search ic r p s = Some f ->
  exists pre : string,
    s = (pre ++ from f)%string
    /\ run ic r (mkM (last_or p pre) (from f) []) (fun st => Some st)
       = Some (upto f).
Proof.
  revert p. induction s as [|c s IH]; intros p; rewrite search_unfold.
  - destruct (run _ _ _ _) as [st|] eqn:E; [|discriminate].
    intros [= <-]. exists "". cbn [from upto last_or]. auto.
  - destruct (run _ _ _ _) as [st|] eqn:E.
    + intros [= <-]. exists "". cbn [from upto last_or]. auto.
    + intros H. apply IH in H as [pre [Hs Hrun]].
      exists (String c pre). cbn [last_or]. split; [|exact Hrun].
      simpl. now rewrite <- Hs.
Qed.

(** A literal only matches a text that reads like it. *)
Lemma run_lit_inv (ic : bool) (name : string) :
  forall (s : string) (p : option ascii) (cs : list (nat * string))
         (k : mstate -> option mstate) (st : mstate),
    run ic (lit name) (mkM p s cs) k = Some st ->
    exists t post : string,
      s = (t ++ post)%string /\ reads_as ic name t
      /\ k (mkM (last_or p t) post cs) = Some st.
Proof.
  induction name as [|a name IH]; intros s p cs k st H.
  - exists "", s. cbn [lit run] in H. cbn. auto.
  - cbn [lit run] in H. unfold one in H. cbn [rest caps] in H.
    destruct s as [|c s]; [discriminate|].
    destruct (char_eq_flag ic a c) eqn:E; [|discriminate].
    apply IH in H as (t & post & -> & Hr & Hk).
    exists (String c t), post. cbn [reads_as last_or]. auto.
Qed.

Lemma lower_canonical (a c : ascii) :
  JsString.toLowerChar a = a -> JsString.toLowerChar c = c ->
  JsString.canonicalize a = JsString.canonicalize c -> a = c.
Proof.
  assert (H : forallb
                (fun a =>
                   forallb
                     (fun c =>
                        negb (Ascii.eqb (JsString.toLowerChar a) a
                              && Ascii.eqb (JsString.toLowerChar c) c
                              && Ascii.eqb (JsString.canonicalize a)
                                           (JsString.canonicalize c))
                        || Ascii.eqb a c)%bool
                     all_chars)
                all_chars = true) by (vm_compute; reflexivity).
  rewrite forallb_forall in H. specialize (H a (all_chars_complete a)).
  rewrite forallb_forall in H. specialize (H c (all_chars_complete c)).
  intros Ha Hc Hac. rewrite Ha, Hc, Hac, !Ascii.eqb_refl in H.
  now apply Ascii.eqb_eq.
Qed.

(** Among lower-case strings the [i] flag changes nothing. *)
Lemma reads_as_lower (s t : string) :
  is_lowercase s -> is_lowercase t -> reads_as true s t -> s = t.
Proof.
  unfold is_lowercase. revert t.
  induction s as [|a s IH]; intros [|c t] Hs Ht H; cbn in H;
    try contradiction; auto.
  destruct H as [E H]. simpl in Hs, Ht.
  injection Hs as Ha Hs. injection Ht as Hc Ht.
  apply Ascii.eqb_eq in E. f_equal; auto using lower_canonical.
Qed.

Lemma lowercase_app (s1 s2 : string) :
  is_lowercase (s1 ++ s2) -> is_lowercase s1 /\ is_lowercase s2.
Proof.
  unfold is_lowercase. induction s1 as [|c s1 IH]; simpl; intros H; auto.
  injection H as Hc H. apply IH in H as [H1 H2]. split; congruence.
Qed.

Lemma string_length_app (s1 s2 : string) :
  String.length (s1 ++ s2) = (String.length s1 + String.length s2)%nat.
Proof. induction s1 as [|c s1 IH]; simpl; congruence. Qed.

Lemma substring_app (t post : string) :
  substring 0 (String.length t) (t ++ post) = t.
Proof.
  induction t as [|c t IH]; simpl.
  - now destruct post.
  - now rewrite IH.
Qed.

Lemma consumed_app (t post : string) : consumed (t ++ post) post = t.
Proof.
  unfold consumed. rewrite string_length_app.
  replace (String.length t + String.length post - String.length post)%nat
    with (String.length t) by lia.
  apply substring_app.
Qed.

(** Where the word pattern of a lower-case name matches a lower-case text,
    the name stands alone, and it is the matched text. *)
Lemma exec_word_inv (name words : string) (f : found) :
  is_lowercase name -> is_lowercase words ->
  exec true (Extractor.wordRegex name) words = Some f ->
  standalone name words /\ matched f = name.
Proof.
  intros Hname Hwords H. unfold exec in H.
  apply search_found in H as [pre [Hs Hrun]].
  unfold Extractor.wordRegex, Extractor.escaped in Hrun.
  cbn [seqs run prev rest] in Hrun.
  destruct (xorb (is_word (last_or None pre)) (is_word (next (from f))))
           eqn:B1; [|discriminate].
  apply run_lit_inv in Hrun as (t & post & Hfrom & Hr & Hk).
  cbn [run prev rest] in Hk.
  destruct (xorb (is_word (last_or (last_or None pre) t)) (is_word (next post)))
           eqn:B2; [|discriminate].
  injection Hk as Hupto.
  assert (Ht : t = name).
  { symmetry. apply reads_as_lower; auto.
    rewrite Hs, Hfrom in Hwords.
    apply lowercase_app in Hwords as [_ Hwords].
    now apply lowercase_app in Hwords as [Hwords _]. }
  subst t. split.
  - exists pre, post. unfold boundary. rewrite Hs, Hfrom.
    rewrite Hfrom in B1. auto.
  - unfold matched. rewrite <- Hupto, Hfrom. cbn [rest].
    apply consumed_app.
Qed.

End LiteralMatches.

(** X11. The exact-vocabulary pass reports exactly the vocabulary names that
    stand alone (between word boundaries) in the lower-cased text, each as a
    mention of high confidence and source [common_name] whose [originalText]
    is the name itself: the match is taken from the lower-cased text, so the
    spelling of the message is not kept. *)
Theorem findExactMatches_exactly (text : string) (m : PlantMention) :
  In m (Extractor.findExactMatches text)
  <-> exists name : string,
        In name Extractor.COMMON_PLANT_NAMES
        /\ standalone name (JsString.toLowerCase text)
        /\ m = mkMention name name high common_name.
Proof.
  assert (Hfwd : forall m',
             In m' (Extractor.findExactMatches text) ->
             exists name : string,
               In name Extractor.COMMON_PLANT_NAMES
               /\ standalone name (JsString.toLowerCase text)
               /\ m' = mkMention name name high common_name).
  { intros m' H. unfold Extractor.findExactMatches in H.
    apply in_flat_map in H as [name [Hin H]].
    apply (Permutation_in _ sortedNames_perm) in Hin.
    destruct (Regex.exec true (Extractor.wordRegex name)
                         (JsString.toLowerCase text)) as [f|] eqn:E;
      [|destruct H].
    destruct H as [<-|[]].
    pose proof (common_names_lowercase name Hin) as Hname.
    destruct (exec_word_inv name _ f Hname (toLowerCase_idem text) E)
      as [Hst Hm].
    exists name. rewrite Hm, Hname. auto. }
  split; [apply Hfwd|].
  intros (name & Hin & Hst & ->).
  destruct (findExactMatches_finds text name Hin Hst) as [original H].
  destruct (Hfwd _ H) as (name' & _ & _ & E).
  injection E as E1 E2. subst. exact H.
Qed.

(** ** Mention extractor: what the pattern pass reports *)

Section PatternPass.
Import Regex Extractor.

Lemma not_capital_lower (c : ascii) :
  class_mem [CRange "A" "Z"] (JsString.toLowerChar c) = false.
Proof.
  destruct c as [b0 b1 b2 b3 b4 b5 b6 b7].
  destruct b0, b1, b2, b3, b4, b5, b6, b7; reflexivity.
Qed.

Lemma search_bol_later (ic : bool) (r : re) (s : string) (c : ascii) :
  search ic (Seq Bol r) (Some c) s = None.
Proof.
  revert c. induction s as [|c' s IH]; intros c; rewrite search_unfold;
    cbn [run prev]; auto.
Qed.

(** The test for a capitalized binomial sees the lower-cased candidate, so
    it never succeeds. *)
Lemma binomial_form_lower (s : string) :
  test false binomial_form (JsString.toLowerCase s) = false.
Proof.
  unfold test, exec, binomial_form. cbn [seqs].
  rewrite search_unfold. cbn [run prev rest]. unfold AZ at 1.
  cbn [run]. unfold one. cbn [rest caps].
  destruct s as [|c s]; cbn [JsString.toLowerCase]; [reflexivity|].
  unfold class_mem_flag. rewrite not_capital_lower.
  now rewrite search_bol_later.
Qed.

Lemma assess_lower (candidate text : string) :
  assessPlantNameConfidence (JsString.toLowerCase candidate) text
  = if has COMMON_PLANT_NAMES (JsString.toLowerCase candidate) then high
    else if test true (contextPattern (JsString.toLowerCase candidate)) text
         then medium else low.
Proof.
  unfold assessPlantNameConfidence.
  rewrite (toLowerCase_idem candidate), binomial_form_lower. reflexivity.
Qed.

Lemma patternStep_inv (text : string) (acc : list PlantMention * list string)
      (f : found) :
  pattern_inv text acc -> pattern_inv text (patternStep text acc f).
Proof.
  intros Hacc. unfold patternStep. destruct acc as [matches processed].
  destruct (capture 1 f) as [group|]; [|exact Hacc].
  destruct (negb (JsString.truthy (JsString.trim group))
            || Nat.ltb (String.length (JsString.trim group)) 3
            || Nat.ltb 30 (String.length (JsString.trim group)))%bool eqn:Elen;
    [exact Hacc|].
  destruct (has processed (JsString.toLowerCase (JsString.trim group)))
           eqn:Eseen; [exact Hacc|].
  destruct Hacc as (Hall & Hsub & Hnd). cbn [fst snd] in *.
  assert (Hkeep : pattern_inv text
                    (matches,
                     processed ++ [JsString.toLowerCase (JsString.trim group)])).
  { split; [exact Hall|]. split; [|exact Hnd].
    intros m Hm. cbn [fst snd]. apply in_or_app. left. now apply Hsub. }
  destruct (isCommonWord (JsString.toLowerCase (JsString.trim group)))
           eqn:Estop; [exact Hkeep|].
  rewrite assess_lower.
  apply orb_false_iff in Elen as [Elen E30].
  apply orb_false_iff in Elen as [_ E3].
  apply Nat.ltb_ge in E3, E30.
  assert (Hnew : ~ In (JsString.toLowerCase (JsString.trim group))
                      (map normalizedName matches)).
  { intros H. apply in_map_iff in H as [m [E Hm]].
    apply Hsub in Hm. rewrite E in Hm. apply has_false in Eseen. auto. }
  destruct (has COMMON_PLANT_NAMES (JsString.toLowerCase (JsString.trim group)))
           eqn:Evoc.
  - cbn [orb]. split; [|split]; cbn [fst snd].
    + apply Forall_app. split; [exact Hall|]. constructor; [|constructor].
      unfold pattern_mention.
      cbn [source normalizedName originalText confidence].
      split; [reflexivity|]. split; [reflexivity|].
      split; [apply trim_idem|]. split; [lia|]. split; [exact Estop|].
      left. split; [reflexivity|]. now apply has_true.
    + intros m Hm. apply in_app_or in Hm as [Hm|[<-|[]]].
      * apply in_or_app. left. now apply Hsub.
      * apply in_or_app. right. now left.
    + rewrite map_app. now apply nodup_snoc.
  - rewrite orb_false_r.
    destruct (test true
                   (contextPattern (JsString.toLowerCase (JsString.trim group)))
                   text) eqn:Ectx; [|exact Hkeep].
    split; [|split]; cbn [fst snd].
    + apply Forall_app. split; [exact Hall|]. constructor; [|constructor].
      unfold pattern_mention.
      cbn [source normalizedName originalText confidence].
      split; [reflexivity|]. split; [reflexivity|].
      split; [apply trim_idem|]. split; [lia|]. split; [exact Estop|].
      right. split; [reflexivity|]. split; [now apply has_false | exact Ectx].
    + intros m Hm. apply in_app_or in Hm as [Hm|[<-|[]]].
      * apply in_or_app. left. now apply Hsub.
      * apply in_or_app. right. now left.
    + rewrite map_app. now apply nodup_snoc.
Qed.

Lemma findPatternMatches_inv (text : string) :
  pattern_inv text
    (fold_left
       (fun acc p =>
          fold_left (patternStep text)
                    (exec_all (S (String.length text)) (fst p) (snd p)
                              None text)
                    acc)
       PLANT_PATTERNS ([], [])).
Proof.
  assert (Hinner : forall fs acc,
             pattern_inv text acc ->
             pattern_inv text (fold_left (patternStep text) fs acc)).
  { induction fs as [|f fs IH]; intros acc Hacc; simpl; auto.
    apply IH. now apply patternStep_inv. }
  assert (Houter : forall ps acc,
             pattern_inv text acc ->
             pattern_inv text
               (fold_left
                  (fun acc p =>
                     fold_left (patternStep text)
                               (exec_all (S (String.length text))
                                         (fst p) (snd p) None text)
                               acc)
                  ps acc)).
  { induction ps as [|p ps IH]; intros acc Hacc; simpl; auto. }
  apply Houter. split; [constructor|]. split; [intros m []|constructor].
Qed.

End PatternPass.

(** X12. Every mention of the pattern pass has source [pattern], a trimmed
    candidate of 3 to 30 characters as [originalText], its lower-cased form
    as [normalizedName], and a name that is no stop word; it is high exactly
    for a vocabulary name and medium otherwise, then with a context word
    near it; no name is reported twice. The rule that rates a capitalized
    binomial as high never applies: it is tested on the lower-cased
    candidate. *)
Theorem findPatternMatches_shape (text : string) :
  Forall (pattern_mention text) (Extractor.findPatternMatches text)
  /\ NoDup (map normalizedName (Extractor.findPatternMatches text))
  /\ (forall candidate : string,
         Regex.test false Extractor.binomial_form
                    (JsString.toLowerCase candidate) = false).
Proof.
  destruct (findPatternMatches_inv text) as (Hall & _ & Hnd).
  split; [exact Hall|]. split; [exact Hnd|]. apply binomial_form_lower.
Qed.

(** ** Mention extractor: where a mention comes from *)

Section MentionSources.
Import Extractor.

Lemma findRegistryMatches_source registry text m :
  In m (findRegistryMatches registry text) ->
  source m = exact_match /\ confidence m <> low.
Proof.
  unfold findRegistryMatches. intros H.
  apply in_flat_map in H as [plant [_ H]]. unfold registryMatchesOf in H.
  apply in_app_or in H as [H|H]; [|apply in_app_or in H as [H|H]].
  - destruct (commonName plant); [|destruct H].
    destruct (_ && _)%bool; [|destruct H].
    destruct H as [<-|[]]. split; [reflexivity | discriminate].
  - destruct (JsString.includes _ _); [|destruct H].
    destruct H as [<-|[]]. split; [reflexivity | discriminate].
  - cbv zeta in H. destruct (_ && _)%bool; [|destruct H].
    destruct H as [<-|[]]. split; [reflexivity | discriminate].
Qed.

Lemma findExactMatches_source text m :
  In m (findExactMatches text) -> source m = common_name.
Proof.
  unfold findExactMatches. intros H. apply in_flat_map in H as [name [_ H]].
  destruct (Regex.exec _ _ _); [|destruct H].
  destruct H as [<-|[]]. reflexivity.
Qed.

Lemma findPatternMatches_source text m :
  In m (findPatternMatches text) -> source m = pattern /\ confidence m <> low.
Proof.
  intros H. destruct (findPatternMatches_inv text) as (Hall & _).
  rewrite Forall_forall in Hall. apply Hall in H.
  destruct H as (Hs & _ & _ & _ & _ & [[Hc _]|[Hc _]]); rewrite Hc;
    split; auto; discriminate.
Qed.

End MentionSources.

(** X13. Whatever the text and the registry, [extractPlantMentions] returns
    no mention of confidence [low] and none of source [context]; the source
    of a mention names the pass that found it: [exact_match] the registry
    pass, [common_name] the exact-vocabulary pass, [pattern] the pattern
    pass. *)
Theorem extractPlantMentions_sources
        (registry : ConversationPlantRegistry.t) (text : string) :
  Forall (fun m => confidence m <> low /\ pass_of registry text m)
         (Extractor.extractPlantMentions registry text).
Proof.
  apply Forall_forall. intros m H.
  rewrite extract_pushed in H.
  apply (Permutation_in _ (sort_by_confidence_perm _)) in H.
  unfold pushed in H. unfold pass_of.
  apply pushNew_from in H as [H|H].
  - apply pushNew_from in H as [H|H].
    + apply pushNew_from in H as [[]|H].
      destruct (findRegistryMatches_source _ _ _ H) as [Hs Hc].
      rewrite Hs. auto.
    + pose proof (findExactMatches_source _ _ H) as Hs.
      pose proof (findExactMatches_high _ _ H) as Hc.
      rewrite Hs, Hc. split; [discriminate | exact H].
  - destruct (findPatternMatches_source _ _ H) as [Hs Hc].
    rewrite Hs. auto.
Qed.

(** ** Mention extractor: the mentions of a conversation *)

Section History.
Import Extractor.

(** [pushNew] only appends. *)
Lemma pushNew_appends (matches : list PlantMention) acc :
  exists ext : list PlantMention,
    fst (pushNew acc matches) = fst acc ++ ext
    /\ snd (pushNew acc matches) = snd acc ++ map normalizedName ext.
Proof.
  revert acc. unfold pushNew.
  induction matches as [|m ms IH]; intros acc; simpl.
  - exists []. now rewrite !app_nil_r.
  - destruct (has (snd acc) (normalizedName m)); [apply IH|].
    destruct (IH (fst acc ++ [m], snd acc ++ [normalizedName m]))
      as (ext & H1 & H2).
    exists (m :: ext). cbn [fst snd] in H1, H2.
    rewrite H1, H2, <- !app_assoc. auto.
Qed.

Lemma firstn_covered {A} (n : nat) (l ext : list A) :
  (n <= length l)%nat -> firstn n (l ++ ext) = firstn n l.
Proof.
  intros H. rewrite firstn_app.
  replace (n - length l)%nat with 0%nat by lia.
  cbn [firstn]. apply app_nil_r.
Qed.

Lemma cut_full (limit : Z) (acc : list PlantMention * list string) :
  length (fst acc) = length (snd acc) ->
  (Z.of_nat (length (fst (cut limit acc))) <? limit) = false ->
  (Z.to_nat limit <= length (fst acc))%nat.
Proof.
  unfold cut. cbn [fst]. rewrite length_firstn. intros _ H.
  apply Z.ltb_ge in H. lia.
Qed.

Lemma cut_room (limit : Z) (acc : list PlantMention * list string) :
  length (fst acc) = length (snd acc) ->
  (Z.of_nat (length (fst (cut limit acc))) <? limit) = true ->
  cut limit acc = acc /\ (length (fst acc) < Z.to_nat limit)%nat.
Proof.
  unfold cut. cbn [fst]. rewrite length_firstn. intros Hlen H.
  apply Z.ltb_lt in H.
  assert (length (fst acc) < Z.to_nat limit)%nat by lia.
  split; [|assumption].
  rewrite !firstn_all2 by lia. now destruct acc.
Qed.

Lemma pushNew_lengths (matches : list PlantMention) acc :
  length (fst acc) = length (snd acc) ->
  length (fst (pushNew acc matches)) = length (snd (pushNew acc matches)).
Proof.
  intros H. destruct (pushNew_appends matches acc) as (ext & -> & ->).
  rewrite !length_app, length_map. lia.
Qed.

Lemma cut_pushNew_full (limit : Z) (matches : list PlantMention) acc :
  length (fst acc) = length (snd acc) ->
  (Z.to_nat limit <= length (fst acc))%nat ->
  cut limit (pushNew acc matches) = cut limit acc.
Proof.
  intros Hlen H. destruct (pushNew_appends matches acc) as (ext & H1 & H2).
  unfold cut. rewrite H1, H2, !firstn_covered by lia. reflexivity.
Qed.

Lemma pushUpTo_cut (limit : Z) (matches : list PlantMention) :
  forall acc,
    length (fst acc) = length (snd acc) ->
    pushUpTo limit (cut limit acc) matches = cut limit (pushNew acc matches).
Proof.
  induction matches as [|m ms IH]; intros acc Hlen; [reflexivity|].
  change (pushNew acc (m :: ms)) with (pushNew (pushNew acc [m]) ms).
  change (pushUpTo limit (cut limit acc) (m :: ms))
    with (pushUpTo limit
            (if (negb (has (snd (cut limit acc)) (normalizedName m))
                 && (Z.of_nat (length (fst (cut limit acc))) <? limit))%bool
             then (fst (cut limit acc) ++ [m],
                   snd (cut limit acc) ++ [normalizedName m])
             else cut limit acc)
            ms).
  assert (Hlen' : length (fst (pushNew acc [m]))
                  = length (snd (pushNew acc [m])))
    by now apply pushNew_lengths.
  rewrite <- (IH _ Hlen'). f_equal.
  destruct (Z.of_nat (length (fst (cut limit acc))) <? limit) eqn:E.
  - apply cut_room in E as [E Hroom]; [|exact Hlen]. rewrite E.
    rewrite andb_true_r. unfold pushNew. cbn [fold_left].
    destruct (has (snd acc) (normalizedName m)); cbn [negb]; [now rewrite E|].
    unfold cut. cbn [fst snd].
    rewrite !firstn_all2; auto; rewrite length_app; cbn [length]; lia.
  - rewrite andb_false_r.
    apply cut_full in E; [|exact Hlen].
    symmetry. now apply cut_pushNew_full.
Qed.

Lemma fold_pushNew_lengths registry (texts : list string) :
  forall acc,
    length (fst acc) = length (snd acc) ->
    length (fst (fold_left
                   (fun a text =>
                      pushNew a (extractPlantMentions registry text))
                   texts acc))
    = length (snd (fold_left
                     (fun a text =>
                        pushNew a (extractPlantMentions registry text))
                     texts acc)).
Proof.
  induction texts as [|t ts IH]; intros acc H; simpl; auto.
  apply IH. now apply pushNew_lengths.
Qed.

Lemma cut_fold_full registry (limit : Z) (texts : list string) :
  forall acc,
    length (fst acc) = length (snd acc) ->
    (Z.to_nat limit <= length (fst acc))%nat ->
    cut limit (fold_left
                 (fun a text => pushNew a (extractPlantMentions registry text))
                 texts acc)
    = cut limit acc.
Proof.
  induction texts as [|t ts IH]; intros acc Hlen H; simpl; auto.
  rewrite IH.
  - now apply cut_pushNew_full.
  - now apply pushNew_lengths.
  - destruct (pushNew_appends (extractPlantMentions registry t) acc)
      as (ext & -> & _).
    rewrite length_app. lia.
Qed.

Lemma historyLoop_cut registry (limit : Z) (texts : list string) :
  forall acc,
    length (fst acc) = length (snd acc) ->
    historyLoop registry limit texts (cut limit acc)
    = cut limit (fold_left
                   (fun a text =>
                      pushNew a (extractPlantMentions registry text))
                   (filter JsString.truthy texts) acc).
Proof.
  induction texts as [|t ts IH]; intros acc Hlen; [reflexivity|].
  cbn [historyLoop filter].
  destruct (Z.of_nat (length (fst (cut limit acc))) <? limit) eqn:E.
  - destruct (JsString.truthy t); cbn [negb fold_left].
    + rewrite pushUpTo_cut by exact Hlen. apply IH.
      now apply pushNew_lengths.
    + now apply IH.
  - apply cut_full in E; [|exact Hlen].
    symmetry. now apply cut_fold_full.
Qed.

Lemma fold_pushNew_inv registry (texts : list string) :
  forall acc,
    push_inv acc ->
    push_inv (fold_left
                (fun a text => pushNew a (extractPlantMentions registry text))
                texts acc).
Proof.
  induction texts as [|t ts IH]; intros acc H; simpl; auto.
  apply IH. now apply pushNew_inv.
Qed.

End History.

(** X14. [extractPlantMentionsFromHistory(messages, limit)] returns the
    first [limit] entries of what the history scan of the context provider
    ([extractMentionsFromHistory]) collects from the non-empty messages
    taken newest first. So it returns at most [limit] mentions (none for
    [limit <= 0]), and no two of them share a [normalizedName]. *)
Theorem extractPlantMentionsFromHistory_prefix
        (registry : ConversationPlantRegistry.t) (messages : list string)
        (limit : Z) :
  let found := Extractor.extractPlantMentionsFromHistory
                 registry messages limit in
  found = firstn (Z.to_nat limit)
                 (PlantContext.extractMentionsFromHistory
                    registry (filter JsString.truthy (rev messages)))
  /\ Z.of_nat (length found) <= Z.max 0 limit
  /\ NoDup (map normalizedName found).
Proof.
  intros found.
  assert (E : found
              = firstn (Z.to_nat limit)
                       (PlantContext.extractMentionsFromHistory
                          registry (filter JsString.truthy (rev messages)))).
  { unfold found, Extractor.extractPlantMentionsFromHistory,
      PlantContext.extractMentionsFromHistory.
    pose proof (historyLoop_cut registry limit (rev messages) ([], [])
                                eq_refl) as H.
    unfold cut at 1 in H. cbn [fst snd] in H. rewrite !firstn_nil in H.
    rewrite H. reflexivity. }
  split; [exact E|]. rewrite E. split.
  - rewrite length_firstn. lia.
  - rewrite <- firstn_map. apply nodup_firstn.
    unfold PlantContext.extractMentionsFromHistory.
    destruct (fold_pushNew_inv registry (filter JsString.truthy (rev messages))
                               ([], []) push_inv_nil) as [Hs Hn].
    now rewrite <- Hs.
Qed.

(** ** The pre-filter [isPlantRelatedQuery] *)

Section Substrings.

Lemma prefix_app (s post : string) : String.prefix s (s ++ post) = true.
Proof.
  induction s as [|c s IH]; simpl; [now destruct post|].
  destruct (ascii_dec c c); [exact IH | contradiction].
Qed.

Lemma prefix_weaken (sub s post : string) :
  String.prefix sub s = true -> String.prefix sub (s ++ post) = true.
Proof.
  revert s. induction sub as [|a sub IH]; intros s H;
    [now destruct (s ++ post)%string|].
  destruct s as [|c s]; [discriminate|]. cbn in *.
  destruct (ascii_dec a c); [now apply IH | discriminate].
Qed.

Lemma includes_append (s sub post : string) :
  JsString.includes s sub = true -> JsString.includes (s ++ post) sub = true.
Proof.
  induction s as [|c s IH]; intros H.
  - cbn in H. rewrite orb_false_r in H.
    destruct sub; [apply includes_empty | discriminate].
  - cbn [JsString.includes] in H. apply orb_true_iff in H as [H|H].
    + change (String c s ++ post)%string with (String c (s ++ post)).
      cbn [JsString.includes]. apply orb_true_iff. left.
      now apply (prefix_weaken sub (String c s) post).
    + change (String c s ++ post)%string with (String c (s ++ post)).
      cbn [JsString.includes]. apply orb_true_iff. right. now apply IH.
Qed.

Lemma includes_prepend (pre s sub : string) :
  JsString.includes s sub = true -> JsString.includes (pre ++ s) sub = true.
Proof.
  intros H. induction pre as [|c pre IH]; [exact H|].
  change (String c pre ++ s)%string with (String c (pre ++ s)).
  cbn [JsString.includes]. apply orb_true_iff. now right.
Qed.

Lemma includes_self (s : string) : JsString.includes s s = true.
Proof.
  destruct s as [|c s]; [reflexivity|]. cbn [JsString.includes].
  apply orb_true_iff. left.
  assert (E : (String c s ++ "")%string = String c s)
    by (clear; induction (String c s) as [|a s' IH]; simpl; congruence).
  rewrite <- E at 2. apply prefix_app.
Qed.

Lemma includes_inside (pre s post : string) :
  JsString.includes (pre ++ s ++ post) s = true.
Proof. apply includes_prepend, includes_append, includes_self. Qed.

Lemma existsb_includes_weaken (words : list string) (pre s post : string) :
  existsb (JsString.includes s) words = true ->
  existsb (JsString.includes (pre ++ s ++ post)) words = true.
Proof.
  rewrite !existsb_exists. intros [w [Hw H]]. exists w. split; [exact Hw|].
  now apply includes_prepend, includes_append.
Qed.

End Substrings.

(** X15. The pre-filter accepts every text in which the exact-vocabulary
    pass finds a plant, and it is monotone: a text that contains a
    plant-related text is plant-related. *)
Theorem isPlantRelatedQuery_covers (text : string) :
  (Extractor.findExactMatches text <> [] ->
   Extractor.isPlantRelatedQuery text = true)
  /\ (forall pre post : string,
         Extractor.isPlantRelatedQuery text = true ->
         Extractor.isPlantRelatedQuery (pre ++ text ++ post) = true).
Proof.
  split.
  - intros Hne.
    destruct (Extractor.findExactMatches text) as [|m ms] eqn:E;
      [contradiction|].
    assert (Hin : In m (Extractor.findExactMatches text))
      by (rewrite E; now left).
    unfold Extractor.findExactMatches in Hin.
    apply in_flat_map in Hin as [name [Hname Hin]].
    apply (Permutation_in _ sortedNames_perm) in Hname.
    destruct (Regex.exec true (Extractor.wordRegex name)
                         (JsString.toLowerCase text)) as [f|] eqn:Ex;
      [|destruct Hin].
    destruct (exec_word_inv name _ f (common_names_lowercase name Hname)
                            (toLowerCase_idem text) Ex)
      as [(pre & post & Htext & _) _].
    unfold Extractor.isPlantRelatedQuery. apply orb_true_iff. right.
    apply existsb_exists. exists name. split; [exact Hname|].
    rewrite Htext. apply includes_inside.
  - intros pre post. unfold Extractor.isPlantRelatedQuery.
    rewrite !toLowerCase_app, !orb_true_iff.
    intros [H|H]; [left|right]; now apply existsb_includes_weaken.
Qed.

Lemma isPlantRelatedQuery_covers_witness :
  Extractor.isPlantRelatedQuery "I bought a Rose." = true
  /\ Extractor.isPlantRelatedQuery "Hey! my Soil is dry, ok?" = true.
Proof.
  split.
  - apply (proj1 (isPlantRelatedQuery_covers "I bought a Rose.")).
    vm_compute. discriminate.
  - apply (proj2 (isPlantRelatedQuery_covers "Soil") "Hey! my " " is dry, ok?").
    reflexivity.
Defined.

(** ** When the plant-information action triggers *)

Section Trigger.
Import ConversationPlantRegistry.

(** A registry that holds a profile has a non-empty insertion queue. *)
Lemma addPlant_queue (key : string) (p : ProcessedPlantData) (r : t) :
  (plants r = [] \/ mentionOrder r <> []) ->
  plants (addPlant key p r) <> [] /\ mentionOrder (addPlant key p r) <> [].
Proof.
  intros H. unfold addPlant.
  set (k := JsString.trim (JsString.toLowerCase key)).
  assert (Hset : forall m : JsMap.t ProcessedPlantData, JsMap.set m k p <> [])
    by (intros [|[k' v] m]; simpl; [|destruct (String.eqb k' k)]; discriminate).
  split; [apply Hset|]. cbn [mentionOrder].
  destruct (JsMap.has (plants r) k) eqn:E; cbn [negb mentionOrder].
  - destruct H as [H|H]; [|exact H].
    unfold JsMap.has in E. rewrite H in E. discriminate.
  - intros C. now apply app_eq_nil in C as [_ C].
Qed.

Lemma addAll_queue (ops : list (string * ProcessedPlantData)) (r : t) :
  plants r <> [] /\ mentionOrder r <> [] ->
  plants (addAll ops r) <> [] /\ mentionOrder (addAll ops r) <> [].
Proof.
  revert r. unfold addAll.
  induction ops as [|[k p] ops IH]; intros r H; simpl; auto.
  apply IH. apply addPlant_queue. right. tauto.
Qed.

Lemma recent_one (r : t) :
  reg_inv r -> mentionOrder r <> [] -> length (getRecentPlants 1 r) = 1%nat.
Proof.
  intros (_ & _ & Hin) Hne. unfold getRecentPlants.
  rewrite length_rev. unfold JsString.slice_from.
  rewrite clamp_index_neg by lia.
  rewrite <- (Forall2_length (recent_profiles r _ (fun k H =>
                Hin k (in_skipn_in _ _ k H)))).
  rewrite length_skipn. destruct (mentionOrder r); [contradiction|].
  cbn [length]. lia.
Qed.

End Trigger.

(** X16. With the client initialized, the registry decides how the
    plant-information action triggers. Once a profile has been registered,
    the action triggers on exactly the plant-related messages, with or
    without a mention or a trigger phrase in them. While the registry is
    empty it triggers on the plant-related messages that hold both a
    mention and a trigger phrase. Without an initialized client it never
    triggers. *)
Theorem shouldTriggerPlantInfo_decided
        (ops : list (string * ProcessedPlantData)) (messageText : string) :
  let registry :=
    ConversationPlantRegistry.addAll ops ConversationPlantRegistry.new in
  PlantInfo.shouldTriggerPlantInfo true registry messageText
  = match ops with
    | [] =>
        (Extractor.isPlantRelatedQuery messageText
         && (Z.of_nat (length (Extractor.extractPlantMentions
                                 ConversationPlantRegistry.new messageText))
             >? 0)
         && existsb (JsString.includes (JsString.toLowerCase messageText))
                    PlantInfo.PLANT_INFO_TRIGGERS)%bool
    | _ :: _ => Extractor.isPlantRelatedQuery messageText
    end
  /\ PlantInfo.shouldTriggerPlantInfo false registry messageText = false.
Proof.
  intros registry. split; [|reflexivity].
  unfold PlantInfo.shouldTriggerPlantInfo. cbn [negb].
  destruct (JsString.truthy messageText) eqn:Etext; cbn [negb].
  2:{ destruct messageText; [|discriminate]. now destruct ops. }
  destruct (Extractor.isPlantRelatedQuery messageText); cbn [negb];
    [|now destruct ops].
  destruct ops as [|[k p] ops].
  - unfold registry. cbn [ConversationPlantRegistry.addAll fold_left].
    change (ConversationPlantRegistry.size ConversationPlantRegistry.new >? 0)
      with false.
    change (Z.of_nat (length (ConversationPlantRegistry.getRecentPlants
                                1 ConversationPlantRegistry.new)) >? 0)
      with false.
    now rewrite !orb_false_r.
  - assert (Hq : ConversationPlantRegistry.plants registry <> []
                 /\ ConversationPlantRegistry.mentionOrder registry <> []).
    { unfold registry.
      change (ConversationPlantRegistry.addAll ((k, p) :: ops)
                                               ConversationPlantRegistry.new)
        with (ConversationPlantRegistry.addAll
                ops (ConversationPlantRegistry.addPlant
                       k p ConversationPlantRegistry.new)).
      apply addAll_queue, addPlant_queue. now left. }
    assert (Hinv : reg_inv registry) by apply addAll_inv, reg_inv_new.
    rewrite (recent_one registry Hinv (proj2 Hq)).
    assert (Hsize : (ConversationPlantRegistry.size registry >? 0) = true).
    { unfold ConversationPlantRegistry.size, JsMap.size.
      destruct (ConversationPlantRegistry.plants registry);
        [now destruct Hq|].
      apply Z.gtb_lt. cbn [length]. lia. }
    rewrite Hsize. change (Z.of_nat 1 >? 0) with true.
    now rewrite !orb_true_r.
Qed.

(** ** Context provider: merging the mentions *)

Section Deduplicate.
Import PlantContext.

Lemma jsmap_in_set {V} (m : JsMap.t V) (k k' : string) (v v' : V) :
  In (k', v') (JsMap.set m k v) -> (k' = k /\ v' = v) \/ In (k', v') m.
Proof.
  induction m as [|[k0 v0] m IH]; simpl.
  - intros [[= <- <-]|[]]. now left.
  - destruct (String.eqb k0 k) eqn:E; simpl.
    + apply String.eqb_eq in E. subst k0.
      intros [[= <- <-]|H]; auto.
    + intros [H|H]; auto. apply IH in H as [H|H]; auto.
Qed.

Lemma pushNew_snoc (seen : list PlantMention) (m : PlantMention) acc :
  snd (Extractor.pushNew acc (seen ++ [m]))
  = if Extractor.has (snd (Extractor.pushNew acc seen)) (normalizedName m)
    then snd (Extractor.pushNew acc seen)
    else snd (Extractor.pushNew acc seen) ++ [normalizedName m].
Proof.
  unfold Extractor.pushNew. rewrite fold_left_app. cbn [fold_left].
  now destruct (Extractor.has _ _).
Qed.

Lemma keepBetter_inv (seen : list PlantMention) (m : PlantMention)
      (mentionMap : JsMap.t PlantMention) :
  dedup_inv seen mentionMap ->
  dedup_inv (seen ++ [m]) (keepBetter mentionMap m).
Proof.
  intros (Hkeys & Hwf & Hent & Hbest).
  assert (Hput :
            (forall m0, In m0 seen ->
                        normalizedName m0 = normalizedName m -> by_rank m m0) ->
            dedup_inv (seen ++ [m])
                      (JsMap.set mentionMap (normalizedName m) m)).
  { intros Hlow. split; [|split; [|split]].
    - rewrite pushNew_snoc, <- Hkeys, jsmap_keys_set.
      unfold JsMap.has.
      destruct (JsMap.get mentionMap (normalizedName m)) eqn:E.
      + assert (In (normalizedName m) (JsMap.keys mentionMap)).
        { apply jsmap_has_true. unfold JsMap.has. now rewrite E. }
        now rewrite (proj2 (has_true _ _) H).
      + apply jsmap_get_None in E.
        now rewrite (proj2 (has_false _ _) E).
    - now apply jsmap_wf_set.
    - intros k v H. apply jsmap_in_set in H as [[-> ->]|H].
      + split; [reflexivity|]. apply in_or_app. right. now left.
      + destruct (Hent k v H) as [H1 H2]. split; [exact H1|].
        apply in_or_app. now left.
    - intros m0 H0. apply in_app_or in H0 as [H0|[<-|[]]].
      + destruct (String.eqb (normalizedName m) (normalizedName m0)) eqn:E.
        * apply String.eqb_eq in E. rewrite <- E, jsmap_get_set_same.
          exists m. split; [reflexivity|]. now apply Hlow.
        * apply String.eqb_neq in E.
          rewrite jsmap_get_set_other by exact E. now apply Hbest.
      + rewrite jsmap_get_set_same. exists m. split; [reflexivity|].
        unfold by_rank. lia. }
  unfold keepBetter.
  destruct (JsMap.get mentionMap (normalizedName m)) as [existing|] eqn:E.
  - destruct (Extractor.confidenceOrder (confidence m)
              <? Extractor.confidenceOrder (confidence existing)) eqn:Elt.
    + apply Hput. intros m0 H0 Hname.
      destruct (Hbest m0 H0) as (v & Hv & Hr). rewrite Hname, E in Hv.
      injection Hv as <-. apply Z.ltb_lt in Elt. unfold by_rank in *. lia.
    + apply Z.ltb_ge in Elt. split; [|split; [|split]].
      * rewrite pushNew_snoc, <- Hkeys.
        assert (In (normalizedName m) (JsMap.keys mentionMap)).
        { apply jsmap_has_true. unfold JsMap.has. now rewrite E. }
        now rewrite (proj2 (has_true _ _) H).
      * exact Hwf.
      * intros k v H. destruct (Hent k v H) as [H1 H2]. split; [exact H1|].
        apply in_or_app. now left.
      * intros m0 H0. apply in_app_or in H0 as [H0|[<-|[]]]; auto.
        exists existing. split; [exact E | exact Elt].
  - apply Hput. intros m0 H0 Hname.
    destruct (Hbest m0 H0) as (v & Hv & _). rewrite Hname, E in Hv.
    discriminate.
Qed.

Lemma fold_keepBetter_inv (mentions : list PlantMention) :
  forall seen mentionMap,
    dedup_inv seen mentionMap ->
    dedup_inv (seen ++ mentions) (fold_left keepBetter mentions mentionMap).
Proof.
  induction mentions as [|m ms IH]; intros seen mentionMap H; simpl.
  - now rewrite app_nil_r.
  - replace (seen ++ m :: ms) with ((seen ++ [m]) ++ ms)
      by now rewrite <- app_assoc.
    apply IH. now apply keepBetter_inv.
Qed.

Lemma dedup_inv_result (mentions : list PlantMention) :
  dedup_inv mentions (fold_left keepBetter mentions JsMap.empty).
Proof.
  apply (fold_keepBetter_inv mentions [] JsMap.empty).
  split; [reflexivity|]. split; [constructor|].
  split; [intros k v []|intros m []].
Qed.

Lemma entry_names (mentionMap : JsMap.t PlantMention) :
  (forall k v, In (k, v) mentionMap -> normalizedName v = k) ->
  map normalizedName (JsMap.values mentionMap) = JsMap.keys mentionMap.
Proof.
  unfold JsMap.values, JsMap.keys.
  induction mentionMap as [|[k v] m IH]; intros H; simpl; auto.
  f_equal.
  - apply H. now left.
  - apply IH. intros k' v' H'. apply H. now right.
Qed.

End Deduplicate.

(** X17. [deduplicateMentions] keeps one mention per [normalizedName], the
    names in the order of their first occurrence (the order in which the
    loops of the extractor record names). Every mention it returns is one
    of the given mentions, and every given mention is represented by a
    returned mention of the same name whose confidence is at least as
    good. *)
Theorem deduplicateMentions_best (mentions : list PlantMention) :
  let kept := PlantContext.deduplicateMentions mentions in
  map normalizedName kept = snd (Extractor.pushNew ([], []) mentions)
  /\ NoDup (map normalizedName kept)
  /\ incl kept mentions
  /\ Forall (fun m => exists m', In m' kept
                                 /\ normalizedName m' = normalizedName m
                                 /\ by_rank m' m) mentions.
Proof.
  intros kept. unfold kept, PlantContext.deduplicateMentions.
  destruct (dedup_inv_result mentions) as (Hkeys & Hwf & Hent & Hbest).
  assert (Hnames : map normalizedName
                       (JsMap.values
                          (fold_left PlantContext.keepBetter mentions
                                     JsMap.empty))
                   = JsMap.keys (fold_left PlantContext.keepBetter mentions
                                           JsMap.empty)).
  { apply entry_names. intros k v H. now apply Hent in H. }
  split; [now rewrite Hnames|]. split; [now rewrite Hnames|]. split.
  - intros v Hv. unfold JsMap.values in Hv.
    apply in_map_iff in Hv as [[k v'] [<- Hv]]. now apply Hent in Hv.
  - apply Forall_forall. intros m Hm.
    destruct (Hbest m Hm) as (v & Hv & Hr). exists v.
    apply jsmap_get_In in Hv. split; [|split; [|exact Hr]].
    + unfold JsMap.values. apply in_map_iff. now exists (normalizedName m, v).
    + now apply Hent in Hv.
Qed.

(** ** TrefleClient.findBestMatch *)

Section BestMatch.
Import SpeciesLookup.

Lemma find_nothing {A} (f : A -> bool) (l : list A) :
  (forall x, In x l -> f x = false) -> find f l = None.
Proof.
  induction l as [|x l IH]; intros H; simpl; auto.
  rewrite (H x) by now left. apply IH. intros y Hy. apply H. now right.
Qed.

Lemma firstFound_skips (pre ms : list (TrefleSpeciesLight.t -> bool))
      (results : list TrefleSpeciesLight.t) :
  (forall m r, In m pre -> In r results -> m r = false) ->
  firstFound (pre ++ ms) results = firstFound ms results.
Proof.
  induction pre as [|m pre IH]; intros H; simpl; auto.
  rewrite find_nothing.
  - apply IH. intros m' r Hm Hr. apply H; auto. now right.
  - intros r Hr. apply H; auto. now left.
Qed.

Lemma firstFound_in (ms : list (TrefleSpeciesLight.t -> bool))
      (results : list TrefleSpeciesLight.t) (r : TrefleSpeciesLight.t) :
  firstFound ms results = Some r -> In r results.
Proof.
  induction ms as [|m ms IH]; simpl; [discriminate|].
  destruct (find m results) as [found|] eqn:E; auto.
  intros [= <-]. now apply find_some in E.
Qed.

End BestMatch.

(** X18. [findBestMatch] tries its five tests in order and returns the first
    result that passes the earliest test passed by any result; when no
    result passes any test it returns the first result. On a non-empty
    list it always returns one of the results. *)
Theorem findBestMatch_priority (query : string)
        (results : list TrefleSpeciesLight.t) :
  let q := JsString.trim (JsString.toLowerCase query) in
  (results <> [] ->
   exists r, SpeciesLookup.findBestMatch query results = Some r
             /\ In r results)
  /\ (forall (pre post : list (TrefleSpeciesLight.t -> bool))
             (matches : TrefleSpeciesLight.t -> bool)
             (r : TrefleSpeciesLight.t),
         SpeciesLookup.matchers q = pre ++ matches :: post ->
         (forall m' r', In m' pre -> In r' results -> m' r' = false) ->
         find matches results = Some r ->
         SpeciesLookup.findBestMatch query results = Some r)
  /\ ((forall m' r', In m' (SpeciesLookup.matchers q) -> In r' results ->
                     m' r' = false) ->
      SpeciesLookup.findBestMatch query results = nth_error results 0).
Proof.
  intros q. unfold SpeciesLookup.findBestMatch. fold q. split; [|split].
  - intros Hne.
    destruct (SpeciesLookup.firstFound (SpeciesLookup.matchers q) results)
      as [found|] eqn:E.
    + exists found. split; [reflexivity|]. now apply firstFound_in in E.
    + destruct results as [|r rs]; [contradiction|].
      exists r. split; [reflexivity | now left].
  - intros pre post matches r Hsplit Hpre Hfind.
    rewrite Hsplit, (firstFound_skips pre _ results Hpre).
    cbn [SpeciesLookup.firstFound]. now rewrite Hfind.
  - intros Hnone.
    rewrite <- (app_nil_r (SpeciesLookup.matchers q)).
    now rewrite (firstFound_skips _ [] results Hnone).
Qed.

Lemma findBestMatch_priority_witness :
  let basil := TrefleSpeciesLight.mk 1 (Some "Holy basil") "ocimum-tenuiflorum"
                                     "Ocimum tenuiflorum" in
  let sweet := TrefleSpeciesLight.mk 2 (Some "Basil") "ocimum-basilicum"
                                     "Ocimum basilicum" in
  SpeciesLookup.findBestMatch " BASIL " [basil; sweet] = Some sweet.
Proof.
  intros basil sweet.
  apply (proj1 (proj2 (findBestMatch_priority " BASIL " [basil; sweet]))
               [] _ _ sweet eq_refl).
  - intros m' r' [].
  - reflexivity.
Defined.

(** ** TrefleCache.getStats *)

Section Stats.
Context {T : Type}.

Lemma span_bounds (entries : list (CacheEntry T)) :
  forall oldest newest : Z,
    let span :=
      fold_left (fun (on : Z * Z) (entry : CacheEntry T) =>
                   (if timestamp entry <? fst on
                    then timestamp entry else fst on,
                    if timestamp entry >? snd on
                    then timestamp entry else snd on))
                entries (oldest, newest) in
    fst span <= oldest /\ newest <= snd span
    /\ Forall (fun entry => fst span <= timestamp entry <= snd span) entries.
Proof.
  induction entries as [|e es IH]; intros oldest newest; cbn [fold_left].
  - cbn [fst snd]. split; [lia|]. split; [lia | constructor].
  - cbn [fst snd].
    set (o := if timestamp e <? oldest then timestamp e else oldest).
    set (n := if timestamp e >? newest then timestamp e else newest).
    destruct (IH o n) as (Ho & Hn & Hall). cbv zeta in Ho, Hn, Hall.
    assert (o <= oldest /\ o <= timestamp e).
    { unfold o. destruct (timestamp e <? oldest) eqn:E;
        [apply Z.ltb_lt in E | apply Z.ltb_ge in E]; lia. }
    assert (newest <= n /\ timestamp e <= n).
    { unfold n. destruct (timestamp e >? newest) eqn:E;
        [apply Z.gtb_lt in E | rewrite Z.gtb_ltb in E; apply Z.ltb_ge in E];
        lia. }
    split; [lia|]. split; [lia|]. constructor; [lia | exact Hall].
Qed.

End Stats.

(** X19. [getStats()] reports the number of entries held, expired ones
    included, and no ages for an empty cache. For a non-empty cache both
    ages are reported, the oldest age is not negative, the newest age is at
    most the clock reading and at most the oldest age, and the age of every
    entry lies between the two. *)
Theorem getStats_brackets (T : Type) (c : TrefleCache.t T) (now : Z) :
  let stats := TrefleCache.getStats now c in
  CacheStats.size stats = TrefleCache.size c
  /\ (TrefleCache.cache c = [] ->
      CacheStats.oldestAge stats = None /\ CacheStats.newestAge stats = None)
  /\ (TrefleCache.cache c <> [] ->
      exists oldest newest : Z,
        CacheStats.oldestAge stats = Some oldest
        /\ CacheStats.newestAge stats = Some newest
        /\ 0 <= oldest /\ newest <= now /\ newest <= oldest
        /\ Forall (fun e => newest <= now - timestamp (snd e) <= oldest)
                  (TrefleCache.cache c)).
Proof.
  intros stats. unfold stats, TrefleCache.getStats, TrefleCache.size,
                  JsMap.size.
  destruct (TrefleCache.cache c) as [|e es] eqn:Ec.
  - cbn. split; [reflexivity|]. split; [auto | intros H; contradiction].
  - replace (Z.of_nat (length (e :: es)) =? 0) with false
      by (symmetry; apply Z.eqb_neq; cbn [length]; lia).
    cbn [CacheStats.size CacheStats.oldestAge CacheStats.newestAge].
    split; [reflexivity|]. split; [discriminate|]. intros _.
    destruct (span_bounds (JsMap.values (e :: es)) now 0) as (Ho & Hn & Hall).
    cbv zeta in Ho, Hn, Hall.
    set (span := fold_left _ (JsMap.values (e :: es)) (now, 0)) in *.
    exists (now - fst span), (now - snd span).
    split; [reflexivity|]. split; [reflexivity|].
    assert (Hin : Forall (fun x : string * CacheEntry T =>
                            fst span <= timestamp (snd x) <= snd span)
                         (e :: es)).
    { rewrite Forall_forall in *. intros x Hx. apply Hall.
      unfold JsMap.values. now apply in_map. }
    pose proof (Forall_inv Hin) as He. cbv beta in He. clearbody span.
    split; [lia|]. split; [lia|]. split; [lia|].
    eapply Forall_impl; [|exact Hin]. cbv beta. intros x Hx. lia.
Qed.

Lemma getStats_brackets_witness :
  let c := TrefleCache.set 40 (TrefleCache.set 10 (TrefleCache.new 100 10)
                                               "oak" 1%nat) "elm" 2%nat in
  exists oldest newest : Z,
    CacheStats.oldestAge (TrefleCache.getStats 50 c) = Some oldest
    /\ CacheStats.newestAge (TrefleCache.getStats 50 c) = Some newest
    /\ 0 <= oldest /\ newest <= 50 /\ newest <= oldest
    /\ Forall (fun e => newest <= 50 - timestamp (snd e) <= oldest)
              (TrefleCache.cache c).
Proof.
  intros c. apply (proj2 (proj2 (getStats_brackets nat c 50))). discriminate.
Defined.

(** ** TrefleClient: a fetched species is remembered *)

Section Remembered.
Import SpeciesLookup.

Lemma registerProfile_get (processed : ProcessedPlantData)
      (r : ConversationPlantRegistry.t) :
  JsMap.get (ConversationPlantRegistry.plants
               (TrefleClient.registerProfile processed r))
            (normKey (registered_name processed))
  = Some processed.
Proof.
  unfold TrefleClient.registerProfile, registered_name.
  destruct (commonName processed) as [cn|]; [|apply addPlant_get].
  destruct (JsString.truthy cn); apply addPlant_get.
Qed.

Lemma findPlantByName_registered
      (searchScript : nat -> Fetched (list TrefleSpeciesLight.t))
      (speciesScript : nat -> Fetched TrefleSpeciesFull.t)
      (name : string) (p : ProcessedPlantData) (st : Store) :
  JsMap.get (ConversationPlantRegistry.plants (conversationRegistry st))
            (normKey name) = Some p ->
  findPlantByName searchScript speciesScript name st
  = (Returned (Some p), st).
Proof.
  intros H. unfold findPlantByName, ConversationPlantRegistry.findPlant.
  fold (normKey name). now rewrite H.
Qed.

Lemma remember_slug_entry (cacheKey otherKey : string)
      (processed : ProcessedPlantData) (st : Store) :
  JsMap.get (TrefleCache.cache (speciesCache
                                  (remember cacheKey otherKey processed st)))
            otherKey
  = Some (mkEntry processed (TrefleClient.now (world st))).
Proof.
  unfold remember. cbn [speciesCache]. unfold TrefleCache.set at 1.
  cbn [TrefleCache.cache TrefleCache.with_cache]. apply jsmap_get_set_same.
Qed.

Lemma remember_name_entry (cacheKey otherKey cn : string)
      (processed : ProcessedPlantData) (st : Store) :
  commonName processed = Some cn -> JsString.truthy cn = true ->
  JsMap.get (TrefleCache.cache (commonNameCache
                                  (remember cacheKey otherKey processed st)))
            (JsString.toLowerCase cn)
  = Some (mkEntry processed (TrefleClient.now (world st))).
Proof.
  intros Hcn Ht. unfold remember. cbn [commonNameCache]. rewrite Hcn, Ht.
  unfold TrefleCache.set.
  cbn [TrefleCache.cache TrefleCache.with_cache]. apply jsmap_get_set_same.
Qed.


Lemma getSpeciesBySlug_fetched
      (speciesScript : nat -> Fetched TrefleSpeciesFull.t)
      (slug' : string) (st : Store) (raw : TrefleSpeciesFull.t)
      (w1 : TrefleClient.World) :
  fst (TrefleCache.get (TrefleClient.now (world st)) (speciesCache st)
                       (createSpeciesKey (inr slug'))) = None ->
  TrefleClient.request speciesScript (world st) = (Returned raw, w1) ->
  exists species1,
    getSpeciesBySlug speciesScript slug' st
    = (Returned (processSpeciesData raw),
       remember (createSpeciesKey (inr slug'))
                (createSpeciesKey (inl (id (processSpeciesData raw))))
                (processSpeciesData raw)
                (with_world (with_speciesCache st species1) w1)).
Proof.
  intros Hmiss Hreq. unfold getSpeciesBySlug.
  destruct (TrefleCache.get _ _ _) as [cached species1].
  cbn [fst] in Hmiss. subst cached. exists species1.
  cbn [with_speciesCache world]. now rewrite Hreq.
Qed.

Lemma store_same_speciesCache (st : Store) :
  with_speciesCache st (speciesCache st) = st.
Proof. now destruct st. Qed.

(** What holds of the store in which a fetched profile was remembered at
    the time [t1], under the key [otherKey] of its other identifier. *)
Lemma remember_facts (cacheKey otherKey : string)
      (processed : ProcessedPlantData) (st0 : Store) :
  let st1 := remember cacheKey otherKey processed st0 in
  let t1 := TrefleClient.now (world st0) in
  world st1 = world st0
  /\ (forall cn : string,
         commonName processed = Some cn -> cn <> "" ->
         JsMap.get (TrefleCache.cache (commonNameCache st1))
                   (JsString.toLowerCase cn)
         = Some (mkEntry processed t1))
  /\ (forall (st2 : Store) (now2 : Z),
         speciesCache st2 = speciesCache st1 ->
         now2 - t1 <= TrefleCache.ttlMs (speciesCache st1) ->
         TrefleCache.get now2 (speciesCache st2) otherKey
         = (Some processed, speciesCache st2))
  /\ (forall (st2 : Store)
             (searchScript : nat -> Fetched (list TrefleSpeciesLight.t))
             (speciesScript : nat -> Fetched TrefleSpeciesFull.t),
         conversationRegistry st2 = conversationRegistry st1 ->
         findPlantByName searchScript speciesScript
                         (registered_name processed) st2
         = (Returned (Some processed), st2)).
Proof.
  intros st1 t1. split; [reflexivity|]. split; [|split].
  - intros cn Hcn Hne. apply remember_name_entry; [exact Hcn|].
    now apply truthy_nonempty.
  - intros st2 now2 Hc Hlive. rewrite Hc.
    apply (get_live _ otherKey (mkEntry processed t1)).
    + apply remember_slug_entry.
    + exact Hlive.
  - intros st2 searchScript speciesScript Hreg.
    apply findPlantByName_registered. rewrite Hreg.
    unfold st1, remember. cbn [conversationRegistry].
    apply registerProfile_get.
Qed.

End Remembered.



(** X21. A species fetched by [getSpeciesBySlug] is remembered in the same
    way, with the identifiers exchanged: after a cache miss and a
    successful remote call the processed response is returned; it is in the
    common-name cache under its lower-cased common name, if it has one; it
    is in the species cache under the key of its numeric id, so that
    [getSpeciesById] of that id is served from the cache while the entry is
    within its time to live; and it is registered, so that [findPlantByName]
    of its common name (or slug) returns it without any remote call. *)
Theorem getSpeciesBySlug_remembered
        (speciesScript : nat -> Fetched TrefleSpeciesFull.t)
        (slug' : string) (st : SpeciesLookup.Store)
        (raw : TrefleSpeciesFull.t) (w1 : TrefleClient.World) :
  fst (TrefleCache.get (TrefleClient.now (SpeciesLookup.world st))
                       (SpeciesLookup.speciesCache st)
                       (SpeciesLookup.createSpeciesKey (inr slug'))) = None ->
  TrefleClient.request speciesScript (SpeciesLookup.world st)
  = (Returned raw, w1) ->
  let processed := SpeciesLookup.processSpeciesData raw in
  let st1 := snd (SpeciesLookup.getSpeciesBySlug speciesScript slug' st) in
  fst (SpeciesLookup.getSpeciesBySlug speciesScript slug' st)
  = Returned processed
  /\ SpeciesLookup.world st1 = w1
  /\ (forall cn : string,
         commonName processed = Some cn -> cn <> "" ->
         JsMap.get (TrefleCache.cache (SpeciesLookup.commonNameCache st1))
                   (JsString.toLowerCase cn)
         = Some (mkEntry processed (TrefleClient.now w1)))
  /\ (forall (st2 : SpeciesLookup.Store)
             (speciesScript' : nat -> Fetched TrefleSpeciesFull.t),
         SpeciesLookup.speciesCache st2 = SpeciesLookup.speciesCache st1 ->
         TrefleClient.now (SpeciesLookup.world st2) - TrefleClient.now w1
         <= TrefleCache.ttlMs (SpeciesLookup.speciesCache st1) ->
         SpeciesLookup.getSpeciesById speciesScript' (id processed) st2
         = (Returned processed, st2))
  /\ (forall (st2 : SpeciesLookup.Store)
             (searchScript' : nat -> Fetched (list TrefleSpeciesLight.t))
             (speciesScript' : nat -> Fetched TrefleSpeciesFull.t),
         SpeciesLookup.conversationRegistry st2
         = SpeciesLookup.conversationRegistry st1 ->
         SpeciesLookup.findPlantByName searchScript' speciesScript'
                                       (registered_name processed) st2
         = (Returned (Some processed), st2)).
Proof.
  intros Hmiss Hreq processed st1.
  destruct (getSpeciesBySlug_fetched speciesScript slug' st raw w1 Hmiss Hreq)
    as [species1 E].
  unfold st1. rewrite E. cbn [fst snd]. fold processed.
  destruct (remember_facts
              (SpeciesLookup.createSpeciesKey (inr slug'))
              (SpeciesLookup.createSpeciesKey (inl (id processed)))
              processed
              (SpeciesLookup.with_world
                 (SpeciesLookup.with_speciesCache st species1) w1))
    as (Hw & Hcn & Hid & Hreg).
  cbv zeta in Hw, Hcn, Hid, Hreg.
  split; [reflexivity|]. split; [exact Hw|]. split; [exact Hcn|].
  split; [|exact Hreg].
  intros st2 speciesScript' Hc Hlive.
  unfold SpeciesLookup.getSpeciesById.
  rewrite (Hid st2 _ Hc Hlive). now rewrite store_same_speciesCache.
Qed.

Lemma getSpeciesBySlug_remembered_witness :
  let st := SpeciesLookup.mkStore
              (TrefleClient.mkWorld 0 RateLimiter.new 0 [])
              (TrefleCache.new CACHE_TTL_MS 200)
              (TrefleCache.new CACHE_TTL_MS 300)
              (TrefleCache.new CACHE_TTL_MS 300)
              ConversationPlantRegistry.new in
  let mint := TrefleSpeciesFull.mk 12 None "mentha-spicata"
                                   "Mentha spicata" "Lamiaceae" "Mentha" in
  let remote := fun _ : nat => mkFetched 25 (Responded 200 (Some mint)) in
  let st1 := snd (SpeciesLookup.getSpeciesBySlug remote "Mentha-Spicata" st) in
  let later := SpeciesLookup.with_world
                 st1 (TrefleClient.mkWorld 300025 RateLimiter.new 1 []) in
  SpeciesLookup.getSpeciesById remote 12 later
  = (Returned (SpeciesLookup.processSpeciesData mint), later).
Proof.
  intros st mint remote st1 later.
  destruct (getSpeciesBySlug_remembered
              remote "Mentha-Spicata" st mint
              (TrefleClient.mkWorld 25 [0] 1 []) eq_refl eq_refl)
    as (_ & _ & _ & H & _).
  apply (H later remote).
  - reflexivity.
  - vm_compute. discriminate.
Defined.

(** ** Context provider: the work done for one message *)

Section ContextWork.
Import SpeciesLookup PlantContext.

Lemma request_calls {T} (script : nat -> Fetched T) (w : TrefleClient.World) :
  (TrefleClient.calls w
   <= TrefleClient.calls (snd (TrefleClient.request script w))
   <= TrefleClient.calls w + 3)%nat.
Proof.
  destruct (fst (TrefleClient.canMakeRequest w)) eqn:Hcan.
  - destruct (request_summary script w Hcan) as (n & stamps & Hn & _ & Hc & _).
    rewrite Hc.
    change (TrefleClient.calls (snd (TrefleClient.canMakeRequest w)))
      with (TrefleClient.calls w).
    lia.
  - rewrite (request_rejected script w Hcan). cbn [snd].
    change (TrefleClient.calls (snd (TrefleClient.canMakeRequest w)))
      with (TrefleClient.calls w).
    lia.
Qed.

Variable searchScript : nat -> Fetched (list TrefleSpeciesLight.t).
Variable speciesScript : nat -> Fetched TrefleSpeciesFull.t.

Lemma searchPlants_calls (query : string) (limit : Z) (st : Store) :
  (TrefleClient.calls (world st)
   <= TrefleClient.calls (world (snd (searchPlants searchScript query limit st)))
   <= TrefleClient.calls (world st) + 3)%nat.
Proof.
  unfold searchPlants, TrefleClient.searchPlants.
  cbn [TrefleClient.world TrefleClient.searchResultsCache].
  destruct (TrefleCache.get _ _ _) as [cached cache1].
  destruct cached as [results|]; cbn [snd world TrefleClient.world]; [lia|].
  pose proof (request_calls searchScript (world st)) as H.
  destruct (TrefleClient.request searchScript (world st)) as [response w1].
  cbn [snd] in H.
  destruct response; cbn [snd world TrefleClient.world]; exact H.
Qed.

Lemma getSpeciesById_calls (id : Z) (st : Store) :
  (TrefleClient.calls (world st)
   <= TrefleClient.calls (world (snd (getSpeciesById speciesScript id st)))
   <= TrefleClient.calls (world st) + 3)%nat.
Proof.
  unfold getSpeciesById.
  destruct (TrefleCache.get _ _ _) as [cached species1].
  destruct cached as [profile|]; cbn [snd world with_speciesCache]; [lia|].
  pose proof (request_calls speciesScript (world st)) as H.
  destruct (TrefleClient.request speciesScript (world st)) as [response w1].
  cbn [snd] in H.
  destruct response; cbn [snd world with_world remember]; exact H.
Qed.

Lemma findPlantByName_calls (name : string) (st : Store) :
  (TrefleClient.calls (world st)
   <= TrefleClient.calls
        (world (snd (findPlantByName searchScript speciesScript name st)))
   <= TrefleClient.calls (world st) + 6)%nat.
Proof.
  unfold findPlantByName.
  destruct (ConversationPlantRegistry.findPlant _ _); cbn [snd]; [lia|].
  destruct (TrefleCache.get _ _ _) as [cachedByName names1].
  destruct cachedByName as [profile|];
    cbn [snd world with_commonNameCache]; [lia|].
  set (st1 := with_commonNameCache st names1).
  pose proof (searchPlants_calls name 5 st1) as Hs.
  change (world st1) with (world st) in Hs.
  destruct (searchPlants searchScript name 5 st1) as [searchResults st2].
  cbn [snd] in Hs.
  destruct searchResults as [results|e]; cbn [snd]; [|lia].
  destruct results as [|first others]; cbn [snd]; [lia|].
  set (bestMatch := match findBestMatch name (first :: others) with
                    | Some found => found
                    | None => first
                    end).
  pose proof (getSpeciesById_calls (TrefleSpeciesLight.id bestMatch) st2) as Hg.
  destruct (getSpeciesById speciesScript (TrefleSpeciesLight.id bestMatch) st2)
    as [res st3].
  cbn [snd] in *. lia.
Qed.

Lemma fetchStep_work (acc : list ProcessedPlantData * Store)
      (mention : PlantMention) :
  (length (fst (fetchStep searchScript speciesScript acc mention))
   <= length (fst acc) + 1)%nat
  /\ (TrefleClient.calls (world (snd acc))
      <= TrefleClient.calls
           (world (snd (fetchStep searchScript speciesScript acc mention)))
      <= TrefleClient.calls (world (snd acc)) + 6)%nat.
Proof.
  destruct acc as [plants st]. unfold fetchStep. cbn [fst snd].
  destruct (ConversationPlantRegistry.findPlant _ _).
  { cbn [fst snd]. rewrite length_app. cbn [length]. lia. }
  assert (Hfetch :
            let out := fetchPlantSafely searchScript speciesScript mention st in
            (TrefleClient.calls (world st)
             <= TrefleClient.calls (world (snd out))
             <= TrefleClient.calls (world st) + 6)%nat).
  { unfold fetchPlantSafely.
    pose proof (findPlantByName_calls (normalizedName mention) st) as H.
    destruct (findPlantByName _ _ _ _) as [res st']. exact H. }
  cbv zeta in Hfetch.
  destruct (confidence mention);
    try (cbn [fst snd]; lia);
    destruct (fetchPlantSafely searchScript speciesScript mention st)
      as [plant st'];
    cbn [snd] in Hfetch;
    (destruct plant; cbn [fst snd];
     [rewrite length_app; cbn [length]; lia | lia]).
Qed.

Lemma fetchLoop_work (mentions : list PlantMention) :
  forall acc : list ProcessedPlantData * Store,
    (length (fst (fold_left (fetchStep searchScript speciesScript)
                            mentions acc))
     <= length (fst acc) + length mentions)%nat
    /\ (TrefleClient.calls (world (snd acc))
        <= TrefleClient.calls
             (world (snd (fold_left (fetchStep searchScript speciesScript)
                                    mentions acc)))
        <= TrefleClient.calls (world (snd acc)) + 6 * length mentions)%nat.
Proof.
  induction mentions as [|m ms IH]; intros acc; cbn [fold_left length].
  - lia.
  - destruct (fetchStep_work acc m) as [H1 H2].
    destruct (IH (fetchStep searchScript speciesScript acc m)) as [H3 H4].
    lia.
Qed.

Lemma includeExisting_bound (existingPlants : list ProcessedPlantData) :
  forall plants : list ProcessedPlantData,
    (length plants <= 5)%nat ->
    (length (fold_left includeExisting existingPlants plants) <= 5)%nat.
Proof.
  induction existingPlants as [|p ps IH]; intros plants H; cbn [fold_left];
    [exact H|].
  apply IH. unfold includeExisting, MAX_PLANTS_TO_FETCH.
  destruct (negb _ && (Z.of_nat (length plants) <? 5))%bool eqn:E; [|exact H].
  apply andb_true_iff in E as [_ E]. apply Z.ltb_lt in E.
  rewrite length_app. cbn [length]. lia.
Qed.

Lemma getRecentPlants_length (count : Z) (r : ConversationPlantRegistry.t) :
  1 <= count ->
  Z.of_nat (length (ConversationPlantRegistry.getRecentPlants count r))
  <= count.
Proof.
  intros Hc. unfold ConversationPlantRegistry.getRecentPlants.
  rewrite length_rev. unfold JsString.slice_from.
  rewrite clamp_index_neg by exact Hc.
  set (keys := skipn _ _).
  assert (Hk : (length keys <= Z.to_nat count)%nat)
    by (unfold keys; rewrite length_skipn; lia).
  assert (Hf : (length (flat_map
                          (fun key =>
                             match JsMap.get
                                     (ConversationPlantRegistry.plants r) key
                             with
                             | Some p => [p]
                             | None => []
                             end) keys)
                <= length keys)%nat).
  { clear. induction keys as [|k ks IH]; cbn [flat_map length]; [lia|].
    rewrite length_app.
    destruct (JsMap.get (ConversationPlantRegistry.plants r) k);
      cbn [length]; lia. }
  lia.
Qed.

End ContextWork.

(** X22. The work [getPlantContext] does for one message is bounded. It
    provides at most 5 plants and makes at most 30 underlying calls to the
    remote service (at most 5 mentions are looked up, each lookup with at
    most one search and one species request of at most 3 calls each). It
    makes no call and leaves every cache and the registry untouched when
    the client is not initialized, where it provides nothing, and when
    neither the message nor the history mentions a plant, where it provides
    the up to 5 most recent profiles of the registry. *)
Theorem getPlantContext_bounded
        (searchScript : nat -> Fetched (list TrefleSpeciesLight.t))
        (speciesScript : nat -> Fetched TrefleSpeciesFull.t)
        (initialized : bool) (currentMessageText : string)
        (historyMessages : list string) (st : SpeciesLookup.Store) :
  let out := PlantContext.getPlantContext searchScript speciesScript
               initialized currentMessageText historyMessages st in
  let registry := SpeciesLookup.conversationRegistry st in
  (length (fst out) <= 5)%nat
  /\ (TrefleClient.calls (SpeciesLookup.world st)
      <= TrefleClient.calls (SpeciesLookup.world (snd out))
      <= TrefleClient.calls (SpeciesLookup.world st) + 30)%nat
  /\ (initialized = false -> out = ([], st))
  /\ (initialized = true ->
      PlantContext.allMentions registry currentMessageText historyMessages
      = [] ->
      out = (ConversationPlantRegistry.getRecentPlants 5 registry, st)).
Proof.
  intros out registry. unfold out, PlantContext.getPlantContext.
  fold registry.
  destruct initialized; cbn [negb].
  2:{ cbn [fst snd length]. split; [lia|]. split; [lia|].
      split; [reflexivity | discriminate]. }
  pose proof (getRecentPlants_length 5 registry ltac:(lia)) as Hrecent.
  destruct (PlantContext.allMentions registry currentMessageText
                                     historyMessages) as [|m ms] eqn:Em.
  { cbn [length Z.of_nat Z.eqb fst snd].
    unfold PlantContext.MAX_PLANTS_TO_FETCH.
    split; [lia|]. split; [lia|]. split; [discriminate | reflexivity]. }
  replace (Z.of_nat (length (m :: ms)) =? 0) with false
    by (symmetry; apply Z.eqb_neq; cbn [length]; lia).
  set (mentionsToFetch :=
         JsString.slice 0 PlantContext.MAX_PLANTS_TO_FETCH (m :: ms)).
  assert (Hslice : (length mentionsToFetch <= 5)%nat).
  { pose proof (slice_0_length PlantContext.MAX_PLANTS_TO_FETCH (m :: ms)
                               ltac:(unfold PlantContext.MAX_PLANTS_TO_FETCH;
                                     lia)) as H.
    fold mentionsToFetch in H. unfold PlantContext.MAX_PLANTS_TO_FETCH in H.
    lia. }
  destruct (fetchLoop_work searchScript speciesScript mentionsToFetch ([], st))
    as [Hlen Hcalls].
  destruct (fold_left (PlantContext.fetchStep searchScript speciesScript)
                      mentionsToFetch ([], st)) as [plants st'].
  cbn [fst snd length] in *.
  split; [apply includeExisting_bound; lia|]. split; [lia|].
  split; discriminate.
Qed.

(** A message about a tomato, on an empty store: one search, one species
    request for the result whose common name is the query, and the profile
    is registered under its slug and its common name. *)
Example getPlantContext_fetches_best_match :
  let st := SpeciesLookup.mkStore
              (TrefleClient.mkWorld 0 RateLimiter.new 0 [])
              (TrefleCache.new CACHE_TTL_MS 200)
              (TrefleCache.new CACHE_TTL_MS 300)
              (TrefleCache.new CACHE_TTL_MS 300)
              ConversationPlantRegistry.new in
  let found :=
    [TrefleSpeciesLight.mk 3 (Some "Garden tomato") "solanum-lycopersicum"
                           "Solanum lycopersicum";
     TrefleSpeciesLight.mk 4 (Some "Tomato") "solanum-x" "Solanum x"] in
  let tomato := TrefleSpeciesFull.mk 4 (Some "Tomato") "solanum-x" "Solanum x"
                                     "Solanaceae" "Solanum" in
  let search := fun _ : nat => mkFetched 20 (Responded 200 (Some found)) in
  let species := fun _ : nat => mkFetched 30 (Responded 200 (Some tomato)) in
  let out := PlantContext.getPlantContext search species true
                                          "My tomato is wilting" [] st in
  fst out = [SpeciesLookup.processSpeciesData tomato]
  /\ TrefleClient.calls (SpeciesLookup.world (snd out)) = 2%nat
  /\ ConversationPlantRegistry.mentionOrder
       (SpeciesLookup.conversationRegistry (snd out))
     = ["solanum-x"; "tomato"].
Proof. vm_compute. repeat split. Qed.

(** ** The singleton client *)

Section Factory.
Import ClientFactory.

Lemma construct_valid (token client : string) :
  construct token = inr client -> is_trimmed client /\ client <> "".
Proof.
  unfold construct.
  destruct (negb (JsString.truthy token)
            || String.eqb (JsString.trim token) "")%bool eqn:E;
    [discriminate|].
  intros [= <-]. apply orb_false_iff in E as [_ E].
  apply String.eqb_neq in E. split; [apply trim_idem | exact E].
Qed.

Lemma call_valid (c : Call) (clientInstance : option string) :
  valid_instance clientInstance ->
  valid_instance (snd (call c clientInstance)).
Proof.
  intros H. destruct c as [token|token]; cbn [call].
  - unfold getTrefleClient. destruct clientInstance as [client|]; [exact H|].
    destruct token as [t|]; [|exact I].
    destruct (JsString.truthy t); [|exact I].
    destruct (construct t) as [e|client] eqn:E; [exact I|].
    cbn [snd valid_instance]. now apply construct_valid in E.
  - unfold initializeTrefleClient.
    destruct (construct token) as [e|client] eqn:E; [exact H|].
    cbn [snd valid_instance]. now apply construct_valid in E.
Qed.

Lemma call_keeps_initialized (c : Call) (clientInstance : option string) :
  isClientInitialized clientInstance = true ->
  isClientInitialized (snd (call c clientInstance)) = true.
Proof.
  destruct clientInstance as [client|]; [intros _|discriminate].
  destruct c as [token|token]; cbn [call]; [reflexivity|].
  unfold initializeTrefleClient. now destruct (construct token).
Qed.

End Factory.

(** X23. The singleton client, over any sequence of [getTrefleClient] and
    [initializeTrefleClient] calls, failed ones included: the token of the
    instance is always trimmed and not empty; once a client exists one
    always exists; and [getTrefleClient] never replaces an existing client,
    whatever token it is given. *)
Theorem client_factory_invariant :
  (forall calls : list ClientFactory.Call,
      valid_instance (ClientFactory.after calls None))
  /\ (forall (calls : list ClientFactory.Call) (inst : option string),
         ClientFactory.isClientInitialized inst = true ->
         ClientFactory.isClientInitialized (ClientFactory.after calls inst)
         = true)
  /\ (forall (tokens : list (option string)) (client : string),
         ClientFactory.after (map ClientFactory.Get tokens) (Some client)
         = Some client).
Proof.
  split; [|split].
  - intros calls.
    assert (H : forall inst, valid_instance inst ->
                             valid_instance (ClientFactory.after calls inst)).
    { unfold ClientFactory.after.
      induction calls as [|c cs IH]; intros inst Hinst; simpl; auto.
      apply IH. now apply call_valid. }
    apply H. exact I.
  - intros calls. unfold ClientFactory.after.
    induction calls as [|c cs IH]; intros inst Hinst; simpl; auto.
    apply IH. now apply call_keeps_initialized.
  - intros tokens client. unfold ClientFactory.after.
    induction tokens as [|t ts IH]; simpl; auto.
Qed.

(** ** The plant-information action: every mention is answered *)

Section InfoWork.
Import SpeciesLookup PlantInfo.
Variable searchScript : nat -> Fetched (list TrefleSpeciesLight.t).
Variable speciesScript : nat -> Fetched TrefleSpeciesFull.t.

Lemma lookupStep_work
      (acc : list ProcessedPlantData * list string * Store)
      (mention : PlantMention) :
  let out := lookupStep searchScript speciesScript acc mention in
  (length (fst (fst out)) + length (snd (fst out))
   = length (fst (fst acc)) + length (snd (fst acc)) + 1)%nat
  /\ (forall name, In name (snd (fst out)) ->
                   In name (snd (fst acc)) \/ name = originalText mention)
  /\ (TrefleClient.calls (world (snd acc))
      <= TrefleClient.calls (world (snd out))
      <= TrefleClient.calls (world (snd acc)) + 6)%nat.
Proof.
  destruct acc as [[fetched missing] st]. unfold lookupStep.
  destruct (ConversationPlantRegistry.findPlant _ _).
  { cbn [fst snd]. rewrite length_app. cbn [length].
    split; [lia|]. split; [auto | lia]. }
  pose proof (findPlantByName_calls searchScript speciesScript
                                    (normalizedName mention) st) as H.
  destruct (findPlantByName _ _ _ _) as [res st']. cbn [snd] in H.
  destruct res as [[plant|]|e]; cbn [fst snd]; rewrite ?length_app;
    cbn [length]; (split; [lia|]); (split; [|exact H]); auto;
    intros name Hn; apply in_app_or in Hn as [Hn|[<-|[]]]; auto.
Qed.

Lemma lookupLoop_work (mentions : list PlantMention) :
  forall acc : list ProcessedPlantData * list string * Store,
    let out := fold_left (lookupStep searchScript speciesScript)
                         mentions acc in
    (length (fst (fst out)) + length (snd (fst out))
     = length (fst (fst acc)) + length (snd (fst acc)) + length mentions)%nat
    /\ (forall name, In name (snd (fst out)) ->
                     In name (snd (fst acc))
                     \/ In name (map originalText mentions))
    /\ (TrefleClient.calls (world (snd acc))
        <= TrefleClient.calls (world (snd out))
        <= TrefleClient.calls (world (snd acc)) + 6 * length mentions)%nat.
Proof.
  induction mentions as [|m ms IH]; intros acc; cbn [fold_left length map].
  - split; [lia|]. split; [auto | lia].
  - destruct (lookupStep_work acc m) as (H1 & H2 & H3).
    destruct (IH (lookupStep searchScript speciesScript acc m))
      as (H4 & H5 & H6).
    cbv zeta in *. split; [lia|]. split; [|lia].
    intros name Hn. apply H5 in Hn as [Hn|Hn]; [|right; now right].
    apply H2 in Hn as [Hn| ->]; [now left | right; now left].
Qed.

Lemma slice_0_incl {A} (limit : Z) (l : list A) :
  incl (JsString.slice 0 limit l) l.
Proof.
  unfold JsString.slice. intros x Hx.
  apply in_firstn_in in Hx. now apply in_skipn_in in Hx.
Qed.

End InfoWork.

(** X24. [getPlantInfo] answers every mention it looks at. With an
    initialized client and a message that mentions plants, each of the
    first 3 mentions ends up either among the plants found or, by its
    original text, among the names not found: the two lists together have
    as many entries as mentions were looked at. In every case the result
    holds at most 3 plants and names together, at most 21 underlying remote
    calls are made, and the result is marked as triggered exactly when the
    client is initialized. *)
Theorem getPlantInfo_accounts
        (searchScript : nat -> Fetched (list TrefleSpeciesLight.t))
        (speciesScript : nat -> Fetched TrefleSpeciesFull.t)
        (initialized : bool) (messageText : string)
        (st : SpeciesLookup.Store) :
  let out := PlantInfo.getPlantInfo searchScript speciesScript initialized
                                    messageText st in
  let mentions :=
    Extractor.extractPlantMentions (SpeciesLookup.conversationRegistry st)
                                   messageText in
  PlantInfo.triggered (fst out) = initialized
  /\ (length (PlantInfo.plants (fst out))
      + length (PlantInfo.notFound (fst out)) <= 3)%nat
  /\ (TrefleClient.calls (SpeciesLookup.world st)
      <= TrefleClient.calls (SpeciesLookup.world (snd out))
      <= TrefleClient.calls (SpeciesLookup.world st) + 21)%nat
  /\ (initialized = true -> mentions <> [] ->
      (length (PlantInfo.plants (fst out))
       + length (PlantInfo.notFound (fst out))
       = Nat.min 3 (length mentions))%nat
      /\ incl (PlantInfo.notFound (fst out)) (map originalText mentions)).
Proof.
  intros out mentions. unfold out, PlantInfo.getPlantInfo. fold mentions.
  destruct initialized; cbn [negb].
  2:{ cbn [fst snd PlantInfo.triggered PlantInfo.plants PlantInfo.notFound
               length].
      split; [reflexivity|]. split; [lia|]. split; [lia | discriminate]. }
  destruct mentions as [|m ms] eqn:Em.
  { cbn [length Z.of_nat Z.eqb].
    pose proof (slice_0_length
                  PlantInfo.MAX_PLANTS_PER_REQUEST
                  (ConversationPlantRegistry.getRecentPlants
                     PlantInfo.MAX_PLANTS_PER_REQUEST
                     (SpeciesLookup.conversationRegistry st))
                  ltac:(unfold PlantInfo.MAX_PLANTS_PER_REQUEST; lia)) as Hs.
    set (recent := ConversationPlantRegistry.getRecentPlants _ _) in *.
    set (shown := JsString.slice 0 PlantInfo.MAX_PLANTS_PER_REQUEST recent)
      in *.
    unfold PlantInfo.MAX_PLANTS_PER_REQUEST in Hs. clearbody shown recent.
    destruct (Z.of_nat (length recent) >? 0);
      cbn [fst snd PlantInfo.triggered PlantInfo.plants PlantInfo.notFound
               length];
      (split; [reflexivity|]); (split; [lia|]); (split; [lia|]);
      intros _ H; now contradiction H. }
  replace (Z.of_nat (length (m :: ms)) =? 0) with false
    by (symmetry; apply Z.eqb_neq; cbn [length]; lia).
  set (plantsToFetch :=
         JsString.slice 0 PlantInfo.MAX_PLANTS_PER_REQUEST (m :: ms)).
  assert (Hslice : length plantsToFetch = Nat.min 3 (length (m :: ms))).
  { pose proof (slice_0_length PlantInfo.MAX_PLANTS_PER_REQUEST (m :: ms)
                               ltac:(unfold PlantInfo.MAX_PLANTS_PER_REQUEST;
                                     lia)) as H.
    fold plantsToFetch in H. unfold PlantInfo.MAX_PLANTS_PER_REQUEST in H.
    lia. }
  assert (Hincl : incl (map originalText plantsToFetch)
                       (map originalText (m :: ms))).
  { apply incl_map. apply slice_0_incl. }
  destruct (lookupLoop_work searchScript speciesScript plantsToFetch
                            ([], [], st)) as (Hsum & Hnames & Hcalls).
  cbv zeta in Hsum, Hnames, Hcalls.
  destruct (fold_left (PlantInfo.lookupStep searchScript speciesScript)
                      plantsToFetch ([], [], st))
    as [[fetched missing] st1].
  cbn [fst snd length] in Hsum, Hnames, Hcalls.
  assert (Hmissing : incl missing (map originalText (m :: ms))).
  { intros name Hn. apply Hincl. now destruct (Hnames name Hn) as [[]|H]. }
  assert (Hle : (length plantsToFetch <= 3)%nat) by lia.
  destruct fetched as [|p ps].
  - destruct missing as [|searchQuery others].
    + cbn [fst snd PlantInfo.triggered PlantInfo.plants PlantInfo.notFound
               length] in *.
      split; [reflexivity|]. split; [lia|]. split; [lia|].
      intros _ _. split; [lia | exact Hmissing].
    + pose proof (searchPlants_calls searchScript searchQuery 5 st1) as Hs.
      destruct (SpeciesLookup.searchPlants searchScript searchQuery 5 st1)
        as [found st2].
      cbn [fst snd PlantInfo.triggered PlantInfo.plants PlantInfo.notFound
               length] in *.
      split; [reflexivity|]. split; [lia|]. split; [lia|].
      intros _ _. split; [lia | exact Hmissing].
  - cbn [fst snd PlantInfo.triggered PlantInfo.plants PlantInfo.notFound
             length] in *.
    split; [reflexivity|]. split; [lia|]. split; [lia|].
    intros _ _. split; [lia | exact Hmissing].
Qed.

(** With the network down the mention is reported as not found, after the
    three calls of the lookup and the three of the search for
    suggestions. *)
Example getPlantInfo_network_down :
  let st := SpeciesLookup.mkStore
              (TrefleClient.mkWorld 0 RateLimiter.new 0 [])
              (TrefleCache.new CACHE_TTL_MS 200)
              (TrefleCache.new CACHE_TTL_MS 300)
              (TrefleCache.new CACHE_TTL_MS 300)
              ConversationPlantRegistry.new in
  let out := PlantInfo.getPlantInfo
               (fun _ : nat => mkFetched 10 (@Rejected _))
               (fun _ : nat => mkFetched 10 (@Rejected _))
               true "Tell me about my Tomato" st in
  fst out = PlantInfo.mkResult [] ["tomato"] true
  /\ TrefleClient.calls (SpeciesLookup.world (snd out)) = 6%nat
  /\ TrefleClient.delays (SpeciesLookup.world (snd out))
     = [1000; 2000; 1000; 2000].
Proof. vm_compute. repeat split. Qed.

(** ** TrefleCache.set on a full cache *)

Section FullCache.
Context {T : Type}.

Lemma jsmap_in_get {V} (m : JsMap.t V) (e : string * V) :
  JsMap.wf m -> In e m -> JsMap.get m (fst e) = Some (snd e).
Proof.
  intros Hwf Hin. destruct (JsMap.get m (fst e)) as [v|] eqn:E.
  - apply jsmap_get_In in E.
    assert (H : (fst e, v) = e)
      by (apply (jsmap_wf_key_inj m); auto).
    rewrite <- H. reflexivity.
  - apply jsmap_get_None in E. exfalso. apply E.
    unfold JsMap.keys. now apply in_map.
Qed.

Lemma evictOldest_get (c : TrefleCache.t T) (e : string * CacheEntry T) :
  JsMap.wf (TrefleCache.cache c) -> In e (TrefleCache.cache c) ->
  JsMap.get (TrefleCache.cache (TrefleCache.evictOldest c)) (fst e)
  = if existsb (String.eqb (fst e)) (map fst (evicted c))
    then None else Some (snd e).
Proof.
  intros Hwf Hin. rewrite evictOldest_cache, jsmap_get_filter by exact Hwf.
  rewrite (jsmap_in_get _ e Hwf Hin). cbn [fst].
  now destruct (existsb _ _).
Qed.

End FullCache.

(** X25. A [set] on a cache that has reached its capacity evicts before it
    writes, also when the key is already cached. The entries evicted are the
    [max(1, maxSize / 10)] first ones by timestamp, all entries if there are
    fewer, so each of them is at least as old as every entry kept. After
    the call the key holds the new value with the time of the call, every
    other evicted key is absent, and every other entry kept is
    unchanged. *)
Theorem set_at_capacity (T : Type) (c : TrefleCache.t T) (k : string)
        (v : T) (now : Z) :
  JsMap.wf (TrefleCache.cache c) ->
  TrefleCache.maxSize c <= TrefleCache.size c ->
  let c' := TrefleCache.set now c k v in
  let gone := evicted c in
  length gone = Nat.min (Z.to_nat (Z.max 1 (TrefleCache.maxSize c / 10)))
                        (length (TrefleCache.cache c))
  /\ incl gone (TrefleCache.cache c)
  /\ (forall e e', In e gone -> In e' (TrefleCache.cache c) ->
                   ~ In e' gone -> ts_le e e')
  /\ JsMap.get (TrefleCache.cache c') k = Some (mkEntry v now)
  /\ (forall e, In e gone -> fst e <> k ->
                JsMap.get (TrefleCache.cache c') (fst e) = None)
  /\ (forall e', In e' (TrefleCache.cache c) -> ~ In e' gone ->
                 fst e' <> k ->
                 JsMap.get (TrefleCache.cache c') (fst e') = Some (snd e')).
Proof.
  intros Hwf Hfull c' gone.
  assert (Hc' : TrefleCache.cache c'
                = JsMap.set (TrefleCache.cache (TrefleCache.evictOldest c))
                            k (mkEntry v now)).
  { unfold c', TrefleCache.set.
    replace (TrefleCache.size c >=? TrefleCache.maxSize c) with true
      by (symmetry; apply Z.geb_le; exact Hfull).
    reflexivity. }
  split; [apply evicted_length|].
  split; [intros e; apply evicted_incl|]. split.
  { intros e e' He He' Hkept. apply (evicted_oldest c); auto.
    rewrite evictOldest_cache. apply filter_In. split; [exact He'|].
    apply negb_true_iff. apply not_true_iff_false. intros H.
    apply Hkept. now apply (in_keys_evicted c e' Hwf He'). }
  rewrite Hc'. split; [apply jsmap_get_set_same|]. split.
  - intros e He Hne.
    rewrite jsmap_get_set_other by congruence.
    rewrite evictOldest_get by auto using evicted_incl.
    replace (existsb (String.eqb (fst e)) (map fst (evicted c))) with true;
      [reflexivity|].
    symmetry. apply (in_keys_evicted c e Hwf); auto using evicted_incl.
  - intros e' He' Hkept Hne.
    rewrite jsmap_get_set_other by congruence.
    rewrite evictOldest_get by auto.
    destruct (existsb (String.eqb (fst e')) (map fst (evicted c))) eqn:E;
      [|reflexivity].
    exfalso. apply Hkept. now apply (in_keys_evicted c e' Hwf He').
Qed.

Lemma set_at_capacity_witness :
  let c := TrefleCache.run_sets (TrefleCache.new 100 2)
                                [(5, "oak", 1%nat); (3, "elm", 2%nat)] in
  let c' := TrefleCache.set 9 c "oak" 7%nat in
  JsMap.get (TrefleCache.cache c') "oak" = Some (mkEntry 7%nat 9)
  /\ JsMap.get (TrefleCache.cache c') "elm" = None.
Proof.
  intros c c'.
  assert (Hwf : JsMap.wf (TrefleCache.cache c))
    by (repeat constructor; simpl; intuition discriminate).
  destruct (set_at_capacity nat c "oak" 7%nat 9 Hwf ltac:(vm_compute; discriminate))
    as (_ & _ & _ & Hk & Hgone & _).
  split; [exact Hk|].
  apply (Hgone ("elm", mkEntry 2%nat 3)).
  - now left.
  - discriminate.
Defined.

(** ** The registry feeds the extractor *)

Section RegistryPass.
Import Extractor.

Lemma registerProfile_listed (processed : ProcessedPlantData)
      (r : ConversationPlantRegistry.t) :
  In processed
     (ConversationPlantRegistry.getAllPlants
        (TrefleClient.registerProfile processed r)).
Proof.
  unfold ConversationPlantRegistry.getAllPlants.
  apply (jsmap_get_values _ (normKey (registered_name processed))).
  apply registerProfile_get.
Qed.

Lemma registry_match_mentioned (registry : ConversationPlantRegistry.t)
      (text : string) (m : PlantMention) :
  In m (findRegistryMatches registry text) ->
  exists m', In m' (extractPlantMentions registry text)
             /\ normalizedName m' = normalizedName m.
Proof.
  intros H.
  destruct (pushNew_covers (findRegistryMatches registry text) ([], []) m
                           push_inv_nil H) as (m' & Hm' & Hname).
  exists m'. split; [|exact Hname].
  rewrite extract_pushed.
  apply (Permutation_in _ (Permutation_sym (sort_by_confidence_perm _))).
  unfold pushed. now apply pushNew_keeps, pushNew_keeps.
Qed.

End RegistryPass.

(** X26. A profile that a lookup has registered is recognized in later
    messages: whatever else the registry holds, [extractPlantMentions]
    returns a mention named by the lower-cased common name of the profile
    for every text that contains it (in any letter case), and one named by
    the lower-cased scientific name for every text that contains that. *)
Theorem registered_plant_is_mentioned
        (r : ConversationPlantRegistry.t) (processed : ProcessedPlantData)
        (text : string) :
  let registry := TrefleClient.registerProfile processed r in
  (forall cn : string,
      commonName processed = Some cn -> cn <> "" ->
      JsString.includes (JsString.toLowerCase text) (JsString.toLowerCase cn)
      = true ->
      exists m, In m (Extractor.extractPlantMentions registry text)
                /\ normalizedName m = JsString.toLowerCase cn)
  /\ (JsString.includes (JsString.toLowerCase text)
                        (JsString.toLowerCase (scientificName processed))
      = true ->
      exists m, In m (Extractor.extractPlantMentions registry text)
                /\ normalizedName m
                   = JsString.toLowerCase (scientificName processed)).
Proof.
  intros registry.
  pose proof (registerProfile_listed processed r) as Hlisted.
  fold registry in Hlisted. split.
  - intros cn Hcn Hne Hinc.
    apply (registry_match_mentioned
             registry text
             (mkMention cn (JsString.toLowerCase cn) high exact_match)).
    unfold Extractor.findRegistryMatches. apply in_flat_map.
    exists processed. split; [exact Hlisted|].
    unfold Extractor.registryMatchesOf. apply in_or_app. left.
    rewrite Hcn, Hinc, (truthy_nonempty cn Hne). now left.
  - intros Hinc.
    apply (registry_match_mentioned
             registry text
             (mkMention (scientificName processed)
                        (JsString.toLowerCase (scientificName processed))
                        high exact_match)).
    unfold Extractor.findRegistryMatches. apply in_flat_map.
    exists processed. split; [exact Hlisted|].
    unfold Extractor.registryMatchesOf. apply in_or_app. right.
    apply in_or_app. left. rewrite Hinc. now left.
Qed.

Lemma registered_plant_is_mentioned_witness :
  exists m,
    In m (Extractor.extractPlantMentions
            (TrefleClient.registerProfile Samples.monstera
                                          ConversationPlantRegistry.new)
            "Is my SWISS CHEESE PLANT ok?")
    /\ normalizedName m = "swiss cheese plant".
Proof.
  apply (proj1 (registered_plant_is_mentioned
                  ConversationPlantRegistry.new Samples.monstera
                  "Is my SWISS CHEESE PLANT ok?")
               "Swiss cheese plant").
  - reflexivity.
  - discriminate.
  - reflexivity.
Defined.
